(** * Agent runtime: retryable transactions, free-tier agents and the
      streaming tool dispatcher.

    A shallow embedding of
      - packages/internal/src/db/transaction.ts
      - common/src/constants/free-agents.ts
      - packages/agent-runtime/src/tools/stream-parser.ts (processStream)
    together with the properties their specification states about them. *)

From Stdlib Require Import List String Ascii Bool Arith ZArith Lia DecimalString.
From Stdlib Require Import DecimalNat.
Import ListNotations.
Open Scope string_scope.
Open Scope list_scope.
Set Warnings "-register-all".

(** ** JavaScript values

    [getRetryableErrorDescription] takes an [unknown]; the embedding keeps the
    distinctions the function looks at: falsiness, [typeof], and property
    lookup on objects. *)
Module Js.

Inductive Value : Type :=
| Undefined
| Null
| Bool (b : bool)
| Number (n : Z)
| Str (s : string)
| Function (name : string)
| Object (props : list (string * Value)).

(** [!v] *)
Definition falsy (v : Value) : bool :=
  match v with
  | Undefined | Null => true
  | Bool b => negb b
  | Number n => Z.eqb n 0
  | Str s => String.eqb s ""
  | Function _ | Object _ => false
  end.

Inductive TypeTag : Type :=
| TUndefined | TObject | TBoolean | TNumber | TString | TFunction.

(** [typeof v]; [typeof null] is ['object']. *)
Definition typeof (v : Value) : TypeTag :=
  match v with
  | Undefined => TUndefined
  | Null | Object _ => TObject
  | Bool _ => TBoolean
  | Number _ => TNumber
  | Str _ => TString
  | Function _ => TFunction
  end.

Fixpoint assoc {A : Type} (k : string) (l : list (string * A)) : option A :=
  match l with
  | [] => None
  | (k', v) :: tl => if String.eqb k k' then Some v else assoc k tl
  end.

(** Own property names every ordinary object inherits from
    [Object.prototype]. *)
Definition objectPrototypeKeys : list string :=
  [ "constructor"; "hasOwnProperty"; "isPrototypeOf"; "propertyIsEnumerable";
    "toLocaleString"; "toString"; "valueOf"; "__proto__";
    "__defineGetter__"; "__defineSetter__";
    "__lookupGetter__"; "__lookupSetter__" ].

Definition mem (k : string) (l : list string) : bool :=
  existsb (String.eqb k) l.

(** What a lookup of [k] finds on [Object.prototype]: the prototype object
    itself for [__proto__], a built-in function for the other names. *)
Definition inherited (k : string) : Value :=
  if mem k objectPrototypeKeys
  then (if String.eqb k "__proto__" then Object [] else Function k)
  else Undefined.

(** [v.k] (or [v?.k]) for the property names used here: an own data property
    of an object, else what the prototype chain gives; a primitive has no
    such property. *)
Definition get (v : Value) (k : string) : Value :=
  match v with
  | Object props =>
      match assoc k props with
      | Some x => x
      | None => inherited k
      end
  | _ => Undefined
  end.

(** [String(v)] as a template literal computes it. *)
Definition display (v : Value) : string :=
  match v with
  | Undefined => "undefined"
  | Null => "null"
  | Bool b => if b then "true" else "false"
  | Number n => NilZero.string_of_int (Z.to_int n)
  | Str s => s
  | Function name => ("function " ++ name ++ "() { [native code] }")%string
  | Object _ => "[object Object]"
  end.

(** [a ?? b] *)
Definition nullish (a b : Value) : Value :=
  match a with
  | Undefined | Null => b
  | _ => a
  end.

(** An object literal whose properties are all strings, such as
    [RETRYABLE_PG_ERROR_CODES]: a [Record<string, string>] whose prototype
    is [Object.prototype]. *)
Definition Table := list (string * string).

(** [k in table]: own properties, then the prototype chain. *)
Definition has (k : string) (t : Table) : bool :=
  match assoc k t with
  | Some _ => true
  | None => mem k objectPrototypeKeys
  end.

(** [table[k]] *)
Definition index (t : Table) (k : string) : Value :=
  match assoc k t with
  | Some s => Str s
  | None => inherited k
  end.

Lemma mem_In (a : string) (l : list string) : mem a l = true <-> In a l.
Proof.
  unfold mem. rewrite existsb_exists. split.
  - intros [x [Hx He]]. apply String.eqb_eq in He. subst. exact Hx.
  - intros H. exists a. split; [exact H | apply String.eqb_refl].
Qed.

End Js.

(** ** packages/internal/src/db/transaction.ts *)
Module Transaction.

Import Js.

Definition RETRYABLE_PG_ERROR_CODES : Table :=
  [ ("40001", "serialization_failure");
    ("40003", "statement_completion_unknown");
    ("40P01", "deadlock_detected");
    ("08000", "connection_exception");
    ("08001", "sqlclient_unable_to_establish_sqlconnection");
    ("08003", "connection_does_not_exist");
    ("08004", "sqlserver_rejected_establishment_of_sqlconnection");
    ("08006", "connection_failure");
    ("08P01", "protocol_violation");
    ("57014", "query_canceled");
    ("57P01", "admin_shutdown");
    ("57P02", "crash_shutdown");
    ("57P03", "cannot_connect_now");
    ("53000", "insufficient_resources");
    ("53100", "disk_full");
    ("53200", "out_of_memory");
    ("53300", "too_many_connections") ].

Definition retryableClasses : Table :=
  [ ("08", "connection_exception");
    ("40", "transaction_rollback");
    ("53", "insufficient_resources");
    ("57", "operator_intervention") ].

(** The function's result is typed [string | null]; what it returns at run
    time is whatever the table lookup yields, so the result is a [Value]. *)
Definition getRetryableErrorDescription (error : Value) : Value :=
  if falsy error || negb (match typeof error with TObject => true | _ => false end)
  then Null
  else
    match get error "code" with
    | Str errorCode =>
        if has errorCode RETRYABLE_PG_ERROR_CODES
        then index RETRYABLE_PG_ERROR_CODES errorCode
        else
          let errorClass := substring 0 2 errorCode in
          if has errorClass retryableClasses
          then Str (display (index retryableClasses errorClass) ++ "_" ++ errorCode)%string
          else Null
    | _ => Null
    end.

Definition isNull (v : Value) : bool :=
  match v with Null => true | _ => false end.

Definition isRetryablePostgresError (error : Value) : bool :=
  negb (isNull (getRetryableErrorDescription error)).

(** *** The retry loop around [db.transaction] *)

(** How a promise settles. *)
Inductive Outcome (T : Type) : Type :=
| Resolved (v : T)
| Rejected (e : Value).
Arguments Resolved {T} v.
Arguments Rejected {T} e.

(** One call of [db.transaction(callback, options)] as the database port
    answers it: whether the callback was run (a connection may fail before
    it is), and how the returned promise settled. *)
Record TxAttempt (T : Type) : Type := mkTxAttempt {
  ranCallback : bool;
  settled : Outcome T
}.
Arguments mkTxAttempt {T} _ _.
Arguments ranCallback {T} _.
Arguments settled {T} _.

(** The database port: the answer to the [k]-th call, counted from 0. *)
Definition Db (T : Type) : Type := nat -> TxAttempt T.

(** An entry of [logger.warn] written by [onRetry]. *)
Record Warning : Type := mkWarning {
  attempt : nat;
  pgErrorCode : Value;
  pgErrorDescription : Value;
  baseDelayMs : Z;
  error : Value
}.

(** What a run leaves behind: the isolation level asked for at each call of
    [db.transaction], the number of callback runs, the warnings logged and
    the delays slept, oldest first. *)
Record World : Type := mkWorld {
  isolationLevels : list string;
  callbackRuns : nat;
  warnings : list Warning;
  sleeps : list Z
}.

Definition emptyWorld : World := mkWorld [] 0 [] [].

(** Modelled from the spec: [INITIAL_RETRY_DELAY] of common/util/promise is
    not among the sources; the first delay of the back-off is 1s. *)
Definition INITIAL_RETRY_DELAY : Z := 1000.

Record RetryOptions : Type := mkRetryOptions {
  maxRetries : nat;
  retryDelayMs : Z;
  retryIf : Value -> bool;
  onRetry : Value -> nat -> World -> World
}.

Definition sleep (ms : Z) (w : World) : World :=
  mkWorld (isolationLevels w) (callbackRuns w) (warnings w) (sleeps w ++ [ms]).

(** Modelled from the spec: [withRetry] of common/util/promise is not among
    the sources. The operation is tried; a failure that [retryIf] rejects,
    or the failure of the last allowed attempt, propagates at once; any
    other failure is reported to [onRetry] with the 1-based number of the
    attempt that failed, then the loop sleeps [retryDelayMs * 2^(attempt-1)]
    (the +-20% jitter is left out) and tries again. [remaining] counts the
    attempts still allowed, [done] those already made. *)
Fixpoint withRetryLoop {T : Type} (remaining done : nat)
  (operation : World -> Outcome T * World) (o : RetryOptions)
  (lastError : Value) (w : World) : Outcome T * World :=
  match remaining with
  | 0 => (Rejected lastError, w)
  | S remaining' =>
      match operation w with
      | (Resolved v, w1) => (Resolved v, w1)
      | (Rejected e, w1) =>
          if negb (retryIf o e) || Nat.eqb (S done) (maxRetries o)
          then (Rejected e, w1)
          else
            let w2 := onRetry o e (S done) w1 in
            let w3 := sleep (retryDelayMs o * 2 ^ Z.of_nat done) w2 in
            withRetryLoop remaining' (S done) operation o e w3
      end
  end.

Definition withRetry {T : Type} (operation : World -> Outcome T * World)
  (o : RetryOptions) (w : World) : Outcome T * World :=
  withRetryLoop (maxRetries o) 0 operation o Null w.

(** [db.transaction(callback, { isolationLevel })] against the port. *)
Definition dbTransaction {T : Type} (db : Db T) (isolationLevel : string)
  (w : World) : Outcome T * World :=
  let a := db (List.length (isolationLevels w)) in
  (settled a,
   mkWorld (isolationLevels w ++ [isolationLevel])
           (callbackRuns w + (if ranCallback a then 1 else 0))
           (warnings w) (sleeps w)).

Definition warn (x : Warning) (w : World) : World :=
  mkWorld (isolationLevels w) (callbackRuns w) (warnings w ++ [x]) (sleeps w).

Definition serializableRetryOptions : RetryOptions :=
  {| maxRetries := 5;
     retryDelayMs := INITIAL_RETRY_DELAY;
     retryIf := fun error => negb (isNull (getRetryableErrorDescription error));
     onRetry := fun error attempt =>
       let errorCode := nullish (get error "code") (Str "unknown") in
       let errorDescription :=
         nullish (getRetryableErrorDescription error) (Str "unknown") in
       let baseDelayMs := (INITIAL_RETRY_DELAY * 2 ^ (Z.of_nat attempt - 1))%Z in
       warn (mkWarning attempt errorCode errorDescription baseDelayMs error) |}.

Definition withSerializableTransaction {T : Type} (db : Db T) (w : World)
  : Outcome T * World :=
  withRetry (dbTransaction db "serializable") serializableRetryOptions w.

(** *** Notions used to state the properties *)

(** The four retryable classes: transaction rollback, connection exception,
    operator intervention, insufficient resources. *)
Definition retryableClassPrefixes : list string := ["40"; "08"; "57"; "53"].

(** The error is an object whose own [code] is the string [c]. *)
Definition hasStringCode (e : Value) (c : string) : Prop :=
  exists props, e = Object props /\ assoc "code" props = Some (Str c).

(** Some [cause] below [e], at any depth, is an error that the
    classification accepts on its own. *)
Inductive retryableInCause : Value -> Prop :=
| cause_here (props : list (string * Value)) (c : Value) :
    assoc "cause" props = Some c -> isRetryablePostgresError c = true ->
    retryableInCause (Object props)
| cause_deeper (props : list (string * Value)) (c : Value) :
    assoc "cause" props = Some c -> retryableInCause c ->
    retryableInCause (Object props).

(** The attempt answered with a failure that the classification accepts. *)
Definition retryableFailure {T : Type} (a : TxAttempt T) : Prop :=
  exists e, settled a = Rejected e /\ isRetryablePostgresError e = true.

Definition attempts (w : World) : nat := List.length (isolationLevels w).

Definition worldOk (w : World) : Prop :=
  Forall (fun l => l = "serializable") (isolationLevels w) /\
  callbackRuns w <= attempts w.

(** A port that fails twice with a serialization failure, then commits. *)
Definition failsTwice : Db string :=
  fun k =>
    if Nat.ltb k 2
    then mkTxAttempt false (Rejected (Object [("code", Str "40001")]))
    else mkTxAttempt true (Resolved "success after retries").

(** *** Properties of the classification *)

Ltac split_eqb :=
  repeat match goal with
  | |- context [String.eqb ?a ?b] =>
      destruct (String.eqb_spec a b); [subst | ]
  | H : context [String.eqb ?a ?b] |- _ =>
      destruct (String.eqb_spec a b); [subst | ]
  end.

Lemma listed_code_class (c d : string) :
  assoc c RETRYABLE_PG_ERROR_CODES = Some d ->
  mem (substring 0 2 c) retryableClassPrefixes = true.
Proof.
  unfold RETRYABLE_PG_ERROR_CODES; cbn [assoc]; intros H.
  split_eqb; try reflexivity; discriminate.
Qed.

Lemma substring_0_2_length (c : string) : String.length (substring 0 2 c) <= 2.
Proof.
  destruct c as [|a [|b c]]; cbn; try lia.
  destruct c; cbn; lia.
Qed.

Lemma short_not_inherited (k : string) :
  String.length k <= 2 -> mem k objectPrototypeKeys = false.
Proof.
  intros Hk. destruct (mem k objectPrototypeKeys) eqn:E; [|reflexivity].
  apply mem_In in E. unfold objectPrototypeKeys in E. cbn [In] in E.
  repeat (destruct E as [E|E]; [subst k; cbn in Hk; lia|]). contradiction.
Qed.

Lemma has_retryableClasses (k : string) :
  String.length k <= 2 ->
  has k retryableClasses = mem k retryableClassPrefixes.
Proof.
  intros Hk. unfold has. rewrite (short_not_inherited k Hk).
  unfold retryableClasses, retryableClassPrefixes, mem; cbn [assoc existsb].
  split_eqb; try reflexivity; congruence.
Qed.

Lemma inherited_not_null (k : string) :
  mem k objectPrototypeKeys = true ->
  inherited k <> Null /\ (forall s, inherited k <> Str s) /\ inherited k <> Undefined.
Proof.
  intros H. unfold inherited. rewrite H.
  destruct (String.eqb k "__proto__"); repeat split; try discriminate;
    intros s; discriminate.
Qed.

(** What the function computes for an object whose [code] is a string. *)
Lemma description_of_code (props : list (string * Value)) (c : string) :
  assoc "code" props = Some (Str c) ->
  getRetryableErrorDescription (Object props) =
    if has c RETRYABLE_PG_ERROR_CODES
    then index RETRYABLE_PG_ERROR_CODES c
    else if mem (substring 0 2 c) retryableClassPrefixes
         then Str (display (index retryableClasses (substring 0 2 c)) ++ "_" ++ c)%string
         else Null.
Proof.
  intros H. unfold getRetryableErrorDescription; cbn [falsy typeof orb negb get].
  rewrite H. rewrite has_retryableClasses by apply substring_0_2_length.
  reflexivity.
Qed.

(** Anything that is not an object with a string [code] gives [null]. *)
Lemma description_null_without_code (e : Value) :
  (forall c, ~ hasStringCode e c) -> getRetryableErrorDescription e = Null.
Proof.
  intros H. unfold getRetryableErrorDescription.
  destruct e as [ | | b | n | s | f | props ]; cbn [falsy typeof orb negb];
    try reflexivity;
    try (destruct (negb b); reflexivity);
    try (destruct (Z.eqb n 0); reflexivity);
    try (destruct (String.eqb s ""); reflexivity).
  cbn [get]. destruct (assoc "code" props) as [v|] eqn:E.
  - destruct v; try reflexivity. exfalso. apply (H s). exists props; auto.
  - unfold inherited. reflexivity.
Qed.

(** The result is non-null exactly for an object with a string [code] that
    is in a retryable class or names a member of [Object.prototype]. *)
Lemma description_not_null_iff (e : Value) :
  getRetryableErrorDescription e <> Null <->
  exists c, hasStringCode e c /\
    (mem (substring 0 2 c) retryableClassPrefixes = true \/
     mem c objectPrototypeKeys = true).
Proof.
  split.
  - intros Hnn.
    assert (Hc : exists c, hasStringCode e c).
    { destruct e as [ | | b | n | s | f | props ];
        try (exfalso; apply Hnn; apply description_null_without_code;
             intros c [p [Hp _]]; discriminate).
      destruct (assoc "code" props) as [v|] eqn:E.
      - destruct v;
          try (exfalso; apply Hnn; apply description_null_without_code;
               intros c [p [Hp Hq]]; inversion Hp; subst; congruence).
        exists s, props; auto.
      - exfalso; apply Hnn; apply description_null_without_code.
        intros c [p [Hp Hq]]; inversion Hp; subst; congruence. }
    destruct Hc as [c Hc]. exists c; split; [exact Hc|].
    destruct Hc as [props [-> Hcode]].
    rewrite (description_of_code props c Hcode) in Hnn.
    unfold has in Hnn.
    destruct (assoc c RETRYABLE_PG_ERROR_CODES) as [d|] eqn:E.
    + left. eapply listed_code_class; eauto.
    + destruct (mem c objectPrototypeKeys); [right; reflexivity|].
      destruct (mem (substring 0 2 c) retryableClassPrefixes);
        [left; reflexivity | congruence].
  - intros [c [[props [-> Hcode]] H]].
    rewrite (description_of_code props c Hcode).
    unfold has, index.
    destruct (assoc c RETRYABLE_PG_ERROR_CODES) as [d|] eqn:E; [discriminate|].
    destruct (mem c objectPrototypeKeys) eqn:Ep.
    + apply inherited_not_null; assumption.
    + destruct H as [H|H]; [rewrite H; discriminate | discriminate].
Qed.

(** A listed code is mapped to its own name. *)
Lemma description_listed (props : list (string * Value)) (c d : string) :
  assoc "code" props = Some (Str c) ->
  assoc c RETRYABLE_PG_ERROR_CODES = Some d ->
  getRetryableErrorDescription (Object props) = Str d.
Proof.
  intros Hc Hd. rewrite (description_of_code props c Hc).
  unfold has, index. rewrite Hd. reflexivity.
Qed.

(** An unlisted code of a retryable class is mapped to the class name
    followed by the code. *)
Lemma description_class_fallback (props : list (string * Value)) (c n : string) :
  assoc "code" props = Some (Str c) ->
  assoc c RETRYABLE_PG_ERROR_CODES = None ->
  mem c objectPrototypeKeys = false ->
  assoc (substring 0 2 c) retryableClasses = Some n ->
  getRetryableErrorDescription (Object props) = Str (n ++ "_" ++ c)%string.
Proof.
  intros Hc Hn Hp Hk. rewrite (description_of_code props c Hc).
  unfold has, index. rewrite Hn, Hp, Hk.
  assert (Hm : mem (substring 0 2 c) retryableClassPrefixes = true).
  { rewrite <- has_retryableClasses by apply substring_0_2_length.
    unfold has. rewrite Hk. reflexivity. }
  rewrite Hm. reflexivity.
Qed.

(** The result does not depend on any property other than [code]; in
    particular a [cause] is never looked at. *)
Lemma description_only_reads_code (p q : list (string * Value)) :
  assoc "code" p = assoc "code" q ->
  getRetryableErrorDescription (Object p) = getRetryableErrorDescription (Object q).
Proof.
  intros H. unfold getRetryableErrorDescription; cbn [falsy typeof orb negb get].
  rewrite H. reflexivity.
Qed.

(** A top-level [code] that is no retryable code and no inherited name
    gives [null], whatever the [cause] chain holds. *)
Lemma description_null_when_code_elsewhere (props : list (string * Value)) :
  (forall c, assoc "code" props = Some (Str c) ->
     mem (substring 0 2 c) retryableClassPrefixes = false /\
     mem c objectPrototypeKeys = false) ->
  getRetryableErrorDescription (Object props) = Null.
Proof.
  intros H.
  destruct (getRetryableErrorDescription (Object props)) eqn:E; try reflexivity;
    exfalso;
    assert (Hnn : getRetryableErrorDescription (Object props) <> Null)
      by (rewrite E; discriminate);
    apply description_not_null_iff in Hnn;
    destruct Hnn as [c [[q [Hq Hc]] Hor]]; inversion Hq; subst q;
    destruct (H c Hc) as [H1 H2]; destruct Hor; congruence.
Qed.

(** *** Properties of the retry loop *)

Section Retry.

Context {T : Type}.
Variable db : Db T.

Let operation := dbTransaction db "serializable".
Let o := serializableRetryOptions.

Lemma operation_attempts (w : World) :
  attempts (snd (operation w)) = S (attempts w).
Proof.
  unfold operation, dbTransaction, attempts; cbn.
  rewrite length_app; cbn; lia.
Qed.

Lemma operation_ok (w : World) : worldOk w -> worldOk (snd (operation w)).
Proof.
  intros [Hf Hc]. unfold worldOk, operation, dbTransaction, attempts in *; cbn.
  split.
  - apply Forall_app; split; [assumption | constructor; [reflexivity | constructor]].
  - rewrite length_app; cbn. destruct (ranCallback _); lia.
Qed.

Lemma operation_fst (w : World) :
  fst (operation w) = settled (db (attempts w)).
Proof. reflexivity. Qed.

Lemma pause_attempts (e : Value) (n : nat) (ms : Z) (w : World) :
  attempts (sleep ms (onRetry o e n w)) = attempts w /\
  (worldOk w -> worldOk (sleep ms (onRetry o e n w))).
Proof. split; [reflexivity | intros H; exact H]. Qed.

(** Every run of the loop makes at most [remaining] further attempts, asks
    for serializable isolation each time, and runs the callback at most once
    per attempt. *)
Lemma loop_bounds (remaining : nat) :
  forall done last w,
    worldOk w ->
    let w' := snd (withRetryLoop remaining done operation o last w) in
    worldOk w' /\
    attempts w <= attempts w' <= attempts w + remaining /\
    (0 < remaining -> attempts w < attempts w').
Proof.
  induction remaining as [|r IH]; intros done last w Hw; cbn zeta.
  - cbn. destruct Hw. repeat split; try assumption; try lia.
  - cbn [withRetryLoop].
    pose proof (operation_attempts w) as Ha.
    pose proof (operation_ok w Hw) as Hok.
    destruct (operation w) as [[v|e] w1]; cbn [snd] in *.
    + repeat split; try apply Hok; lia.
    + destruct (negb (retryIf o e) || Nat.eqb (S done) (maxRetries o)).
      * cbn [snd]. repeat split; try apply Hok; lia.
      * set (w3 := sleep _ _).
        destruct (pause_attempts e (S done) (retryDelayMs o * 2 ^ Z.of_nat done) w1)
          as [Hat Hk].
        fold w3 in Hat, Hk.
        destruct (IH (S done) e w3 (Hk Hok)) as [H1 [H2 H3]].
        repeat split; try apply H1; lia.
Qed.

(** While the failures are retryable and attempts remain, the loop goes
    round: after [k] such failures it stands at attempt [done + k]. *)
Lemma loop_skips_retryable (k : nat) :
  forall done last w,
    attempts w = done ->
    done + k < 5 ->
    (forall i, done <= i < done + k -> retryableFailure (db i)) ->
    exists last' w',
      withRetryLoop (5 - done) done operation o last w =
      withRetryLoop (5 - (done + k)) (done + k) operation o last' w' /\
      attempts w' = done + k.
Proof.
  induction k as [|k IH]; intros done last w Hat Hlt Hall.
  - exists last, w. rewrite Nat.add_0_r. auto.
  - destruct (Hall done ltac:(lia)) as [e [He Hr]].
    replace (5 - done) with (S (5 - S done)) by lia.
    cbn [withRetryLoop].
    pose proof (operation_attempts w) as Ha.
    pose proof (operation_fst w) as Hf.
    destruct (operation w) as [r w1]; cbn [fst snd] in *.
    rewrite Hat in Hf. rewrite Hf, He.
    assert (Hif : negb (retryIf o e) || Nat.eqb (S done) (maxRetries o) = false).
    { apply orb_false_iff; split.
      - unfold o; cbn [retryIf serializableRetryOptions].
        unfold isRetryablePostgresError in Hr. rewrite Hr. reflexivity.
      - apply Nat.eqb_neq. unfold o; cbn. lia. }
    rewrite Hif.
    set (w3 := sleep _ _).
    destruct (IH (S done) e w3) as [last' [w' [Heq Hat']]].
    + unfold w3. rewrite (proj1 (pause_attempts _ _ _ _)). lia.
    + lia.
    + intros i Hi. apply Hall. lia.
    + exists last', w'. replace (done + S k) with (S done + k) by lia. auto.
Qed.

Lemma loop_ends_resolved (k : nat) (v : T) (last : Value) (w : World) :
  k < 5 -> attempts w = k -> settled (db k) = Resolved v ->
  let r := withRetryLoop (5 - k) k operation o last w in
  fst r = Resolved v /\ attempts (snd r) = S k.
Proof.
  intros Hk Hat Hv. replace (5 - k) with (S (5 - S k)) by lia.
  cbn [withRetryLoop].
  pose proof (operation_attempts w) as Ha.
  pose proof (operation_fst w) as Hf.
  destruct (operation w) as [r w1]; cbn [fst snd] in *.
  rewrite Hat in Hf. rewrite Hf, Hv. cbn. split; [reflexivity | lia].
Qed.

Lemma loop_ends_rejected (k : nat) (e last : Value) (w : World) :
  k < 5 -> attempts w = k -> settled (db k) = Rejected e ->
  isRetryablePostgresError e = false \/ k = 4 ->
  let r := withRetryLoop (5 - k) k operation o last w in
  fst r = Rejected e /\ attempts (snd r) = S k.
Proof.
  intros Hk Hat He Hwhy. replace (5 - k) with (S (5 - S k)) by lia.
  cbn [withRetryLoop].
  pose proof (operation_attempts w) as Ha.
  pose proof (operation_fst w) as Hf.
  destruct (operation w) as [r w1]; cbn [fst snd] in *.
  rewrite Hat in Hf. rewrite Hf, He.
  assert (Hif : negb (retryIf o e) || Nat.eqb (S k) (maxRetries o) = true).
  { apply orb_true_iff. destruct Hwhy as [Hn | ->].
    - left. unfold o; cbn [retryIf serializableRetryOptions].
      unfold isRetryablePostgresError in Hn. rewrite Hn. reflexivity.
    - right. reflexivity. }
  rewrite Hif. cbn. split; [reflexivity | lia].
Qed.

(** C4. [withSerializableTransaction] calls [db.transaction] at least once
    and at most 5 times, each time asking for serializable isolation, and so
    runs the callback at most 5 times. After [k < 5] failures classified
    retryable, a success at attempt [k] is returned, and a failure at
    attempt [k] that is not retryable propagates at once (for [k = 0] after
    exactly one execution); when all of the first four attempts fail
    retryably, the fifth attempt is the last and its error is rethrown. *)
Theorem withSerializableTransaction_retries :
  let r := withSerializableTransaction db emptyWorld in
  (1 <= attempts (snd r) <= 5 /\
   callbackRuns (snd r) <= attempts (snd r) /\
   Forall (fun l => l = "serializable") (isolationLevels (snd r))) /\
  (forall k v,
     k < 5 -> (forall i, i < k -> retryableFailure (db i)) ->
     settled (db k) = Resolved v ->
     fst r = Resolved v /\ attempts (snd r) = S k) /\
  (forall k e,
     k < 5 -> (forall i, i < k -> retryableFailure (db i)) ->
     settled (db k) = Rejected e -> isRetryablePostgresError e = false ->
     fst r = Rejected e /\ attempts (snd r) = S k) /\
  (forall e,
     (forall i, i < 4 -> retryableFailure (db i)) ->
     settled (db 4) = Rejected e ->
     fst r = Rejected e /\ attempts (snd r) = 5).
Proof.
  cbn zeta. unfold withSerializableTransaction, withRetry.
  change (maxRetries serializableRetryOptions) with (5 - 0).
  fold operation. fold o.
  assert (Hok : worldOk emptyWorld) by (split; [constructor | cbn; lia]).
  split; [| split; [| split]].
  - destruct (loop_bounds (5 - 0) 0 Null emptyWorld Hok) as [[Hf Hc] [Hb Hpos]].
    cbn in Hb, Hpos. specialize (Hpos ltac:(lia)).
    repeat split; try assumption; cbn; lia.
  - intros k v Hk Hall Hv.
    destruct (loop_skips_retryable k 0 Null emptyWorld eq_refl ltac:(lia))
      as [last [w [Heq Hat]]].
    { intros i Hi. apply Hall. lia. }
    rewrite Heq. cbn [Nat.add] in *.
    apply loop_ends_resolved; assumption.
  - intros k e Hk Hall He Hn.
    destruct (loop_skips_retryable k 0 Null emptyWorld eq_refl ltac:(lia))
      as [last [w [Heq Hat]]].
    { intros i Hi. apply Hall. lia. }
    rewrite Heq. cbn [Nat.add] in *.
    apply loop_ends_rejected; auto.
  - intros e Hall He.
    destruct (loop_skips_retryable 4 0 Null emptyWorld eq_refl ltac:(lia))
      as [last [w [Heq Hat]]].
    { intros i Hi. apply Hall. lia. }
    rewrite Heq. cbn [Nat.add] in *.
    apply loop_ends_rejected; auto.
Qed.

End Retry.

Lemma withSerializableTransaction_retries_witness :
  fst (withSerializableTransaction failsTwice emptyWorld)
    = Resolved "success after retries" /\
  attempts (snd (withSerializableTransaction failsTwice emptyWorld)) = 3.
Proof.
  apply (proj1 (proj2 (withSerializableTransaction_retries failsTwice)) 2).
  - lia.
  - intros i Hi. exists (Object [("code", Str "40001")]).
    destruct i as [|[|i]]; [split; reflexivity | split; reflexivity | lia].
  - reflexivity.
Defined.

(** The delays slept by that run: 1s, then 2s. *)
Example failsTwice_sleeps :
  sleeps (snd (withSerializableTransaction failsTwice emptyWorld))
    = [1000%Z; 2000%Z].
Proof. reflexivity. Qed.

(** C5. For the error [{ code: 'constructor' }] the lookup
    ['constructor' in RETRYABLE_PG_ERROR_CODES] succeeds through the
    prototype chain: the function returns the inherited member, which is not
    null, although the code belongs to none of the four retryable classes;
    the error is classified retryable. *)
Theorem description_of_inherited_code :
  getRetryableErrorDescription (Object [("code", Str "constructor")])
    = Function "constructor" /\
  isRetryablePostgresError (Object [("code", Str "constructor")]) = true /\
  mem (substring 0 2 "constructor") retryableClassPrefixes = false.
Proof.
  split; [| split].
  - unfold getRetryableErrorDescription; cbn [falsy typeof orb negb get assoc].
    reflexivity.
  - unfold isRetryablePostgresError. reflexivity.
  - reflexivity.
Qed.

(** C10. The error [{ code: 'constructor', cause: { code: '40001' } }]
    carries a retryable Postgres code only inside its [cause]; its top-level
    [code] is no Postgres code of a retryable class. The function still
    returns a non-null value for it, through the inherited-name lookup, and
    the error is treated as retryable. *)
Theorem description_with_code_only_in_cause :
  let inner := Object [("code", Str "40001")] in
  let e := Object [("code", Str "constructor"); ("cause", inner)] in
  retryableInCause e /\
  mem (substring 0 2 "constructor") retryableClassPrefixes = false /\
  getRetryableErrorDescription e = Function "constructor" /\
  isRetryablePostgresError e = true.
Proof.
  cbn zeta. split; [| split; [| split]].
  - eapply cause_here; reflexivity.
  - reflexivity.
  - rewrite (description_only_reads_code _ [("code", Str "constructor")]) by reflexivity.
    unfold getRetryableErrorDescription; cbn [falsy typeof orb negb get assoc].
    reflexivity.
  - reflexivity.
Qed.

(** With the inherited names set aside, an error whose retryable code sits
    only in its [cause] chain is not retried. *)
Lemma nested_cause_not_retried (props : list (string * Value)) :
  retryableInCause (Object props) ->
  (forall c, assoc "code" props = Some (Str c) ->
     mem (substring 0 2 c) retryableClassPrefixes = false /\
     mem c objectPrototypeKeys = false) ->
  getRetryableErrorDescription (Object props) = Null /\
  isRetryablePostgresError (Object props) = false.
Proof.
  intros _ H. unfold isRetryablePostgresError.
  rewrite (description_null_when_code_elsewhere props H). split; reflexivity.
Qed.

Example nested_cause_40001 :
  isRetryablePostgresError (Object [("cause", Object [("code", Str "40001")])])
    = false.
Proof. reflexivity. Qed.

(** *** Further properties of the classification and of the retry log *)

Lemma retryable_class_not_inherited (c : string) :
  mem (substring 0 2 c) retryableClassPrefixes = true ->
  mem c objectPrototypeKeys = false.
Proof.
  intros H. destruct (mem c objectPrototypeKeys) eqn:E; [|reflexivity].
  apply mem_In in E. unfold objectPrototypeKeys in E. cbn [In] in E.
  repeat (destruct E as [E|E]; [subst c; discriminate H|]). contradiction.
Qed.

(** [isRetryablePostgresError] answers true exactly for an object whose
    own [code] is a string that starts with 40, 08, 57 or 53, or that names
    a member of [Object.prototype]; anything else, be it null, a primitive,
    an object without [code] or with a [code] that is no string, is not
    retryable. *)
Theorem isRetryablePostgresError_iff (e : Value) :
  isRetryablePostgresError e = true <->
  exists props c,
    e = Object props /\ assoc "code" props = Some (Str c) /\
    (In (substring 0 2 c) retryableClassPrefixes \/ In c objectPrototypeKeys).
Proof.
  assert (Hn : isRetryablePostgresError e = true <->
               getRetryableErrorDescription e <> Null).
  { unfold isRetryablePostgresError.
    destruct (getRetryableErrorDescription e); cbn; split;
      try discriminate; try reflexivity; congruence. }
  rewrite Hn, description_not_null_iff. split.
  - intros [c [[props [-> Hc]] H]]. exists props, c.
    rewrite <- !mem_In. auto.
  - intros [props [c (-> & Hc & H)]]. exists c. split.
    + exists props. auto.
    + rewrite !mem_In. exact H.
Qed.

(** For a code of one of the four retryable classes the description is a
    string, as the signature says: the listed name when the code is
    listed, and otherwise the name of the class, an underscore and the
    code. *)
Theorem description_of_a_retryable_class (props : list (string * Value))
  (c : string) :
  assoc "code" props = Some (Str c) ->
  In (substring 0 2 c) retryableClassPrefixes ->
  exists d,
    getRetryableErrorDescription (Object props) = Str d /\
    match assoc c RETRYABLE_PG_ERROR_CODES with
    | Some name => d = name
    | None =>
        exists className,
          assoc (substring 0 2 c) retryableClasses = Some className /\
          d = (className ++ "_" ++ c)%string
    end.
Proof.
  intros Hc Hin. pose proof Hin as Hm. apply mem_In in Hm.
  rewrite (description_of_code props c Hc). unfold has, index.
  destruct (assoc c RETRYABLE_PG_ERROR_CODES) as [name|] eqn:E.
  - exists name. auto.
  - rewrite (retryable_class_not_inherited c Hm), Hm.
    unfold retryableClassPrefixes in Hin. cbn [In] in Hin.
    destruct Hin as [H|[H|[H|[H|[]]]]]; rewrite <- H; cbn;
      eexists; (split; [reflexivity|]); eexists; split; reflexivity.
Qed.

Lemma description_of_a_retryable_class_witness :
  getRetryableErrorDescription (Object [("code", Str "40002")])
  = Str "transaction_rollback_40002".
Proof.
  destruct (description_of_a_retryable_class [("code", Str "40002")] "40002")
    as [d [Hd Hname]].
  - reflexivity.
  - cbn. auto.
  - cbn in Hname. destruct Hname as [className [Hk ->]].
    injection Hk as <-. exact Hd.
Defined.

Lemma listed_name_known (c name : string) :
  assoc c RETRYABLE_PG_ERROR_CODES = Some name -> name <> "unknown".
Proof.
  unfold RETRYABLE_PG_ERROR_CODES; cbn [assoc]; intros H.
  split_eqb; try discriminate; injection H as <-; discriminate.
Qed.

(** The warning that [onRetry] logs for an error that [retryIf] accepts
    carries the error's own code and its description: neither default,
    ['unknown'], is used for it. The delay it announces for the attempt
    numbered [n] is [INITIAL_RETRY_DELAY * 2^(n-1)]. Nothing else changes. *)
Theorem onRetry_logs_code_and_description (e : Value) (n : nat) (w : World) :
  retryIf serializableRetryOptions e = true -> 1 <= n ->
  let w' := onRetry serializableRetryOptions e n w in
  exists c,
    hasStringCode e c /\ c <> "unknown" /\
    getRetryableErrorDescription e <> Null /\
    getRetryableErrorDescription e <> Str "unknown" /\
    warnings w' =
      warnings w
      ++ [mkWarning n (Str c) (getRetryableErrorDescription e)
            (Z.of_nat (1000 * 2 ^ (n - 1))) e] /\
    isolationLevels w' = isolationLevels w /\
    callbackRuns w' = callbackRuns w /\
    sleeps w' = sleeps w.
Proof.
  cbn [retryIf serializableRetryOptions onRetry]. intros Hr Hn.
  assert (Hnn : getRetryableErrorDescription e <> Null).
  { intros E. rewrite E in Hr. discriminate Hr. }
  pose proof Hnn as Hd. apply description_not_null_iff in Hd.
  destruct Hd as [c [[props [-> Hc]] Hor]].
  assert (Hcu : c <> "unknown").
  { intros ->. destruct Hor as [H|H]; discriminate H. }
  assert (Hdu : getRetryableErrorDescription (Object props) <> Str "unknown").
  { rewrite (description_of_code props c Hc). unfold has, index.
    destruct (assoc c RETRYABLE_PG_ERROR_CODES) as [name|] eqn:E.
    - intros H. injection H as H. revert H. apply (listed_name_known c). exact E.
    - destruct (mem c objectPrototypeKeys) eqn:Ep.
      + apply inherited_not_null. exact Ep.
      + destruct (mem (substring 0 2 c) retryableClassPrefixes) eqn:Em;
          [|discriminate].
        apply mem_In in Em. unfold retryableClassPrefixes in Em. cbn [In] in Em.
        destruct Em as [H|[H|[H|[H|[]]]]]; rewrite <- H; cbn; discriminate. }
  exists c. split; [exists props; auto|]. split; [exact Hcu|].
  split; [exact Hnn|]. split; [exact Hdu|].
  split; [|repeat split].
  unfold warn. cbn [warnings get]. rewrite Hc. cbn [nullish].
  assert (Hnull : nullish (getRetryableErrorDescription (Object props))
                    (Str "unknown")
                  = getRetryableErrorDescription (Object props)).
  { assert (Hu : getRetryableErrorDescription (Object props) <> Undefined).
    { rewrite (description_of_code props c Hc). unfold has, index.
      destruct (assoc c RETRYABLE_PG_ERROR_CODES); [discriminate|].
      destruct (mem c objectPrototypeKeys) eqn:Ep;
        [apply inherited_not_null; exact Ep|].
      destruct (mem (substring 0 2 c) retryableClassPrefixes); discriminate. }
    destruct (getRetryableErrorDescription (Object props)); try reflexivity;
      contradiction. }
  rewrite Hnull.
  assert (Hz : (INITIAL_RETRY_DELAY * 2 ^ (Z.of_nat n - 1))%Z
               = Z.of_nat (1000 * 2 ^ (n - 1))).
  { unfold INITIAL_RETRY_DELAY. rewrite Nat2Z.inj_mul, Nat2Z.inj_pow.
    replace (Z.of_nat (n - 1)) with (Z.of_nat n - 1)%Z by lia. reflexivity. }
  rewrite Hz. reflexivity.
Qed.

Lemma onRetry_logs_code_and_description_witness :
  warnings
    (onRetry serializableRetryOptions (Object [("code", Str "40P01")]) 3 emptyWorld)
  = [mkWarning 3 (Str "40P01") (Str "deadlock_detected") 4000
       (Object [("code", Str "40P01")])].
Proof.
  destruct (onRetry_logs_code_and_description
              (Object [("code", Str "40P01")]) 3 emptyWorld)
    as [c ([props [Hp Hc]] & _ & _ & _ & Hw & _)].
  - reflexivity.
  - lia.
  - injection Hp as <-. cbn in Hc. injection Hc as <-.
    rewrite Hw. reflexivity.
Defined.

End Transaction.

(** ** common/src/constants/free-agents.ts *)
Module FreeAgents.

Definition FREE_TIER_AGENTS : list string :=
  [ "file-picker"; "file-picker-max"; "file-lister";
    "researcher-web"; "researcher-docs" ].

(** What [parseAgentId] returns; each component may be [undefined]. *)
Record ParsedAgentId : Type := mkParsed {
  publisherId : option string;
  agentId : option string;
  version : option string
}.

(** [agentId ? FREE_TIER_AGENTS.has(agentId) : false], for any parser: an
    [undefined] or empty agent id is falsy. *)
Definition isFreeAgent (parseAgentId : string -> ParsedAgentId)
  (fullAgentId : string) : bool :=
  match agentId (parseAgentId fullAgentId) with
  | Some a => if String.eqb a "" then false else Js.mem a FREE_TIER_AGENTS
  | None => false
  end.

(** [s] cut at the first occurrence of the character [c]. *)
Fixpoint cut (c : ascii) (s : string) : string * option string :=
  match s with
  | EmptyString => (EmptyString, None)
  | String a rest =>
      if Ascii.eqb a c then (EmptyString, Some rest)
      else let (l, r) := cut c rest in (String a l, r)
  end.

Definition nonEmpty (s : string) : option string :=
  if String.eqb s "" then None else Some s.

(** Modelled from the spec: [parseAgentId] of common/util/agent-id-parsing
    is not among the sources. An agent identifier reads
    [[<publisher>/]<id>[@<version>]]. *)
Definition parseAgentId (fullAgentId : string) : ParsedAgentId :=
  let (head, tail) := cut "/" fullAgentId in
  let (publisher, rest) :=
    match tail with
    | Some r => (nonEmpty head, r)
    | None => (None, head)
    end in
  let (id, v) := cut "@" rest in
  mkParsed publisher (nonEmpty id) v.

Lemma FREE_TIER_AGENTS_distinct :
  NoDup FREE_TIER_AGENTS /\ List.length FREE_TIER_AGENTS = 5.
Proof.
  split; [| reflexivity].
  unfold FREE_TIER_AGENTS.
  repeat (constructor; [cbn; intuition discriminate |]). constructor.
Qed.

(** C8. Whatever the parser, [isFreeAgent] answers true exactly when the
    parsed agent id is one of the five free-tier ids, and false when no
    agent id was parsed. *)
Theorem isFreeAgent_iff (parse : string -> ParsedAgentId) (fullAgentId : string) :
  (isFreeAgent parse fullAgentId = true <->
   exists a, agentId (parse fullAgentId) = Some a /\
     In a ["file-picker"; "file-picker-max"; "file-lister";
           "researcher-web"; "researcher-docs"]) /\
  (agentId (parse fullAgentId) = None -> isFreeAgent parse fullAgentId = false).
Proof.
  unfold isFreeAgent. split.
  - destruct (agentId (parse fullAgentId)) as [a|]; split.
    + intros H. exists a. split; [reflexivity|].
      destruct (String.eqb a ""); [discriminate|].
      apply (proj1 (Js.mem_In a FREE_TIER_AGENTS)). exact H.
    + intros [b [Hb Hin]]. injection Hb as <-.
      destruct (String.eqb_spec a "") as [->|_].
      * cbn in Hin. intuition discriminate.
      * apply (proj2 (Js.mem_In a FREE_TIER_AGENTS)). exact Hin.
    + discriminate.
    + intros [b [Hb _]]. discriminate.
  - intros H. rewrite H. reflexivity.
Qed.

(** The three formats of the function's documentation. *)
Example isFreeAgent_bare : isFreeAgent parseAgentId "file-picker" = true.
Proof. reflexivity. Qed.

Example isFreeAgent_versioned : isFreeAgent parseAgentId "file-picker@1.0.0" = true.
Proof. reflexivity. Qed.

Example isFreeAgent_published :
  isFreeAgent parseAgentId "codebuff/file-picker@0.0.2" = true.
Proof. reflexivity. Qed.

Example isFreeAgent_other : isFreeAgent parseAgentId "codebuff/base@1.0.0" = false.
Proof. reflexivity. Qed.

Example isFreeAgent_no_id : isFreeAgent parseAgentId "codebuff/@1.0.0" = false.
Proof. reflexivity. Qed.

End FreeAgents.

(** ** packages/agent-runtime/src/tools/stream-parser.ts *)
Module StreamParser.

(** *** Messages and chunks *)

(** The parameters of a tool call, a [Record<string, string>]. *)
Definition Input : Type := list (string * string).

Inductive ToolResultPart : Type :=
| JsonResult (value : string)
| MediaResult (data mediaType : string).

Definition ToolOutput : Type := list ToolResultPart.

Record ToolCall : Type := mkToolCall {
  toolCallId : string;
  toolName : string;
  input : Input
}.

Inductive ContentPart : Type :=
| TextPart (text : string)
| ToolCallPart (call : ToolCall).

Inductive Message : Type :=
| SystemMessage (content : string)
| UserMessage (content : list ContentPart)
| AssistantMessage (content : list ContentPart)
| ToolMessage (id name : string) (content : ToolOutput).

(** Modelled from the spec: [assistantMessage], [userMessage] (of
    common/util/messages) and [buildArray] (of common/util/array) are not
    among the sources. A message built from one part holds that part alone;
    [buildArray] drops falsy entries, and a message never is one. *)
Definition assistantMessage (part : ContentPart) : Message :=
  AssistantMessage [part].

Definition userMessage (text : string) : Message :=
  UserMessage [TextPart text].

Definition buildArray (xs : list Message) : list Message := xs.

(** What the caller's [onResponseChunk] receives: a string or a
    [PrintModeEvent]; the parser's callback also forwards its text chunks. *)
Inductive ResponseChunk : Type :=
| PlainText (s : string)
| TextEvent (text : string)
| ReasoningDelta (text : string)
| ErrorEvent (message : string)
| ToolCallEvent (call : ToolCall)
| ToolResultEvent (id name : string) (output : ToolOutput).

(** What the parser yields to the consumption loop. *)
Inductive StreamChunk : Type :=
| ReasoningChunk (text : string)
| TextChunk (text : string)
| ErrorChunk (message : string)
| ToolCallChunk (name : string) (args : Input).

(** What the provider delivers, with the tag grammar already read: a tool
    call is either structured or inline. *)
Inductive StreamItem : Type :=
| TextDelta (text : string)
| ReasoningItem (text : string)
| ErrorItem (message : string)
| StructuredToolCall (name : string) (args : Input)
| InlineToolCall (name : string) (args : Input).

(** *** Promises and executions *)

(** The promises [previousToolCallFinished] can hold: [streamDonePromise],
    a fresh [Promise.resolve()], or the promise of an execution. *)
Inductive PromiseRef : Type :=
| StreamDonePromise
| ResolvedPromise
| ToolPromise (k : nat).

(** [p === streamDonePromise] *)
Definition isStreamDonePromise (p : PromiseRef) : bool :=
  match p with StreamDonePromise => true | _ => false end.

(** One execution built by an executor: the call, whether it was dispatched
    inline, the promise it awaits first, whether the handler's own work has
    finished, and whether the execution promise has resolved (its effects
    are recorded). *)
Record Task : Type := mkTask {
  t_call : ToolCall;
  t_inline : bool;
  t_previous : PromiseRef;
  t_workDone : bool;
  t_resolved : bool
}.

(** Where control stands: at the top of the [while (true)] loop; inside
    [streamWithTags.next()] with the parser waiting for the provider; inside
    it with the parser awaiting [executeXmlToolCall]; in the loop body with
    the chunk just yielded; after the loop, awaiting
    [previousToolCallFinished]; returned. *)
Inductive Phase : Type :=
| LoopTop
| AwaitStream
| AwaitInline (p : PromiseRef)
| Yielded (chunk : StreamChunk)
| Draining
| Committed.

Record State : Type := mkState {
  (** [agentState.messageHistory] *)
  messageHistory : list Message;
  (** the local variables of [processStream] *)
  fullResponseChunks : list string;
  messageHistoryBeforeStream : list Message;
  toolResults : list Message;
  toolResultsToAddToMessageHistory : list Message;
  toolCalls : list ToolCall;
  toolCallsToAddToMessageHistory : list ToolCall;
  assistantMessages : list Message;
  hadToolCallError : bool;
  errorMessages : list Message;
  streamDone : bool;
  previousToolCallFinished : PromiseRef;
  messageId : option string;
  (** [signal.aborted] *)
  aborted : bool;
  (** the executions dispatched so far, oldest first: [ToolPromise k] is the promise of the [k]-th *)
  tasks : list Task;
  (** how many ids [generateCompactId] has handed out *)
  idsIssued : nat;
  (** what the provider has still to deliver *)
  stream : list StreamItem;
  (** where the consumption loop and the parser stand *)
  pc : Phase;
  (** what the caller's [onResponseChunk] has received, oldest first *)
  ui : list ResponseChunk
}.

Definition set_messageHistory (v : list Message) (st : State) : State :=
  mkState v (fullResponseChunks st) (messageHistoryBeforeStream st) (toolResults st) (toolResultsToAddToMessageHistory st) (toolCalls st) (toolCallsToAddToMessageHistory st) (assistantMessages st) (hadToolCallError st) (errorMessages st) (streamDone st) (previousToolCallFinished st) (messageId st) (aborted st) (tasks st) (idsIssued st) (stream st) (pc st) (ui st).

Definition set_fullResponseChunks (v : list string) (st : State) : State :=
  mkState (messageHistory st) v (messageHistoryBeforeStream st) (toolResults st) (toolResultsToAddToMessageHistory st) (toolCalls st) (toolCallsToAddToMessageHistory st) (assistantMessages st) (hadToolCallError st) (errorMessages st) (streamDone st) (previousToolCallFinished st) (messageId st) (aborted st) (tasks st) (idsIssued st) (stream st) (pc st) (ui st).

Definition set_messageHistoryBeforeStream (v : list Message) (st : State) : State :=
  mkState (messageHistory st) (fullResponseChunks st) v (toolResults st) (toolResultsToAddToMessageHistory st) (toolCalls st) (toolCallsToAddToMessageHistory st) (assistantMessages st) (hadToolCallError st) (errorMessages st) (streamDone st) (previousToolCallFinished st) (messageId st) (aborted st) (tasks st) (idsIssued st) (stream st) (pc st) (ui st).

Definition set_toolResults (v : list Message) (st : State) : State :=
  mkState (messageHistory st) (fullResponseChunks st) (messageHistoryBeforeStream st) v (toolResultsToAddToMessageHistory st) (toolCalls st) (toolCallsToAddToMessageHistory st) (assistantMessages st) (hadToolCallError st) (errorMessages st) (streamDone st) (previousToolCallFinished st) (messageId st) (aborted st) (tasks st) (idsIssued st) (stream st) (pc st) (ui st).

Definition set_toolResultsToAddToMessageHistory (v : list Message) (st : State) : State :=
  mkState (messageHistory st) (fullResponseChunks st) (messageHistoryBeforeStream st) (toolResults st) v (toolCalls st) (toolCallsToAddToMessageHistory st) (assistantMessages st) (hadToolCallError st) (errorMessages st) (streamDone st) (previousToolCallFinished st) (messageId st) (aborted st) (tasks st) (idsIssued st) (stream st) (pc st) (ui st).

Definition set_toolCalls (v : list ToolCall) (st : State) : State :=
  mkState (messageHistory st) (fullResponseChunks st) (messageHistoryBeforeStream st) (toolResults st) (toolResultsToAddToMessageHistory st) v (toolCallsToAddToMessageHistory st) (assistantMessages st) (hadToolCallError st) (errorMessages st) (streamDone st) (previousToolCallFinished st) (messageId st) (aborted st) (tasks st) (idsIssued st) (stream st) (pc st) (ui st).

Definition set_toolCallsToAddToMessageHistory (v : list ToolCall) (st : State) : State :=
  mkState (messageHistory st) (fullResponseChunks st) (messageHistoryBeforeStream st) (toolResults st) (toolResultsToAddToMessageHistory st) (toolCalls st) v (assistantMessages st) (hadToolCallError st) (errorMessages st) (streamDone st) (previousToolCallFinished st) (messageId st) (aborted st) (tasks st) (idsIssued st) (stream st) (pc st) (ui st).

Definition set_assistantMessages (v : list Message) (st : State) : State :=
  mkState (messageHistory st) (fullResponseChunks st) (messageHistoryBeforeStream st) (toolResults st) (toolResultsToAddToMessageHistory st) (toolCalls st) (toolCallsToAddToMessageHistory st) v (hadToolCallError st) (errorMessages st) (streamDone st) (previousToolCallFinished st) (messageId st) (aborted st) (tasks st) (idsIssued st) (stream st) (pc st) (ui st).

Definition set_hadToolCallError (v : bool) (st : State) : State :=
  mkState (messageHistory st) (fullResponseChunks st) (messageHistoryBeforeStream st) (toolResults st) (toolResultsToAddToMessageHistory st) (toolCalls st) (toolCallsToAddToMessageHistory st) (assistantMessages st) v (errorMessages st) (streamDone st) (previousToolCallFinished st) (messageId st) (aborted st) (tasks st) (idsIssued st) (stream st) (pc st) (ui st).

Definition set_errorMessages (v : list Message) (st : State) : State :=
  mkState (messageHistory st) (fullResponseChunks st) (messageHistoryBeforeStream st) (toolResults st) (toolResultsToAddToMessageHistory st) (toolCalls st) (toolCallsToAddToMessageHistory st) (assistantMessages st) (hadToolCallError st) v (streamDone st) (previousToolCallFinished st) (messageId st) (aborted st) (tasks st) (idsIssued st) (stream st) (pc st) (ui st).

Definition set_streamDone (v : bool) (st : State) : State :=
  mkState (messageHistory st) (fullResponseChunks st) (messageHistoryBeforeStream st) (toolResults st) (toolResultsToAddToMessageHistory st) (toolCalls st) (toolCallsToAddToMessageHistory st) (assistantMessages st) (hadToolCallError st) (errorMessages st) v (previousToolCallFinished st) (messageId st) (aborted st) (tasks st) (idsIssued st) (stream st) (pc st) (ui st).

Definition set_previousToolCallFinished (v : PromiseRef) (st : State) : State :=
  mkState (messageHistory st) (fullResponseChunks st) (messageHistoryBeforeStream st) (toolResults st) (toolResultsToAddToMessageHistory st) (toolCalls st) (toolCallsToAddToMessageHistory st) (assistantMessages st) (hadToolCallError st) (errorMessages st) (streamDone st) v (messageId st) (aborted st) (tasks st) (idsIssued st) (stream st) (pc st) (ui st).

Definition set_messageId (v : option string) (st : State) : State :=
  mkState (messageHistory st) (fullResponseChunks st) (messageHistoryBeforeStream st) (toolResults st) (toolResultsToAddToMessageHistory st) (toolCalls st) (toolCallsToAddToMessageHistory st) (assistantMessages st) (hadToolCallError st) (errorMessages st) (streamDone st) (previousToolCallFinished st) v (aborted st) (tasks st) (idsIssued st) (stream st) (pc st) (ui st).

Definition set_aborted (v : bool) (st : State) : State :=
  mkState (messageHistory st) (fullResponseChunks st) (messageHistoryBeforeStream st) (toolResults st) (toolResultsToAddToMessageHistory st) (toolCalls st) (toolCallsToAddToMessageHistory st) (assistantMessages st) (hadToolCallError st) (errorMessages st) (streamDone st) (previousToolCallFinished st) (messageId st) v (tasks st) (idsIssued st) (stream st) (pc st) (ui st).

Definition set_tasks (v : list Task) (st : State) : State :=
  mkState (messageHistory st) (fullResponseChunks st) (messageHistoryBeforeStream st) (toolResults st) (toolResultsToAddToMessageHistory st) (toolCalls st) (toolCallsToAddToMessageHistory st) (assistantMessages st) (hadToolCallError st) (errorMessages st) (streamDone st) (previousToolCallFinished st) (messageId st) (aborted st) v (idsIssued st) (stream st) (pc st) (ui st).

Definition set_idsIssued (v : nat) (st : State) : State :=
  mkState (messageHistory st) (fullResponseChunks st) (messageHistoryBeforeStream st) (toolResults st) (toolResultsToAddToMessageHistory st) (toolCalls st) (toolCallsToAddToMessageHistory st) (assistantMessages st) (hadToolCallError st) (errorMessages st) (streamDone st) (previousToolCallFinished st) (messageId st) (aborted st) (tasks st) v (stream st) (pc st) (ui st).

Definition set_stream (v : list StreamItem) (st : State) : State :=
  mkState (messageHistory st) (fullResponseChunks st) (messageHistoryBeforeStream st) (toolResults st) (toolResultsToAddToMessageHistory st) (toolCalls st) (toolCallsToAddToMessageHistory st) (assistantMessages st) (hadToolCallError st) (errorMessages st) (streamDone st) (previousToolCallFinished st) (messageId st) (aborted st) (tasks st) (idsIssued st) v (pc st) (ui st).

Definition set_pc (v : Phase) (st : State) : State :=
  mkState (messageHistory st) (fullResponseChunks st) (messageHistoryBeforeStream st) (toolResults st) (toolResultsToAddToMessageHistory st) (toolCalls st) (toolCallsToAddToMessageHistory st) (assistantMessages st) (hadToolCallError st) (errorMessages st) (streamDone st) (previousToolCallFinished st) (messageId st) (aborted st) (tasks st) (idsIssued st) (stream st) v (ui st).

Definition set_ui (v : list ResponseChunk) (st : State) : State :=
  mkState (messageHistory st) (fullResponseChunks st) (messageHistoryBeforeStream st) (toolResults st) (toolResultsToAddToMessageHistory st) (toolCalls st) (toolCallsToAddToMessageHistory st) (assistantMessages st) (hadToolCallError st) (errorMessages st) (streamDone st) (previousToolCallFinished st) (messageId st) (aborted st) (tasks st) (idsIssued st) (stream st) (pc st) v.

(** *** The step *)

Section ProcessStream.

(** [generateCompactId], by the number of ids handed out before. *)
Variable generateCompactId : nat -> string.
(** [toolNames.includes(toolName)] *)
Variable isNativeTool : string -> bool.
(** [tryTransformAgentToolCall] with the template's [spawnableAgents]. *)
Variable tryTransformAgentToolCall : string -> Input -> option (string * Input).
(** Registry lookup and schema validation of the two executors: the error
    message when the call is refused. *)
Variable validateToolCall : string -> Input -> option string.
Variable validateCustomToolCall : string -> Input -> option string.
(** What the handler of a call returns. *)
Variable handlerOutput : ToolCall -> ToolOutput.
Variable withSystemTags : string -> string.
(** The message id the provider returns at the end of the stream. *)
Variable providerMessageId : string.

(** [onResponseChunk(chunk)] of the caller. *)
Definition onResponseChunk (chunk : ResponseChunk) (st : State) : State :=
  set_ui (ui st ++ [chunk]) st.

Definition toolCallErrorText (message : string) : string :=
  ("Error during tool call: " ++ message
   ++ ". Please check the tool name and arguments and try again.")%string.

(** The handler made by [createResponseHandler]. *)
Definition responseHandler (chunk : ResponseChunk) (st : State) : State :=
  let st1 :=
    match chunk with
    | ErrorEvent message =>
        set_errorMessages
          (errorMessages st
           ++ [userMessage (withSystemTags (toolCallErrorText message))])
          (set_hadToolCallError true st)
    | _ => st
    end in
  onResponseChunk chunk st1.

(** Whether a promise has resolved. *)
Definition resolved (p : PromiseRef) (st : State) : bool :=
  match p with
  | StreamDonePromise => streamDone st
  | ResolvedPromise => true
  | ToolPromise k =>
      match nth_error (tasks st) k with
      | Some t => t_resolved t
      | None => false
      end
  end.

(** The tool message and the two events of a call. *)
Definition resultOfCall (c : ToolCall) : Message :=
  ToolMessage (toolCallId c) (toolName c) (handlerOutput c).

Definition eventsOfCall (c : ToolCall) : list ResponseChunk :=
  [ToolCallEvent c; ToolResultEvent (toolCallId c) (toolName c) (handlerOutput c)].

(** Modelled from the spec: [executeToolCall] and [executeCustomToolCall]
    of tools/tool-executor are not among the sources. A call the registry
    or the schema refuses emits an [error] event through the response
    handler, records nothing, and leaves the chain as it was: the promise
    handed in is handed back. Any other call builds an execution that first
    awaits the promise handed in, then runs the handler, records the tool
    call and the tool result, and emits the [tool_call] event, then the
    [tool_result] event. *)
Definition execute (validate : string -> Input -> option string)
  (name : string) (args : Input) (isXmlMode : bool)
  (previous : PromiseRef) (id : string) (st : State) : PromiseRef * State :=
  match validate name args with
  | Some message => (previous, responseHandler (ErrorEvent message) st)
  | None =>
      (ToolPromise (List.length (tasks st)),
       set_tasks
         (tasks st ++ [mkTask (mkToolCall id name args) isXmlMode previous false false])
         st)
  end.

Definition executeToolCall := execute validateToolCall.
Definition executeCustomToolCall := execute validateCustomToolCall.

Definition markResolved (t : Task) : Task :=
  mkTask (t_call t) (t_inline t) (t_previous t) (t_workDone t) true.

Definition markWorkDone (t : Task) : Task :=
  mkTask (t_call t) (t_inline t) (t_previous t) true (t_resolved t).

Fixpoint update {A : Type} (k : nat) (f : A -> A) (l : list A) : list A :=
  match l, k with
  | [], _ => []
  | x :: tl, 0 => f x :: tl
  | x :: tl, S k' => x :: update k' f tl
  end.

(** The effects of an execution once the promise it awaited has resolved
    and its handler has returned. *)
Definition record (t : Task) (st : State) : State :=
  let toolResult := resultOfCall (t_call t) in
  let st1 := set_toolCalls (toolCalls st ++ [t_call t]) st in
  let st2 := set_toolCallsToAddToMessageHistory
               (toolCallsToAddToMessageHistory st1 ++ [t_call t]) st1 in
  let st3 := set_toolResults (toolResults st2 ++ [toolResult]) st2 in
  let st4 := set_toolResultsToAddToMessageHistory
               (toolResultsToAddToMessageHistory st3 ++ [toolResult]) st3 in
  let st5 := responseHandler (ToolCallEvent (t_call t)) st4 in
  responseHandler
    (ToolResultEvent (toolCallId (t_call t)) (toolName (t_call t))
       (handlerOutput (t_call t))) st5.

(** The [k]-th execution resolves if it can. *)
Definition settleTask (k : nat) (st : State) : State :=
  match nth_error (tasks st) k with
  | Some t =>
      if negb (t_resolved t) && t_workDone t && resolved (t_previous t) st
      then record t (set_tasks (update k markResolved (tasks st)) st)
      else st
  | None => st
  end.

Fixpoint settleFrom (n k : nat) (st : State) : State :=
  match n with
  | 0 => st
  | S n' => settleFrom n' (S k) (settleTask k st)
  end.

(** Every execution that can resolve does, oldest first. *)
Definition settleAll (st : State) : State :=
  settleFrom (List.length (tasks st)) 0 st.

Definition isSome {A : Type} (o : option A) : bool :=
  match o with Some _ => true | None => false end.

(** [onTagEnd] of [createToolExecutionCallback(toolName, isXmlMode)]: the
    promise it awaits before returning, if any, and the new state. *)
Definition onTagEnd (name : string) (isXmlMode : bool) (args : Input)
  (st : State) : option PromiseRef * State :=
  if aborted st then (None, st)
  else
    let id := generateCompactId (idsIssued st) in
    let st0 := set_idsIssued (S (idsIssued st)) st in
    let isNative := isNativeTool name in
    let transformed :=
      if isNative then None else tryTransformAgentToolCall name args in
    let previousPromise :=
      if isXmlMode && isStreamDonePromise (previousToolCallFinished st0)
      then ResolvedPromise
      else previousToolCallFinished st0 in
    let '(toolPromise, st1) :=
      if isNative || isSome transformed
      then
        executeToolCall
          (match transformed with Some (name', _) => name' | None => name end)
          (match transformed with Some (_, args') => args' | None => args end)
          isXmlMode previousPromise id st0
      else executeCustomToolCall name args isXmlMode previousPromise id st0 in
    let st2 := set_previousToolCallFinished toolPromise st1 in
    (if isXmlMode then Some toolPromise else None, st2).

(** [executeXmlToolCall] *)
Definition executeXmlToolCall (name : string) (args : Input) (st : State)
  : option PromiseRef * State :=
  if aborted st then (None, st)
  else onTagEnd name true args st.

(** The [onResponseChunk] handed to [processStreamWithTools]. *)
Definition parserOnResponseChunk (chunk : ResponseChunk) (st : State) : State :=
  let st1 :=
    match chunk with
    | TextEvent text =>
        if String.eqb text "" then st
        else set_assistantMessages
               (assistantMessages st ++ [assistantMessage (TextPart text)]) st
    | _ => st
    end in
  onResponseChunk chunk st1.

(** The body of the consumption loop for a chunk that is not the last. *)
Definition loopBody (chunk : StreamChunk) (st : State) : State :=
  match chunk with
  | ReasoningChunk text => onResponseChunk (ReasoningDelta text) st
  | TextChunk text =>
      let st1 := onResponseChunk (PlainText text) st in
      set_fullResponseChunks (fullResponseChunks st1 ++ [text]) st1
  | ErrorChunk message =>
      let st1 := onResponseChunk (ErrorEvent message) st in
      let st2 := set_hadToolCallError true st1 in
      set_errorMessages
        (errorMessages st2
         ++ [userMessage (withSystemTags (toolCallErrorText message))]) st2
  | ToolCallChunk _ _ => st
  end.

(** The finalization: the history is rebuilt from the snapshot. *)
Definition commit (st : State) : State :=
  set_pc Committed
    (set_messageHistory
       (buildArray
          (messageHistoryBeforeStream st
           ++ assistantMessages st
           ++ map (fun toolCall => assistantMessage (ToolCallPart toolCall))
                (toolCallsToAddToMessageHistory st)
           ++ toolResultsToAddToMessageHistory st
           ++ errorMessages st))
       st).

(** A continuation that waits for a promise runs once it has resolved. The
    parser yields the chunk of the inline call it awaited, for which the
    loop body does nothing, so that control is at the top of the loop again;
    the step finalizes. *)
Definition wake (st : State) : State :=
  match pc st with
  | AwaitInline p => if resolved p st then set_pc LoopTop st else st
  | Draining =>
      if resolved (previousToolCallFinished st) st then commit st else st
  | _ => st
  end.

(** What follows the loop: unless aborted, [resolveStreamDonePromise()]
    and [await previousToolCallFinished]; then the finalization. *)
Definition afterLoop (st : State) : State :=
  if aborted st then commit st
  else wake (set_pc Draining (settleAll (set_streamDone true st))).

(** Modelled from the spec: [processStreamWithTools] of tool-stream-parser
    is not among the sources. One call of [next()] takes one item from the
    provider. A text delta is reported through [onResponseChunk] and
    yielded; a structured tool call is handed to its processor's [onTagEnd]
    without awaiting it, and yielded; an inline tool call is handed to
    [executeXmlToolCall], which is awaited before the parser goes on; at the
    end of the stream the message id is returned. *)
Definition parserNext (st : State) : State :=
  match stream st with
  | [] => afterLoop (set_messageId (Some providerMessageId) st)
  | item :: rest =>
      let st0 := set_stream rest st in
      match item with
      | TextDelta text =>
          set_pc (Yielded (TextChunk text))
            (parserOnResponseChunk (TextEvent text) st0)
      | ReasoningItem text => set_pc (Yielded (ReasoningChunk text)) st0
      | ErrorItem message => set_pc (Yielded (ErrorChunk message)) st0
      | StructuredToolCall name args =>
          set_pc (Yielded (ToolCallChunk name args))
            (snd (onTagEnd name false args st0))
      | InlineToolCall name args =>
          match executeXmlToolCall name args st0 with
          | (Some p, st1) => wake (set_pc (AwaitInline p) st1)
          | (None, st1) => set_pc LoopTop st1
          end
      end
  end.

(** What can happen next. *)
Inductive Event : Type :=
| Abort                (* the signal is aborted *)
| HandlerDone (k : nat) (* the handler of the k-th execution has finished *)
| Tick                 (* the consumption loop goes on *)
| Deliver              (* the provider delivers its next item *)
| ParserAborts.        (* the parser notices the abort and ends the stream *)

Definition step (e : Event) (st : State) : State :=
  match e with
  | Abort => set_aborted true st
  | HandlerDone k =>
      wake (settleAll (set_tasks (update k markWorkDone (tasks st)) st))
  | Tick =>
      match pc st with
      | LoopTop => if aborted st then afterLoop st else set_pc AwaitStream st
      | Yielded chunk => set_pc LoopTop (loopBody chunk st)
      | _ => st
      end
  | Deliver =>
      match pc st with
      | AwaitStream => parserNext st
      | _ => st
      end
  | ParserAborts =>
      match pc st with
      | AwaitStream =>
          if aborted st then afterLoop (set_messageId None st) else st
      | _ => st
      end
  end.

Definition run (events : list Event) (st : State) : State :=
  fold_left (fun s e => step e s) events st.

(** The state on entry: the snapshot is taken, nothing is recorded, the
    chain starts at [streamDonePromise]. *)
Definition initial (history : list Message) (fullResponse : string)
  (items : list StreamItem) : State :=
  {| messageHistory := history;
     fullResponseChunks := [fullResponse];
     messageHistoryBeforeStream := history;
     toolResults := [];
     toolResultsToAddToMessageHistory := [];
     toolCalls := [];
     toolCallsToAddToMessageHistory := [];
     assistantMessages := [];
     hadToolCallError := false;
     errorMessages := [];
     streamDone := false;
     previousToolCallFinished := StreamDonePromise;
     messageId := None;
     aborted := false;
     tasks := [];
     idsIssued := 0;
     stream := items;
     pc := LoopTop;
     ui := [] |}.

(** What [processStream] returns. *)
Record StreamResult : Type := mkStreamResult {
  r_fullResponse : string;
  r_fullResponseChunks : list string;
  r_hadToolCallError : bool;
  r_messageId : option string;
  r_toolCalls : list ToolCall;
  r_toolResults : list Message
}.

Definition result (st : State) : StreamResult :=
  mkStreamResult (String.concat "" (fullResponseChunks st))
    (fullResponseChunks st) (hadToolCallError st) (messageId st)
    (toolCalls st) (toolResults st).

(** *** Notions used to state the properties *)

(** The promise a new execution awaits first. *)
Definition previousPromiseOf (isXmlMode : bool) (st : State) : PromiseRef :=
  if isXmlMode && isStreamDonePromise (previousToolCallFinished st)
  then ResolvedPromise
  else previousToolCallFinished st.

(** The call an executor receives: an agent name that is no tool is
    rewritten by [tryTransformAgentToolCall]. *)
Definition effectiveCall (name : string) (args : Input) : string * Input :=
  if isNativeTool name then (name, args)
  else match tryTransformAgentToolCall name args with
       | Some c => c
       | None => (name, args)
       end.

(** The refusal of a call, if any, by the executor that receives it. *)
Definition refusal (name : string) (args : Input) : option string :=
  if isNativeTool name then validateToolCall name args
  else match tryTransformAgentToolCall name args with
       | Some (name', args') => validateToolCall name' args'
       | None => validateCustomToolCall name args
       end.

(** The execution built for an accepted call. *)
Definition newTask (name : string) (isXmlMode : bool) (args : Input)
  (st : State) : Task :=
  mkTask
    (mkToolCall (generateCompactId (idsIssued st))
       (fst (effectiveCall name args)) (snd (effectiveCall name args)))
    isXmlMode (previousPromiseOf isXmlMode st) false false.

(** The three ways a dispatch can go. *)
Inductive Dispatch (name : string) (isXmlMode : bool) (args : Input)
  (st : State) : option PromiseRef * State -> Prop :=
| dispatch_aborted :
    aborted st = true ->
    Dispatch name isXmlMode args st (None, st)
| dispatch_refused (message : string) :
    aborted st = false -> refusal name args = Some message ->
    Dispatch name isXmlMode args st
      ((if isXmlMode then Some (previousPromiseOf isXmlMode st) else None),
       set_previousToolCallFinished (previousPromiseOf isXmlMode st)
         (responseHandler (ErrorEvent message)
            (set_idsIssued (S (idsIssued st)) st)))
| dispatch_accepted :
    aborted st = false -> refusal name args = None ->
    Dispatch name isXmlMode args st
      ((if isXmlMode then Some (ToolPromise (List.length (tasks st))) else None),
       set_previousToolCallFinished (ToolPromise (List.length (tasks st)))
         (set_tasks (tasks st ++ [newTask name isXmlMode args st])
            (set_idsIssued (S (idsIssued st)) st))).

Definition isToolEvent (c : ResponseChunk) : bool :=
  match c with
  | ToolCallEvent _ | ToolResultEvent _ _ _ => true
  | _ => false
  end.

Record Chain (st : State) : Prop := mkChain {
  (* the first execution awaits the stream or nothing *)
  ch_first : forall t, nth_error (tasks st) 0 = Some t ->
    t_previous t = StreamDonePromise \/ t_previous t = ResolvedPromise;
  (* every other execution awaits the one dispatched before it *)
  ch_next : forall k t, nth_error (tasks st) (S k) = Some t ->
    t_previous t = ToolPromise k;
  (* previousToolCallFinished is the promise of the last execution *)
  ch_last_none : tasks st = [] ->
    previousToolCallFinished st = StreamDonePromise \/
    previousToolCallFinished st = ResolvedPromise;
  ch_last_some : forall k, List.length (tasks st) = S k ->
    previousToolCallFinished st = ToolPromise k;
  (* the recorded calls are the first of the dispatched ones, in order *)
  ch_prefix : exists rest, map t_call (tasks st) = toolCalls st ++ rest;
  (* and those are the executions that have resolved *)
  ch_flags : forall k t, nth_error (tasks st) k = Some t ->
    t_resolved t = Nat.ltb k (List.length (toolCalls st));
  ch_work : forall k t, nth_error (tasks st) k = Some t ->
    t_resolved t = true -> t_workDone t = true;
  ch_origin : forall t, nth_error (tasks st) 0 = Some t ->
    t_resolved t = true -> t_previous t = StreamDonePromise ->
    streamDone st = true;
  ch_callsAdd : toolCallsToAddToMessageHistory st = toolCalls st;
  ch_results : toolResults st = map resultOfCall (toolCalls st);
  ch_resultsAdd : toolResultsToAddToMessageHistory st = toolResults st;
  (* the tool events seen by the caller are those of the recorded calls *)
  ch_ui : filter isToolEvent (ui st) = flat_map eventsOfCall (toolCalls st)
}.

(** Two states that agree on what [Chain] reads. *)
Definition sameChain (st st' : State) : Prop :=
  tasks st' = tasks st /\
  previousToolCallFinished st' = previousToolCallFinished st /\
  toolCalls st' = toolCalls st /\
  toolCallsToAddToMessageHistory st' = toolCallsToAddToMessageHistory st /\
  toolResults st' = toolResults st /\
  toolResultsToAddToMessageHistory st' = toolResultsToAddToMessageHistory st /\
  streamDone st' = streamDone st /\
  filter isToolEvent (ui st') = filter isToolEvent (ui st).

Definition errorTexts (l : list ResponseChunk) : list string :=
  flat_map (fun c => match c with ErrorEvent m => [m] | _ => [] end) l.

Definition isErrorEvent (c : ResponseChunk) : bool :=
  match c with ErrorEvent _ => true | _ => false end.

(** The user message appended for an error event. *)
Definition errorNotice (message : string) : Message :=
  userMessage (withSystemTags (toolCallErrorText message)).

(** Every error event seen by the caller has its notice, in the same
    order, and the flag tells whether there is one. *)
Record Errors (st : State) : Prop := mkErrors {
  er_messages : errorMessages st = map errorNotice (errorTexts (ui st));
  er_flag : hadToolCallError st = negb (Nat.eqb (List.length (errorMessages st)) 0)
}.

Definition sameErrors (st st' : State) : Prop :=
  errorMessages st' = errorMessages st /\
  hadToolCallError st' = hadToolCallError st /\
  errorTexts (ui st') = errorTexts (ui st).

(** The history the finalization builds. *)
Definition historyFormula (st : State) : list Message :=
  messageHistoryBeforeStream st
  ++ assistantMessages st
  ++ map (fun c => assistantMessage (ToolCallPart c))
       (toolCallsToAddToMessageHistory st)
  ++ toolResultsToAddToMessageHistory st
  ++ errorMessages st.

Definition allResolved (st : State) : Prop :=
  forall t, In t (tasks st) -> t_resolved t = true.

Definition inlineSettled (st : State) : Prop :=
  forall k t, nth_error (tasks st) k = Some t -> t_inline t = true ->
    t_resolved t = true.

Record Control (st : State) : Prop := mkControl {
  (* an inline execution that has not resolved holds the parser *)
  ct_inline : forall k t, nth_error (tasks st) k = Some t ->
    t_inline t = true -> t_resolved t = false ->
    pc st = AwaitInline (ToolPromise k);
  (* streamDonePromise is resolved only after the end of the stream *)
  ct_streamDone : streamDone st = true ->
    (pc st = Draining \/ pc st = Committed) /\
    stream st = [] /\ messageId st = Some providerMessageId;
  (* a step that returned without abort waited for every execution *)
  ct_committed : pc st = Committed -> aborted st = false ->
    allResolved st /\ messageHistory st = historyFormula st
}.

(** Two states that agree on everything the executions do not touch. *)
Definition sameControl (st st' : State) : Prop :=
  pc st' = pc st /\ stream st' = stream st /\ messageId st' = messageId st /\
  streamDone st' = streamDone st /\ aborted st' = aborted st /\
  messageHistory st' = messageHistory st /\
  messageHistoryBeforeStream st' = messageHistoryBeforeStream st /\
  assistantMessages st' = assistantMessages st /\
  errorMessages st' = errorMessages st /\
  hadToolCallError st' = hadToolCallError st /\
  idsIssued st' = idsIssued st /\
  previousToolCallFinished st' = previousToolCallFinished st /\
  fullResponseChunks st' = fullResponseChunks st.

Record Invariant (st : State) : Prop := mkInvariant {
  inv_chain : Chain st;
  inv_errors : Errors st;
  inv_control : Control st
}.

Record Grows (st st' : State) : Prop := mkGrows {
  g_ui : exists l, ui st' = ui st ++ l;
  g_calls : exists l, toolCalls st' = toolCalls st ++ l;
  g_snapshot : messageHistoryBeforeStream st' = messageHistoryBeforeStream st;
  g_aborted : aborted st = true -> aborted st' = true;
  (* once aborted, no execution is added and no id is handed out *)
  g_frozen : aborted st = true ->
    map t_call (tasks st') = map t_call (tasks st) /\ idsIssued st' = idsIssued st
}.

Definition isText (c : ResponseChunk) : bool :=
  match c with PlainText _ | TextEvent _ => true | _ => false end.

(** From [st] to [st'] the caller received no text. *)
Definition Silent (st st' : State) : Prop :=
  exists l, ui st' = ui st ++ l /\ Forall (fun c => isText c = false) l.

Definition Texts (st : State) : Prop :=
  Forall (fun m => exists text, m = AssistantMessage [TextPart text])
    (assistantMessages st).

Definition partCallIds (parts : list ContentPart) : list string :=
  flat_map (fun p => match p with
                     | ToolCallPart c => [toolCallId c]
                     | TextPart _ => []
                     end) parts.

(** I-NO-ORPHAN, read from the oldest message on: every tool message has
    the id of a tool-call part of an assistant message before it. [seen]
    holds the ids met so far. *)
Fixpoint noOrphan (seen : list string) (h : list Message) : bool :=
  match h with
  | [] => true
  | ToolMessage id _ _ :: tl => Js.mem id seen && noOrphan seen tl
  | AssistantMessage parts :: tl => noOrphan (partCallIds parts ++ seen) tl
  | _ :: tl => noOrphan seen tl
  end.

Fixpoint seenAfter (seen : list string) (h : list Message) : list string :=
  match h with
  | [] => seen
  | AssistantMessage parts :: tl => seenAfter (partCallIds parts ++ seen) tl
  | _ :: tl => seenAfter seen tl
  end.

Definition isToolMessage (m : Message) : bool :=
  match m with ToolMessage _ _ _ => true | _ => false end.

(** The id of a tool message. *)
Definition toolMessageId (m : Message) : option string :=
  match m with ToolMessage id _ _ => Some id | _ => None end.

(** The calls of a stretch of the stream that an executor accepts, as the
    executor receives them. *)
Definition acceptedCalls (items : list StreamItem) : list (string * Input) :=
  flat_map (fun item =>
              match item with
              | StructuredToolCall name args | InlineToolCall name args =>
                  match refusal name args with
                  | None => [effectiveCall name args]
                  | Some _ => []
                  end
              | _ => []
              end) items.

Definition nameAndInput (t : Task) : string * Input :=
  (toolName (t_call t), input (t_call t)).

(** Without abort, the executions are the accepted calls of what has been
    read of the stream, and the loop is left only at its end. *)
Definition InStreamOrder (items : list StreamItem) (st : State) : Prop :=
  aborted st = false ->
  (exists consumed,
     items = consumed ++ stream st /\
     map nameAndInput (tasks st) = acceptedCalls consumed) /\
  (pc st = Draining \/ pc st = Committed -> stream st = []).


Definition isToolCallItem (item : StreamItem) : bool :=
  match item with
  | StructuredToolCall _ _ | InlineToolCall _ _ => true
  | _ => false
  end.

(** The number of tool calls in a stretch of the stream. *)
Definition toolCallCount (items : list StreamItem) : nat :=
  List.length (filter isToolCallItem items).

(** The executions built for a stretch of the stream when [n] ids have been
    handed out before: every tool call draws an id, an accepted one keeps
    it. *)
Fixpoint callsFrom (n : nat) (items : list StreamItem) : list ToolCall :=
  match items with
  | [] => []
  | item :: rest =>
      match item with
      | StructuredToolCall name args | InlineToolCall name args =>
          match refusal name args with
          | None =>
              mkToolCall (generateCompactId n)
                (fst (effectiveCall name args)) (snd (effectiveCall name args))
              :: callsFrom (S n) rest
          | Some _ => callsFrom (S n) rest
          end
      | _ => callsFrom n rest
      end
  end.

(** The text deltas of a stretch of the stream. *)
Definition textDeltas (items : list StreamItem) : list string :=
  flat_map (fun item => match item with TextDelta text => [text] | _ => [] end)
    items.

(** The assistant messages of a stretch of the stream: one for each text
    delta that is not empty. *)
Definition textMessages (items : list StreamItem) : list Message :=
  flat_map (fun item =>
              match item with
              | TextDelta text =>
                  if String.eqb text "" then []
                  else [assistantMessage (TextPart text)]
              | _ => []
              end) items.

(** What the caller receives for one item of the stream, tool events
    apart. [live] tells whether the signal was still clear when the item
    was read: after the abort a tool call is not looked at. *)
Definition chunksOfItem (live : bool) (item : StreamItem) : list ResponseChunk :=
  match item with
  | TextDelta text => [TextEvent text; PlainText text]
  | ReasoningItem text => [ReasoningDelta text]
  | ErrorItem message => [ErrorEvent message]
  | StructuredToolCall name args | InlineToolCall name args =>
      if live
      then match refusal name args with
           | Some message => [ErrorEvent message]
           | None => []
           end
      else []
  end.

(** What the loop body will still hand to the caller for the chunk it
    holds. *)
Definition pendingChunks (p : Phase) : list ResponseChunk :=
  match p with
  | Yielded (TextChunk text) => [PlainText text]
  | Yielded (ReasoningChunk text) => [ReasoningDelta text]
  | Yielded (ErrorChunk message) => [ErrorEvent message]
  | _ => []
  end.

Definition pendingText (p : Phase) : list string :=
  match p with
  | Yielded (TextChunk text) => [text]
  | _ => []
  end.

(** The caller's stream without the tool events. *)
Definition otherChunks (l : list ResponseChunk) : list ResponseChunk :=
  filter (fun c => negb (isToolEvent c)) l.

(** The state against the stream: [live] is what was read while the signal
    was clear, [late] what was read after the abort. *)
Inductive Ledger (fullResponse : string) (items : list StreamItem)
  (st : State) : Prop :=
| mkLedger (live late : list StreamItem)
    (lg_split : items = live ++ late ++ stream st)
    (lg_late : aborted st = false -> late = [])
    (lg_await : pc st = AwaitStream -> late = [])
    (lg_bound : List.length late <= 1)
    (lg_ui : otherChunks (ui st) ++ pendingChunks (pc st)
             = flat_map (chunksOfItem true) live
               ++ flat_map (chunksOfItem false) late)
    (lg_texts : assistantMessages st = textMessages (live ++ late))
    (lg_response : fullResponseChunks st ++ pendingText (pc st)
                   = fullResponse :: textDeltas (live ++ late))
    (lg_ids : idsIssued st = toolCallCount live)
    (lg_calls : map t_call (tasks st) = callsFrom 0 live)
    (lg_id : messageId st = None \/
             (messageId st = Some providerMessageId /\ stream st = []))
    (lg_idNone : pc st = Draining \/ pc st = Committed ->
                 messageId st = None -> aborted st = true)
    (lg_end : pc st = Draining \/ pc st = Committed ->
              aborted st = false -> stream st = []).

(** Two states that agree on what [Ledger] reads, the phase apart. *)
Definition sameLedger (st st' : State) : Prop :=
  stream st' = stream st /\ aborted st' = aborted st /\
  otherChunks (ui st') = otherChunks (ui st) /\
  assistantMessages st' = assistantMessages st /\
  fullResponseChunks st' = fullResponseChunks st /\
  idsIssued st' = idsIssued st /\
  map t_call (tasks st') = map t_call (tasks st) /\
  messageId st' = messageId st.

(** The history is the snapshot, the assistant texts, the first [n]
    recorded calls, their results, and the notices. *)
Definition Returned (st : State) : Prop :=
  pc st = Committed ->
  exists n, n <= List.length (toolCalls st) /\
    messageHistory st =
      messageHistoryBeforeStream st ++ assistantMessages st
      ++ map (fun c => assistantMessage (ToolCallPart c))
           (firstn n (toolCalls st))
      ++ map resultOfCall (firstn n (toolCalls st))
      ++ errorMessages st.

(** What an execution is built with. *)
Definition shape (t : Task) : ToolCall * bool * PromiseRef :=
  (t_call t, t_inline t, t_previous t).

(** From [st] to [st'] the executions keep what they were built with, and
    new ones come after them. *)
Definition Kept (st st' : State) : Prop :=
  exists more, map shape (tasks st') = map shape (tasks st) ++ more.

(** When the first execution awaits [streamDonePromise] and that promise
    has resolved, no execution is inline. *)
Definition Unblocked (st : State) : Prop :=
  forall t0, nth_error (tasks st) 0 = Some t0 ->
    t_previous t0 = StreamDonePromise -> streamDone st = true ->
    forall t, In t (tasks st) -> t_inline t = false.

(** The messages of the error events of a stretch of the stream read while
    the signal is clear: the errors of the stream and the refusals, in
    stream order. *)
Definition errorsOf (items : list StreamItem) : list string :=
  errorTexts (flat_map (chunksOfItem true) items).

Definition expectedHistory (history : list Message)
  (items : list StreamItem) : list Message :=
  history ++ textMessages items
  ++ map (fun c => assistantMessage (ToolCallPart c)) (callsFrom 0 items)
  ++ map resultOfCall (callsFrom 0 items)
  ++ map errorNotice (errorsOf items).

Definition expectedResult (fullResponse : string)
  (items : list StreamItem) : StreamResult :=
  mkStreamResult
    (String.concat "" (fullResponse :: textDeltas items))
    (fullResponse :: textDeltas items)
    (negb (Nat.eqb (List.length (errorsOf items)) 0))
    (Some providerMessageId)
    (callsFrom 0 items)
    (map resultOfCall (callsFrom 0 items)).

Definition isReasoningItem (item : StreamItem) : bool :=
  match item with ReasoningItem _ => true | _ => false end.

(** The stream without its reasoning. *)
Definition withoutReasoning (items : list StreamItem) : list StreamItem :=
  filter (fun item => negb (isReasoningItem item)) items.

(** As long as the step is in its loop, [messageId] is unassigned. *)
Definition Unassigned (st : State) : Prop :=
  messageId st <> None -> pc st = Draining \/ pc st = Committed.

Definition reasoningDeltas (l : list ResponseChunk) : list string :=
  flat_map (fun c => match c with ReasoningDelta text => [text] | _ => [] end) l.

Definition reasoningTexts (items : list StreamItem) : list string :=
  flat_map (fun item => match item with ReasoningItem text => [text] | _ => [] end)
    items.

(** From [st] to [st'] the caller received tool events only. *)
Definition ToolTail (st st' : State) : Prop :=
  exists l, ui st' = ui st ++ l /\ Forall (fun c => isToolEvent c = true) l.

(** The caller's stream is what is not a tool event, followed by the tool
    events. *)
Definition ToolsLast (st : State) : Prop :=
  ui st = otherChunks (ui st) ++ flat_map eventsOfCall (toolCalls st).

Definition FirstAwaitsStream (st : State) : Prop :=
  forall t0, nth_error (tasks st) 0 = Some t0 ->
    t_previous t0 = StreamDonePromise.

(** After the loop, [streamDonePromise] is unresolved only if the step was
    aborted. *)
Definition Ended (st : State) : Prop :=
  pc st = Draining \/ pc st = Committed ->
  aborted st = false -> streamDone st = true.

Definition isInlineItem (item : StreamItem) : bool :=
  match item with InlineToolCall _ _ => true | _ => false end.

(** The stream is read to its end: for each item the loop asks for a
    chunk, the provider delivers, the loop body runs; then the provider
    ends the stream. *)
Definition readAll (items : list StreamItem) : list Event :=
  flat_map (fun _ => [Tick; Deliver; Tick]) items ++ [Tick; Deliver].

(** The handlers of the first [n] executions finish, oldest first. *)
Definition finishAll (n : nat) : list Event := map HandlerDone (seq 0 n).

(** A continuation that waits does so for a promise that has not
    resolved: the parser for the inline execution it awaits, the step
    after its loop for the last execution. *)
Definition Waiting (st : State) : Prop :=
  match pc st with
  | AwaitInline p => resolved p st = false
  | Draining => resolved (previousToolCallFinished st) st = false
  | _ => True
  end.

(** How a settled promise moves control. *)
Definition woken (q q' : Phase) : Prop :=
  q' = q \/ ((exists p, q = AwaitInline p) /\ q' = LoopTop) \/
  (q = Draining /\ q' = Committed).

(** The promise the first execution awaits has resolved. *)
Definition FirstReady (st : State) : Prop :=
  forall t0, nth_error (tasks st) 0 = Some t0 ->
    resolved (t_previous t0) st = true.

(** The first tool call of the stream, if there is one, is inline. *)
Definition inlineFirst (items : list StreamItem) : bool :=
  match filter isToolCallItem items with
  | [] => true
  | item :: _ => isInlineItem item
  end.

(** One item is read while the handlers finish at once: the loop asks for
    a chunk, the provider delivers, the handlers of the executions
    dispatched so far finish, oldest first, and the loop body runs, unless
    the item was an inline call, which the parser has awaited. *)
Definition serveItem (n : nat) (item : StreamItem) : list Event :=
  [Tick; Deliver] ++ finishAll n ++ (if isInlineItem item then [] else [Tick]).

(** The whole stream is read in that way, and the provider ends it. *)
Definition serveAll (items : list StreamItem) : list Event :=
  flat_map (serveItem (List.length items)) items ++ [Tick; Deliver].

(** At the top of the loop, between two items read in that way. *)
Record Served (n : nat) (st : State) : Prop := mkServed {
  sv_chain : Chain st;
  sv_pc : pc st = LoopTop;
  sv_aborted : aborted st = false;
  sv_first : FirstReady st;
  sv_resolved : forall i ti, nth_error (tasks st) i = Some ti ->
    t_resolved ti = true;
  sv_bound : List.length (tasks st) + List.length (stream st) <= n;
  sv_order : previousToolCallFinished st = StreamDonePromise ->
    inlineFirst (stream st) = true
}.

(** *** Lists updated in place *)

Lemma update_length {A : Type} (f : A -> A) (l : list A) :
  forall k, List.length (update k f l) = List.length l.
Proof.
  induction l as [|x tl IH]; intros [|k]; cbn; auto.
Qed.

Lemma update_nth_same {A : Type} (f : A -> A) (l : list A) :
  forall k, nth_error (update k f l) k = option_map f (nth_error l k).
Proof.
  induction l as [|x tl IH]; intros [|k]; cbn; auto.
Qed.

Lemma update_nth_other {A : Type} (f : A -> A) (l : list A) :
  forall k j, j <> k -> nth_error (update k f l) j = nth_error l j.
Proof.
  induction l as [|x tl IH]; intros [|k] [|j] H; cbn; auto; try congruence.
Qed.

Lemma update_nth {A : Type} (f : A -> A) (l : list A) (k j : nat) (y : A) :
  nth_error (update k f l) j = Some y ->
  exists x, nth_error l j = Some x /\ (y = x \/ (j = k /\ y = f x)).
Proof.
  destruct (Nat.eq_dec j k) as [->|Hne].
  - rewrite update_nth_same. destruct (nth_error l k) as [x|]; cbn; [|discriminate].
    intros [= <-]. exists x. auto.
  - rewrite update_nth_other by assumption. intros H. exists y. auto.
Qed.

Lemma update_map {A B : Type} (g : A -> B) (f : A -> A) (l : list A) :
  (forall x, g (f x) = g x) -> forall k, map g (update k f l) = map g l.
Proof.
  intros Hg. induction l as [|x tl IH]; intros [|k]; cbn; auto.
  - rewrite Hg. reflexivity.
  - rewrite IH. reflexivity.
Qed.

Lemma nth_error_last {A : Type} (l : list A) (x y : A) (k : nat) :
  nth_error (l ++ [x]) k = Some y ->
  nth_error l k = Some y \/ (k = List.length l /\ y = x).
Proof.
  intros H. destruct (Nat.lt_ge_cases k (List.length l)) as [Hlt|Hge].
  - rewrite nth_error_app1 in H by assumption. auto.
  - rewrite nth_error_app2 in H by assumption.
    destruct (k - List.length l) as [|d] eqn:E; cbn in H.
    + injection H as <-. right. split; [lia | reflexivity].
    + destruct d; discriminate.
Qed.

(** *** The dispatch, case by case *)

Lemma onTagEnd_aborted (name : string) (isXmlMode : bool) (args : Input)
  (st : State) :
  aborted st = true -> onTagEnd name isXmlMode args st = (None, st).
Proof. intros H. unfold onTagEnd. rewrite H. reflexivity. Qed.

Lemma onTagEnd_refused (name : string) (isXmlMode : bool) (args : Input)
  (st : State) (message : string) :
  aborted st = false -> refusal name args = Some message ->
  onTagEnd name isXmlMode args st =
    ((if isXmlMode then Some (previousPromiseOf isXmlMode st) else None),
     set_previousToolCallFinished (previousPromiseOf isXmlMode st)
       (responseHandler (ErrorEvent message)
          (set_idsIssued (S (idsIssued st)) st))).
Proof.
  intros Ha Hr. unfold onTagEnd, refusal, previousPromiseOf in *. rewrite Ha.
  unfold executeToolCall, executeCustomToolCall, execute.
  destruct (isNativeTool name); cbn [orb isSome].
  - rewrite Hr. reflexivity.
  - destruct (tryTransformAgentToolCall name args) as [[n a]|]; cbn [orb isSome];
      rewrite Hr; reflexivity.
Qed.

Lemma onTagEnd_accepted (name : string) (isXmlMode : bool) (args : Input)
  (st : State) :
  aborted st = false -> refusal name args = None ->
  onTagEnd name isXmlMode args st =
    ((if isXmlMode then Some (ToolPromise (List.length (tasks st))) else None),
     set_previousToolCallFinished (ToolPromise (List.length (tasks st)))
       (set_tasks (tasks st ++ [newTask name isXmlMode args st])
          (set_idsIssued (S (idsIssued st)) st))).
Proof.
  intros Ha Hr.
  unfold onTagEnd, refusal, previousPromiseOf, newTask, effectiveCall in *.
  rewrite Ha.
  unfold executeToolCall, executeCustomToolCall, execute.
  destruct (isNativeTool name); cbn [orb isSome].
  - rewrite Hr. reflexivity.
  - destruct (tryTransformAgentToolCall name args) as [[n a]|]; cbn [orb isSome];
      rewrite Hr; reflexivity.
Qed.

Lemma onTagEnd_cases (name : string) (isXmlMode : bool) (args : Input)
  (st : State) :
  Dispatch name isXmlMode args st (onTagEnd name isXmlMode args st).
Proof.
  destruct (aborted st) eqn:Ha.
  - rewrite onTagEnd_aborted by assumption. constructor. assumption.
  - destruct (refusal name args) as [message|] eqn:Hr.
    + rewrite (onTagEnd_refused _ _ _ _ message) by assumption.
      constructor; assumption.
    + rewrite onTagEnd_accepted by assumption. constructor; assumption.
Qed.

(** *** The serialization spine

    [Chain] collects what holds of the executions and of what they have
    recorded, whatever has happened so far. *)

Lemma chain_frame (st st' : State) : sameChain st st' -> Chain st -> Chain st'.
Proof.
  intros (Ht & Hp & Hc & Hca & Hr & Hra & Hs & Hu) [].
  constructor; rewrite ?Ht, ?Hp, ?Hc, ?Hca, ?Hr, ?Hra, ?Hs, ?Hu; assumption.
Qed.

Ltac same_chain := repeat split; reflexivity.

(** A task read from an updated list is the old one or its update. *)
Ltac updated H :=
  apply update_nth in H;
  let x := fresh "x" in
  let Hx := fresh "Hx" in
  let Hj := fresh "Hj" in
  destruct H as [x [Hx [->|[Hj ->]]]];
  cbn [markWorkDone markResolved t_previous t_call t_resolved t_workDone t_inline];
  eauto.

Lemma chain_initial (history : list Message) (fullResponse : string)
  (items : list StreamItem) : Chain (initial history fullResponse items).
Proof.
  constructor; cbn; try reflexivity; auto.
  - intros t H; discriminate.
  - intros k t H; discriminate.
  - intros k H; discriminate.
  - exists []; reflexivity.
  - intros [|k] t H; discriminate.
  - intros [|k] t H; discriminate.
  - intros t H; discriminate.
Qed.

Lemma chain_workDone (k : nat) (st : State) :
  Chain st -> Chain (set_tasks (update k markWorkDone (tasks st)) st).
Proof.
  intros []. constructor; cbn [tasks set_tasks previousToolCallFinished toolCalls
    toolCallsToAddToMessageHistory toolResults toolResultsToAddToMessageHistory
    streamDone ui]; try assumption.
  - intros t H. updated H.
  - intros j t H. updated H.
  - intros H. apply ch_last_none0.
    destruct (tasks st); [reflexivity|]. destruct k; discriminate.
  - intros j H. apply ch_last_some0. rewrite update_length in H. exact H.
  - rewrite update_map by reflexivity. assumption.
  - intros j t H. updated H.
  - intros j t H. updated H.
  - intros t H. updated H.
Qed.

(** An execution that can resolve is the first unresolved one. *)
Lemma ready_is_next (k : nat) (t : Task) (st : State) :
  Chain st -> nth_error (tasks st) k = Some t ->
  t_resolved t = false -> resolved (t_previous t) st = true ->
  k = List.length (toolCalls st).
Proof.
  intros Hc Hk Hr Hp.
  pose proof (ch_flags st Hc k t Hk) as Hf. rewrite Hr in Hf.
  symmetry in Hf. apply Nat.ltb_ge in Hf.
  destruct k as [|j]; [lia|].
  rewrite (ch_next st Hc j t Hk) in Hp. cbn in Hp.
  destruct (nth_error (tasks st) j) as [t'|] eqn:Hj; [|discriminate].
  pose proof (ch_flags st Hc j t' Hj) as Hf'. rewrite Hp in Hf'.
  symmetry in Hf'. apply Nat.ltb_lt in Hf'. lia.
Qed.

Lemma filter_tool_events (l : list ResponseChunk) (c : ToolCall) :
  filter isToolEvent (l ++ eventsOfCall c) = filter isToolEvent l ++ eventsOfCall c.
Proof. rewrite filter_app. reflexivity. Qed.

Lemma chain_settleTask (k : nat) (st : State) :
  Chain st -> Chain (settleTask k st).
Proof.
  intros Hc. unfold settleTask.
  destruct (nth_error (tasks st) k) as [t|] eqn:Hk; [|assumption].
  destruct (negb (t_resolved t) && t_workDone t && resolved (t_previous t) st)
    eqn:Hready; [|assumption].
  apply andb_prop in Hready. destruct Hready as [Hready Hprev].
  apply andb_prop in Hready. destruct Hready as [Hres Hwork].
  apply negb_true_iff in Hres.
  pose proof (ready_is_next k t st Hc Hk Hres Hprev) as Hn.
  destruct Hc. destruct ch_prefix0 as [rest Hrest].
  assert (Hhead : exists rest', rest = t_call t :: rest').
  { pose proof (map_nth_error t_call k (tasks st) Hk) as Hm.
    rewrite Hrest, Hn, nth_error_app2, Nat.sub_diag in Hm by lia.
    destruct rest as [|c rest']; [discriminate|]. injection Hm as ->.
    eauto. }
  destruct Hhead as [rest' ->].
  constructor; cbn [record responseHandler onResponseChunk tasks set_tasks
    set_ui set_toolCalls set_toolCallsToAddToMessageHistory set_toolResults
    set_toolResultsToAddToMessageHistory previousToolCallFinished toolCalls
    toolCallsToAddToMessageHistory toolResults toolResultsToAddToMessageHistory
    streamDone ui].
  - intros x H. updated H.
  - intros j x H. updated H.
  - intros H. apply ch_last_none0.
    destruct (tasks st); [reflexivity|]. destruct k; discriminate.
  - intros j H. apply ch_last_some0. rewrite update_length in H. exact H.
  - exists rest'. rewrite update_map by reflexivity.
    rewrite Hrest, <- app_assoc. reflexivity.
  - intros j x H. rewrite length_app; cbn [List.length].
    destruct (Nat.eq_dec j k) as [->|Hne].
    + rewrite update_nth_same, Hk in H. injection H as <-. cbn.
      symmetry. apply Nat.ltb_lt. lia.
    + rewrite update_nth_other in H by assumption.
      rewrite (ch_flags0 j x H).
      destruct (Nat.ltb_spec j (List.length (toolCalls st)));
        symmetry; [apply Nat.ltb_lt | apply Nat.ltb_ge]; lia.
  - intros j x H Hrx. updated H.
    rewrite <- Hj in Hk. rewrite Hk in Hx. injection Hx as <-. exact Hwork.
  - intros x H Hrx Hpx. updated H.
    rewrite <- Hj in Hk. rewrite Hk in Hx. injection Hx as <-.
    cbn in Hpx. rewrite Hpx in Hprev. exact Hprev.
  - rewrite ch_callsAdd0. reflexivity.
  - rewrite map_app, ch_results0. reflexivity.
  - rewrite ch_resultsAdd0. reflexivity.
  - rewrite flat_map_app. cbn [flat_map]. rewrite app_nil_r.
    rewrite <- app_assoc.
    change ([ToolCallEvent (t_call t)] ++
            [ToolResultEvent (toolCallId (t_call t)) (toolName (t_call t))
               (handlerOutput (t_call t))])
      with (eventsOfCall (t_call t)).
    rewrite filter_tool_events, ch_ui0. reflexivity.
Qed.

Lemma chain_settleFrom (n : nat) :
  forall k st, Chain st -> Chain (settleFrom n k st).
Proof.
  induction n as [|n IH]; intros k st Hc; cbn; [assumption|].
  apply IH. apply chain_settleTask. assumption.
Qed.

Lemma chain_settleAll (st : State) : Chain st -> Chain (settleAll st).
Proof. apply chain_settleFrom. Qed.

Lemma previousPromiseOf_empty (isXmlMode : bool) (st : State) :
  Chain st -> tasks st = [] ->
  previousPromiseOf isXmlMode st = StreamDonePromise \/
  previousPromiseOf isXmlMode st = ResolvedPromise.
Proof.
  intros Hc He. unfold previousPromiseOf.
  destruct (ch_last_none st Hc He) as [-> | ->]; destruct isXmlMode; cbn; auto.
Qed.

Lemma previousPromiseOf_last (isXmlMode : bool) (st : State) (k : nat) :
  Chain st -> List.length (tasks st) = S k ->
  previousPromiseOf isXmlMode st = ToolPromise k.
Proof.
  intros Hc He. unfold previousPromiseOf.
  rewrite (ch_last_some st Hc k He). destruct isXmlMode; reflexivity.
Qed.

Lemma chain_onTagEnd (name : string) (isXmlMode : bool) (args : Input)
  (st : State) :
  Chain st -> Chain (snd (onTagEnd name isXmlMode args st)).
Proof.
  intros Hc. destruct (onTagEnd_cases name isXmlMode args st) as [Ha|m Ha Hr|Ha Hr];
    cbn [snd]; [assumption| |].
  - pose proof Hc as Hc'. destruct Hc. constructor; cbn; try assumption.
    + intros He. apply (previousPromiseOf_empty isXmlMode st); assumption.
    + intros k Hk. apply (previousPromiseOf_last isXmlMode st); assumption.
    + rewrite filter_app; cbn. rewrite app_nil_r. assumption.
  - pose proof Hc as Hc'. destruct Hc.
    constructor; cbn [tasks set_tasks set_idsIssued set_previousToolCallFinished
      previousToolCallFinished toolCalls toolCallsToAddToMessageHistory
      toolResults toolResultsToAddToMessageHistory streamDone ui];
      try assumption.
    + intros t H. apply nth_error_last in H. destruct H as [H|[Hl ->]]; [eauto|].
      cbn [newTask t_previous]. apply previousPromiseOf_empty; [assumption|].
      destruct (tasks st); [reflexivity | discriminate].
    + intros k t H. apply nth_error_last in H. destruct H as [H|[Hl ->]]; [eauto|].
      cbn [newTask t_previous]. apply previousPromiseOf_last; congruence.
    + intros H. destruct (tasks st); discriminate.
    + intros k H. rewrite length_app in H. cbn in H. f_equal. lia.
    + destruct ch_prefix0 as [rest Hrest]. exists (rest ++ [t_call (newTask name isXmlMode args st)]).
      rewrite map_app, Hrest, <- app_assoc. reflexivity.
    + intros k t H. apply nth_error_last in H. destruct H as [H|[Hl ->]]; [eauto|].
      cbn [newTask t_resolved]. symmetry. apply Nat.ltb_ge.
      destruct ch_prefix0 as [rest Hrest].
      apply (f_equal (@List.length _)) in Hrest.
      rewrite length_map, length_app in Hrest. lia.
    + intros k t H Ht. apply nth_error_last in H. destruct H as [H|[Hl ->]]; [eauto|].
      discriminate.
    + intros t H Ht. apply nth_error_last in H. destruct H as [H|[Hl ->]]; [eauto|].
      discriminate.
Qed.

Lemma chain_streamDone (st : State) : Chain st -> Chain (set_streamDone true st).
Proof.
  intros []. constructor; cbn; try assumption. intros; reflexivity.
Qed.

Lemma chain_emit (c : ResponseChunk) (st : State) :
  isToolEvent c = false -> Chain st -> Chain (onResponseChunk c st).
Proof.
  intros Hn. apply chain_frame. repeat split; try reflexivity.
  cbn. rewrite filter_app. cbn. rewrite Hn, app_nil_r. reflexivity.
Qed.

Lemma chain_commit (st : State) : Chain st -> Chain (commit st).
Proof. apply chain_frame. same_chain. Qed.

Lemma chain_set_pc (p : Phase) (st : State) : Chain st -> Chain (set_pc p st).
Proof. apply chain_frame. same_chain. Qed.

Lemma chain_wake (st : State) : Chain st -> Chain (wake st).
Proof.
  intros Hc. unfold wake. destruct (pc st); try assumption.
  - destruct (resolved p st); [apply chain_set_pc|]; assumption.
  - destruct (resolved _ st); [apply chain_commit|]; assumption.
Qed.

Lemma chain_afterLoop (st : State) : Chain st -> Chain (afterLoop st).
Proof.
  intros Hc. unfold afterLoop. destruct (aborted st).
  - apply chain_commit. assumption.
  - apply chain_wake, chain_set_pc, chain_settleAll, chain_streamDone. assumption.
Qed.

Lemma chain_loopBody (chunk : StreamChunk) (st : State) :
  Chain st -> Chain (loopBody chunk st).
Proof.
  intros Hc. destruct chunk; cbn [loopBody]; try assumption.
  - apply chain_emit; [reflexivity | assumption].
  - apply (chain_frame (onResponseChunk (PlainText text) st)); [same_chain|].
    apply chain_emit; [reflexivity | assumption].
  - apply (chain_frame (onResponseChunk (ErrorEvent message) st)); [same_chain|].
    apply chain_emit; [reflexivity | assumption].
Qed.

Lemma chain_parserOnResponseChunk (text : string) (st : State) :
  Chain st -> Chain (parserOnResponseChunk (TextEvent text) st).
Proof.
  intros Hc. unfold parserOnResponseChunk.
  apply chain_emit; [reflexivity|].
  destruct (String.eqb text ""); [assumption|].
  revert Hc. apply chain_frame. same_chain.
Qed.

Lemma chain_executeXmlToolCall (name : string) (args : Input) (st : State) :
  Chain st -> Chain (snd (executeXmlToolCall name args st)).
Proof.
  intros Hc. unfold executeXmlToolCall. destruct (aborted st); [assumption|].
  apply chain_onTagEnd. assumption.
Qed.

Lemma chain_parserNext (st : State) : Chain st -> Chain (parserNext st).
Proof.
  intros Hc. unfold parserNext. destruct (stream st) as [|item rest].
  - apply chain_afterLoop. revert Hc. apply chain_frame. same_chain.
  - assert (H0 : Chain (set_stream rest st))
      by (revert Hc; apply chain_frame; same_chain).
    destruct item.
    + apply chain_set_pc, chain_parserOnResponseChunk. assumption.
    + apply chain_set_pc. assumption.
    + apply chain_set_pc. assumption.
    + apply chain_set_pc, chain_onTagEnd. assumption.
    + pose proof (chain_executeXmlToolCall name args _ H0) as H1.
      destruct (executeXmlToolCall name args (set_stream rest st)) as [[p|] st1];
        cbn [snd] in H1.
      * apply chain_wake, chain_set_pc. assumption.
      * apply chain_set_pc. assumption.
Qed.

Lemma chain_step (e : Event) (st : State) : Chain st -> Chain (step e st).
Proof.
  intros Hc. destruct e; cbn [step].
  - revert Hc. apply chain_frame. same_chain.
  - apply chain_wake, chain_settleAll, chain_workDone. assumption.
  - destruct (pc st); try assumption.
    + destruct (aborted st); [apply chain_afterLoop | apply chain_set_pc];
        assumption.
    + apply chain_set_pc, chain_loopBody. assumption.
  - destruct (pc st); try assumption. apply chain_parserNext. assumption.
  - destruct (pc st); try assumption. destruct (aborted st); [|assumption].
    apply chain_afterLoop. revert Hc. apply chain_frame. same_chain.
Qed.

Lemma run_app (es1 es2 : list Event) (st : State) :
  run (es1 ++ es2) st = run es2 (run es1 st).
Proof. unfold run. apply fold_left_app. Qed.

Lemma run_invariant (P : State -> Prop) :
  (forall e st, P st -> P (step e st)) ->
  forall es st, P st -> P (run es st).
Proof.
  intros Hstep es. induction es as [|e es IH]; intros st H; cbn; [assumption|].
  apply IH. apply Hstep. assumption.
Qed.

Lemma chain_run (es : list Event) (st : State) : Chain st -> Chain (run es st).
Proof. apply run_invariant. apply chain_step. Qed.

(** *** Error notices *)

Lemma errors_frame (st st' : State) : sameErrors st st' -> Errors st -> Errors st'.
Proof.
  intros (Hm & Hf & Hu) []. constructor; rewrite ?Hm, ?Hf, ?Hu; assumption.
Qed.

Ltac same_errors := repeat split; reflexivity.

Lemma errorTexts_app (l1 l2 : list ResponseChunk) :
  errorTexts (l1 ++ l2) = errorTexts l1 ++ errorTexts l2.
Proof. apply flat_map_app. Qed.

Lemma errors_emit (c : ResponseChunk) (st : State) :
  isErrorEvent c = false -> Errors st -> Errors (onResponseChunk c st).
Proof.
  intros Hn. apply errors_frame. repeat split; try reflexivity.
  cbn. rewrite errorTexts_app. destruct c; try discriminate; cbn;
    apply app_nil_r.
Qed.

Lemma errors_responseHandler_error (message : string) (st : State) :
  Errors st -> Errors (responseHandler (ErrorEvent message) st).
Proof.
  intros []. constructor; cbn.
  - rewrite errorTexts_app, map_app, er_messages0. reflexivity.
  - rewrite length_app; cbn. symmetry. apply negb_true_iff, Nat.eqb_neq. lia.
Qed.

Lemma errors_record (t : Task) (st : State) : Errors st -> Errors (record t st).
Proof.
  apply errors_frame. repeat split; try reflexivity.
  cbn. rewrite !errorTexts_app. cbn. rewrite !app_nil_r. reflexivity.
Qed.

Lemma errors_settleTask (k : nat) (st : State) :
  Errors st -> Errors (settleTask k st).
Proof.
  intros He. unfold settleTask.
  destruct (nth_error (tasks st) k) as [t|]; [|assumption].
  destruct (negb (t_resolved t) && t_workDone t && resolved (t_previous t) st);
    [|assumption].
  apply errors_record. revert He. apply errors_frame. same_errors.
Qed.

Lemma errors_settleFrom (n : nat) :
  forall k st, Errors st -> Errors (settleFrom n k st).
Proof.
  induction n as [|n IH]; intros k st He; cbn; [assumption|].
  apply IH, errors_settleTask. assumption.
Qed.

Lemma errors_onTagEnd (name : string) (isXmlMode : bool) (args : Input)
  (st : State) :
  Errors st -> Errors (snd (onTagEnd name isXmlMode args st)).
Proof.
  intros He. destruct (onTagEnd_cases name isXmlMode args st) as [Ha|m Ha Hr|Ha Hr];
    cbn [snd]; [assumption| |].
  - apply (errors_frame (responseHandler (ErrorEvent m)
             (set_idsIssued (S (idsIssued st)) st))); [same_errors|].
    apply errors_responseHandler_error. revert He. apply errors_frame. same_errors.
  - revert He. apply errors_frame. same_errors.
Qed.

Lemma errors_wake (st : State) : Errors st -> Errors (wake st).
Proof.
  intros He. unfold wake. destruct (pc st); try assumption.
  - destruct (resolved p st); [|assumption].
    revert He. apply errors_frame. same_errors.
  - destruct (resolved _ st); [|assumption].
    revert He. apply errors_frame. same_errors.
Qed.

Lemma errors_afterLoop (st : State) : Errors st -> Errors (afterLoop st).
Proof.
  intros He. unfold afterLoop. destruct (aborted st).
  - revert He. apply errors_frame. same_errors.
  - apply errors_wake.
    apply (errors_frame (settleAll (set_streamDone true st))); [same_errors|].
    apply errors_settleFrom. revert He. apply errors_frame. same_errors.
Qed.

Lemma errors_loopBody (chunk : StreamChunk) (st : State) :
  Errors st -> Errors (loopBody chunk st).
Proof.
  intros He. destruct chunk; cbn [loopBody]; try assumption.
  - apply errors_emit; [reflexivity | assumption].
  - apply (errors_frame (onResponseChunk (PlainText text) st)); [same_errors|].
    apply errors_emit; [reflexivity | assumption].
  - destruct He. constructor; cbn.
    + rewrite errorTexts_app, map_app, er_messages0. reflexivity.
    + rewrite length_app; cbn. symmetry. apply negb_true_iff, Nat.eqb_neq. lia.
Qed.

Lemma errors_parserNext (st : State) : Errors st -> Errors (parserNext st).
Proof.
  intros He. unfold parserNext. destruct (stream st) as [|item rest].
  - apply errors_afterLoop. revert He. apply errors_frame. same_errors.
  - assert (H0 : Errors (set_stream rest st))
      by (revert He; apply errors_frame; same_errors).
    destruct item.
    + apply (errors_frame (parserOnResponseChunk (TextEvent text) (set_stream rest st)));
        [same_errors|].
      unfold parserOnResponseChunk. apply errors_emit; [reflexivity|].
      destruct (String.eqb text ""); [assumption|].
      revert H0. apply errors_frame. same_errors.
    + revert H0. apply errors_frame. same_errors.
    + revert H0. apply errors_frame. same_errors.
    + apply (errors_frame (snd (onTagEnd name false args (set_stream rest st))));
        [same_errors|].
      apply errors_onTagEnd. assumption.
    + assert (H1 : Errors (snd (executeXmlToolCall name args (set_stream rest st)))).
      { unfold executeXmlToolCall. destruct (aborted (set_stream rest st));
          [assumption | apply errors_onTagEnd; assumption]. }
      destruct (executeXmlToolCall name args (set_stream rest st)) as [[p|] st1];
        cbn [snd] in H1.
      * apply errors_wake. revert H1. apply errors_frame. same_errors.
      * revert H1. apply errors_frame. same_errors.
Qed.

Lemma errors_step (e : Event) (st : State) : Errors st -> Errors (step e st).
Proof.
  intros He. destruct e; cbn [step].
  - revert He. apply errors_frame. same_errors.
  - apply errors_wake, errors_settleFrom. revert He. apply errors_frame. same_errors.
  - destruct (pc st); try assumption.
    + destruct (aborted st); [apply errors_afterLoop; assumption|].
      revert He. apply errors_frame. same_errors.
    + apply (errors_frame (loopBody chunk st)); [same_errors|].
      apply errors_loopBody. assumption.
  - destruct (pc st); try assumption. apply errors_parserNext. assumption.
  - destruct (pc st); try assumption. destruct (aborted st); [|assumption].
    apply errors_afterLoop. revert He. apply errors_frame. same_errors.
Qed.

Lemma errors_initial (history : list Message) (fullResponse : string)
  (items : list StreamItem) : Errors (initial history fullResponse items).
Proof. constructor; reflexivity. Qed.

(** *** Control *)

Lemma sameControl_refl (st : State) : sameControl st st.
Proof. repeat split. Qed.

Lemma sameControl_trans (a b c : State) :
  sameControl a b -> sameControl b c -> sameControl a c.
Proof.
  unfold sameControl. intros H1 H2.
  decompose [and] H1. decompose [and] H2. repeat split; congruence.
Qed.

Lemma settleTask_untouched (k : nat) (st : State) :
  sameControl st (settleTask k st).
Proof.
  unfold settleTask. destruct (nth_error (tasks st) k) as [t|];
    [|apply sameControl_refl].
  destruct (negb (t_resolved t) && t_workDone t && resolved (t_previous t) st);
    [|apply sameControl_refl].
  repeat split.
Qed.

Lemma settleFrom_untouched (n : nat) :
  forall k st, sameControl st (settleFrom n k st).
Proof.
  induction n as [|n IH]; intros k st; cbn; [apply sameControl_refl|].
  eapply sameControl_trans; [apply settleTask_untouched | apply IH].
Qed.

Lemma settleTask_noop (k : nat) (st : State) :
  allResolved st -> settleTask k st = st.
Proof.
  intros Hall. unfold settleTask.
  destruct (nth_error (tasks st) k) as [t|] eqn:Hk; [|reflexivity].
  rewrite (Hall t (nth_error_In _ _ Hk)). reflexivity.
Qed.

Lemma settleFrom_noop (n : nat) :
  forall k st, allResolved st -> settleFrom n k st = st.
Proof.
  induction n as [|n IH]; intros k st Hall; cbn; [reflexivity|].
  rewrite settleTask_noop by assumption. apply IH. assumption.
Qed.

Lemma inlineSettled_settleTask (k : nat) (st : State) :
  inlineSettled st -> inlineSettled (settleTask k st).
Proof.
  intros Hs. unfold settleTask.
  destruct (nth_error (tasks st) k) as [t|] eqn:Hk; [|assumption].
  destruct (negb (t_resolved t) && t_workDone t && resolved (t_previous t) st);
    [|assumption].
  intros j x H Hi. cbn in H. updated H.
Qed.

Lemma inlineSettled_settleFrom (n : nat) :
  forall k st, inlineSettled st -> inlineSettled (settleFrom n k st).
Proof.
  induction n as [|n IH]; intros k st Hs; cbn; [assumption|].
  apply IH, inlineSettled_settleTask. assumption.
Qed.

Lemma control_inlineSettled (st : State) :
  Control st -> (forall p, pc st <> AwaitInline p) -> inlineSettled st.
Proof.
  intros Hc Hpc k t Hk Hi. destruct (t_resolved t) eqn:Hr; [reflexivity|].
  exfalso. apply (Hpc (ToolPromise k)). eapply ct_inline; eauto.
Qed.

Lemma control_streamDone_false (st : State) :
  Control st -> pc st <> Draining -> pc st <> Committed -> streamDone st = false.
Proof.
  intros Hc H1 H2. destruct (streamDone st) eqn:Hs; [|reflexivity].
  destruct (ct_streamDone st Hc Hs) as [[H|H] _]; contradiction.
Qed.

Lemma control_settleTask (k : nat) (st : State) :
  Control st -> Control (settleTask k st).
Proof.
  intros Hc. unfold settleTask.
  destruct (nth_error (tasks st) k) as [t|] eqn:Hk; [|assumption].
  destruct (negb (t_resolved t) && t_workDone t && resolved (t_previous t) st)
    eqn:Hready; [|assumption].
  apply andb_prop in Hready. destruct Hready as [Hready _].
  apply andb_prop in Hready. destruct Hready as [Hres _].
  apply negb_true_iff in Hres.
  destruct Hc. constructor; cbn.
  - intros j x H Hi Hr. updated H. discriminate.
  - assumption.
  - intros Hp Ha. destruct (ct_committed0 Hp Ha) as [Hall _].
    rewrite (Hall t (nth_error_In _ _ Hk)) in Hres. discriminate.
Qed.

Lemma control_settleFrom (n : nat) :
  forall k st, Control st -> Control (settleFrom n k st).
Proof.
  induction n as [|n IH]; intros k st Hc; cbn; [assumption|].
  apply IH, control_settleTask. assumption.
Qed.

Lemma control_workDone (k : nat) (st : State) :
  Control st -> Control (set_tasks (update k markWorkDone (tasks st)) st).
Proof.
  intros []. constructor; cbn.
  - intros j x H Hi Hr. updated H.
  - assumption.
  - intros Hp Ha. destruct (ct_committed0 Hp Ha) as [Hall Hh]. split; [|assumption].
    intros x Hx. apply In_nth_error in Hx. destruct Hx as [j Hj].
    cbn in Hj. updated Hj; apply Hall; eapply nth_error_In; eassumption.
Qed.

(** When the promise of the last execution has resolved, all have. *)
Lemma chain_allResolved (st : State) :
  Chain st -> resolved (previousToolCallFinished st) st = true -> allResolved st.
Proof.
  intros Hc Hr t Ht. apply In_nth_error in Ht. destruct Ht as [k Hk].
  assert (Hlen : k < List.length (tasks st)) by (apply nth_error_Some; congruence).
  destruct (List.length (tasks st)) as [|n] eqn:Hn; [lia|].
  rewrite (ch_last_some st Hc n Hn) in Hr. cbn in Hr.
  destruct (nth_error (tasks st) n) as [tn|] eqn:Htn; [|discriminate].
  pose proof (ch_flags st Hc n tn Htn) as Hf. rewrite Hr in Hf.
  symmetry in Hf. apply Nat.ltb_lt in Hf.
  rewrite (ch_flags st Hc k t Hk). apply Nat.ltb_lt. lia.
Qed.

Lemma control_commit (st : State) :
  inlineSettled st ->
  (streamDone st = true -> stream st = [] /\ messageId st = Some providerMessageId) ->
  (aborted st = false -> allResolved st) ->
  Control (commit st).
Proof.
  intros Hs Hd Hall. constructor; cbn.
  - intros k t Hk Hi Hr. rewrite (Hs k t Hk Hi) in Hr. discriminate.
  - intros H. split; [right; reflexivity | apply Hd; assumption].
  - intros _ Ha. split; [apply Hall; assumption | reflexivity].
Qed.

Lemma control_wake (st : State) : Control st -> Chain st -> Control (wake st).
Proof.
  intros Hc Hch. unfold wake. destruct (pc st) eqn:Hpc; try assumption.
  - destruct (resolved p st) eqn:Hr; [|assumption].
    constructor; cbn.
    + intros k t Hk Hi Hu. exfalso.
      pose proof (ct_inline st Hc k t Hk Hi Hu) as H. rewrite Hpc in H.
      injection H as ->. cbn in Hr. rewrite Hk in Hr. congruence.
    + intros Hs. destruct (ct_streamDone st Hc Hs) as [[H|H] _]; congruence.
    + discriminate.
  - destruct (resolved (previousToolCallFinished st) st) eqn:Hr; [|assumption].
    apply control_commit.
    + apply control_inlineSettled; [assumption | congruence].
    + intros Hs. apply (ct_streamDone st Hc Hs).
    + intros _. apply chain_allResolved; assumption.
Qed.

Lemma control_afterLoop (st : State) :
  Control st -> Chain st ->
  pc st = LoopTop \/ pc st = AwaitStream ->
  (aborted st = false -> stream st = [] /\ messageId st = Some providerMessageId) ->
  Control (afterLoop st).
Proof.
  intros Hc Hch Hpc Hend.
  assert (Hs : inlineSettled st)
    by (apply control_inlineSettled; [assumption | destruct Hpc; congruence]).
  assert (Hd : streamDone st = false)
    by (apply control_streamDone_false; [assumption | |]; destruct Hpc; congruence).
  unfold afterLoop. destruct (aborted st) eqn:Ha.
  - apply control_commit; [assumption | congruence | congruence].
  - apply control_wake.
    + pose proof (settleFrom_untouched (List.length (tasks (set_streamDone true st)))
                    0 (set_streamDone true st)) as Hu.
      fold (settleAll (set_streamDone true st)) in Hu.
      unfold sameControl in Hu. decompose [and] Hu. cbn in *.
      constructor; cbn.
      * intros k t Hk Hi Hr. exfalso.
        assert (Hs' : inlineSettled (settleAll (set_streamDone true st)))
          by (apply inlineSettled_settleFrom; exact Hs).
        rewrite (Hs' k t Hk Hi) in Hr. discriminate.
      * intros _. split; [left; reflexivity|].
        destruct (Hend eq_refl) as [H1' H2']. split; congruence.
      * discriminate.
    + apply chain_set_pc, chain_settleAll, chain_streamDone. assumption.
Qed.

Lemma control_free (p : Phase) (st : State) :
  inlineSettled st -> streamDone st = false -> p <> Committed ->
  Control (set_pc p st).
Proof.
  intros Hs Hd Hp. constructor; cbn.
  - intros k t Hk Hi Hr. rewrite (Hs k t Hk Hi) in Hr. discriminate.
  - congruence.
  - congruence.
Qed.

Lemma onTagEnd_streamDone (name : string) (isXmlMode : bool) (args : Input)
  (st : State) :
  streamDone (snd (onTagEnd name isXmlMode args st)) = streamDone st.
Proof.
  destruct (onTagEnd_cases name isXmlMode args st); reflexivity.
Qed.

Lemma onTagEnd_structured_settled (name : string) (args : Input) (st : State) :
  inlineSettled st -> inlineSettled (snd (onTagEnd name false args st)).
Proof.
  intros Hs. destruct (onTagEnd_cases name false args st) as [Ha|m Ha Hr|Ha Hr];
    cbn [snd]; try assumption.
  intros k t H Hi. cbn in H. apply nth_error_last in H.
  destruct H as [H|[_ ->]]; [eauto | discriminate].
Qed.

Lemma parserOnResponseChunk_tasks (c : ResponseChunk) (st : State) :
  tasks (parserOnResponseChunk c st) = tasks st /\
  streamDone (parserOnResponseChunk c st) = streamDone st.
Proof.
  unfold parserOnResponseChunk. destruct c; try (split; reflexivity).
  destruct (String.eqb text ""); split; reflexivity.
Qed.

Lemma control_set_messageId (v : option string) (st : State) :
  Control st -> streamDone st = false -> Control (set_messageId v st).
Proof.
  intros [] Hd. constructor; cbn; try assumption. congruence.
Qed.

Lemma control_parserNext (st : State) :
  Control st -> Chain st -> pc st = AwaitStream -> Control (parserNext st).
Proof.
  intros Hc Hch Hpc.
  assert (Hs : inlineSettled st)
    by (apply control_inlineSettled; [assumption | congruence]).
  assert (Hd : streamDone st = false)
    by (apply control_streamDone_false; [assumption | |]; congruence).
  unfold parserNext. destruct (stream st) as [|item rest] eqn:Hst.
  - apply control_afterLoop.
    + apply control_set_messageId; assumption.
    + revert Hch. apply chain_frame. same_chain.
    + right. exact Hpc.
    + intros _. cbn. auto.
  - destruct item.
    + destruct (parserOnResponseChunk_tasks (TextEvent text) (set_stream rest st))
        as [Ht Hsd].
      apply control_free; [| | discriminate].
      * unfold inlineSettled. rewrite Ht. exact Hs.
      * rewrite Hsd. exact Hd.
    + apply control_free; [exact Hs | exact Hd | discriminate].
    + apply control_free; [exact Hs | exact Hd | discriminate].
    + apply control_free; [| | discriminate].
      * apply onTagEnd_structured_settled. exact Hs.
      * rewrite onTagEnd_streamDone. exact Hd.
    + unfold executeXmlToolCall. cbn [aborted set_stream].
      destruct (aborted st) eqn:Ha.
      * apply control_free; [exact Hs | exact Hd | discriminate].
      * assert (Hch0 : Chain (set_stream rest st))
          by (revert Hch; apply chain_frame; same_chain).
        pose proof (chain_onTagEnd name true args _ Hch0) as Hch1.
        pose proof (onTagEnd_streamDone name true args (set_stream rest st)) as Hd1.
        destruct (onTagEnd_cases name true args (set_stream rest st))
          as [Ha'|m Ha' Hr|Ha' Hr]; cbn [snd] in Hch1, Hd1.
        -- apply control_free; [exact Hs | exact Hd | discriminate].
        -- apply control_wake; [| apply chain_set_pc; exact Hch1].
           apply control_free; [exact Hs | exact Hd | discriminate].
        -- apply control_wake; [| apply chain_set_pc; exact Hch1].
           constructor; cbn.
           ++ intros k t H Hi Hr'. apply nth_error_last in H.
              destruct H as [H|[-> _]]; [|reflexivity].
              rewrite (Hs k t H Hi) in Hr'. discriminate.
           ++ congruence.
           ++ discriminate.
Qed.

Lemma control_step (e : Event) (st : State) :
  Control st -> Chain st -> Control (step e st).
Proof.
  intros Hc Hch. destruct e; cbn [step].
  - destruct Hc. constructor; cbn; try assumption. discriminate.
  - apply control_wake.
    + apply control_settleFrom, control_workDone. assumption.
    + apply chain_settleAll, chain_workDone. assumption.
  - destruct (pc st) eqn:Hpc; try assumption.
    + destruct (aborted st) eqn:Ha.
      * apply control_afterLoop; auto. congruence.
      * apply control_free; [| | discriminate].
        -- apply control_inlineSettled; [assumption | congruence].
        -- apply control_streamDone_false; [assumption | |]; congruence.
    + assert (Hs : inlineSettled st)
        by (apply control_inlineSettled; [assumption | congruence]).
      assert (Hd : streamDone st = false)
        by (apply control_streamDone_false; [assumption | |]; congruence).
      apply control_free; [| | discriminate].
      * destruct chunk; exact Hs.
      * destruct chunk; exact Hd.
  - destruct (pc st) eqn:Hpc; try assumption.
    apply control_parserNext; assumption.
  - destruct (pc st) eqn:Hpc; try assumption.
    destruct (aborted st) eqn:Ha; [|assumption].
    apply control_afterLoop.
    + apply control_set_messageId; [assumption|].
      apply control_streamDone_false; [assumption | |]; congruence.
    + revert Hch. apply chain_frame. same_chain.
    + right. exact Hpc.
    + cbn. congruence.
Qed.

Lemma control_initial (history : list Message) (fullResponse : string)
  (items : list StreamItem) : Control (initial history fullResponse items).
Proof.
  constructor; cbn; try discriminate.
  intros [|k] t H; discriminate.
Qed.

(** *** What holds in every state a step can reach *)

Lemma invariant_step (e : Event) (st : State) :
  Invariant st -> Invariant (step e st).
Proof.
  intros [Hch He Hc]. constructor.
  - apply chain_step; assumption.
  - apply errors_step; assumption.
  - apply control_step; assumption.
Qed.

Lemma invariant_initial (history : list Message) (fullResponse : string)
  (items : list StreamItem) : Invariant (initial history fullResponse items).
Proof.
  constructor;
    [apply chain_initial | apply errors_initial | apply control_initial].
Qed.

Lemma invariant_run (es : list Event) (st : State) :
  Invariant st -> Invariant (run es st).
Proof. apply run_invariant. apply invariant_step. Qed.

Lemma invariant_reachable (es : list Event) (history : list Message)
  (fullResponse : string) (items : list StreamItem) :
  Invariant (run es (initial history fullResponse items)).
Proof. apply invariant_run, invariant_initial. Qed.

(** *** What only grows *)

Lemma grows_refl (st : State) : Grows st st.
Proof.
  constructor; auto; exists []; rewrite app_nil_r; reflexivity.
Qed.

Lemma grows_trans (a b c : State) : Grows a b -> Grows b c -> Grows a c.
Proof.
  intros [[l1 H1] [m1 G1] S1 A1 F1] [[l2 H2] [m2 G2] S2 A2 F2]. constructor.
  - exists (l1 ++ l2). rewrite H2, H1, app_assoc. reflexivity.
  - exists (m1 ++ m2). rewrite G2, G1, app_assoc. reflexivity.
  - congruence.
  - auto.
  - intros Ha. destruct (F1 Ha) as [T1 I1]. destruct (F2 (A1 Ha)) as [T2 I2].
    split; congruence.
Qed.

(** Two states that agree on what [Grows] reads. *)
Lemma grows_same (st st' : State) :
  ui st' = ui st -> toolCalls st' = toolCalls st ->
  messageHistoryBeforeStream st' = messageHistoryBeforeStream st ->
  aborted st' = aborted st -> tasks st' = tasks st ->
  idsIssued st' = idsIssued st ->
  Grows st st'.
Proof.
  intros Hu Hc Hs Ha Ht Hi. constructor.
  - exists []. rewrite app_nil_r. assumption.
  - exists []. rewrite app_nil_r. assumption.
  - assumption.
  - congruence.
  - intros _. split; congruence.
Qed.

Ltac grows_same := apply grows_same; reflexivity.

Lemma grows_emit (c : ResponseChunk) (st : State) : Grows st (onResponseChunk c st).
Proof.
  constructor; cbn; auto.
  - exists [c]. reflexivity.
  - exists []. rewrite app_nil_r. reflexivity.
Qed.

Lemma grows_settleTask (k : nat) (st : State) : Grows st (settleTask k st).
Proof.
  unfold settleTask. destruct (nth_error (tasks st) k) as [t|]; [|apply grows_refl].
  destruct (negb (t_resolved t) && t_workDone t && resolved (t_previous t) st);
    [|apply grows_refl].
  constructor; cbn; auto.
  - eexists. rewrite <- app_assoc. reflexivity.
  - eexists. reflexivity.
  - intros _. split; [|reflexivity]. apply update_map. reflexivity.
Qed.

Lemma grows_settleFrom (n : nat) : forall k st, Grows st (settleFrom n k st).
Proof.
  induction n as [|n IH]; intros k st; cbn; [apply grows_refl|].
  eapply grows_trans; [apply grows_settleTask | apply IH].
Qed.

Lemma grows_onTagEnd (name : string) (isXmlMode : bool) (args : Input)
  (st : State) : Grows st (snd (onTagEnd name isXmlMode args st)).
Proof.
  destruct (onTagEnd_cases name isXmlMode args st) as [Ha|m Ha Hr|Ha Hr];
    cbn [snd]; [apply grows_refl | |].
  - constructor; cbn; auto; try congruence.
    + eexists. reflexivity.
    + exists []. rewrite app_nil_r. reflexivity.
  - constructor; cbn; auto; try congruence.
    + exists []. rewrite app_nil_r. reflexivity.
    + exists []. rewrite app_nil_r. reflexivity.
Qed.

Lemma grows_wake (st : State) : Grows st (wake st).
Proof.
  unfold wake. destruct (pc st); try apply grows_refl.
  - destruct (resolved p st); [grows_same | apply grows_refl].
  - destruct (resolved _ st); [grows_same | apply grows_refl].
Qed.

Lemma grows_afterLoop (st : State) : Grows st (afterLoop st).
Proof.
  unfold afterLoop. destruct (aborted st); [grows_same|].
  eapply grows_trans; [|apply grows_wake].
  eapply grows_trans; [|apply (grows_same (settleAll (set_streamDone true st))); reflexivity].
  eapply grows_trans; [|apply grows_settleFrom].
  grows_same.
Qed.

Lemma grows_loopBody (chunk : StreamChunk) (st : State) : Grows st (loopBody chunk st).
Proof.
  destruct chunk; cbn [loopBody]; try apply grows_refl.
  - apply grows_emit.
  - eapply grows_trans; [apply (grows_emit (PlainText text))|]. grows_same.
  - eapply grows_trans; [apply (grows_emit (ErrorEvent message))|]. grows_same.
Qed.

Lemma grows_parserOnResponseChunk (c : ResponseChunk) (st : State) :
  Grows st (parserOnResponseChunk c st).
Proof.
  unfold parserOnResponseChunk.
  eapply grows_trans; [|apply grows_emit].
  destruct c; try apply grows_refl.
  destruct (String.eqb text ""); [apply grows_refl | grows_same].
Qed.

Lemma grows_executeXmlToolCall (name : string) (args : Input) (st : State) :
  Grows st (snd (executeXmlToolCall name args st)).
Proof.
  unfold executeXmlToolCall. destruct (aborted st); [apply grows_refl|].
  apply grows_onTagEnd.
Qed.

Lemma grows_parserNext (st : State) : Grows st (parserNext st).
Proof.
  unfold parserNext. destruct (stream st) as [|item rest].
  - eapply grows_trans; [|apply grows_afterLoop]. grows_same.
  - assert (H0 : Grows st (set_stream rest st)) by grows_same.
    destruct item.
    + eapply grows_trans; [exact H0|].
      eapply grows_trans; [apply (grows_parserOnResponseChunk (TextEvent text))|].
      grows_same.
    + grows_same.
    + grows_same.
    + eapply grows_trans; [exact H0|].
      eapply grows_trans; [apply (grows_onTagEnd name false args)|]. grows_same.
    + pose proof (grows_executeXmlToolCall name args (set_stream rest st)) as H1.
      destruct (executeXmlToolCall name args (set_stream rest st)) as [[p|] st1];
        cbn [snd] in H1.
      * eapply grows_trans; [exact H0|]. eapply grows_trans; [exact H1|].
        eapply grows_trans; [|apply grows_wake]. grows_same.
      * eapply grows_trans; [exact H0|]. eapply grows_trans; [exact H1|].
        grows_same.
Qed.

Lemma grows_step (e : Event) (st : State) : Grows st (step e st).
Proof.
  destruct e; cbn [step].
  - constructor; cbn; auto; exists []; rewrite app_nil_r; reflexivity.
  - eapply grows_trans; [|apply grows_wake].
    eapply grows_trans; [|apply grows_settleFrom].
    constructor; cbn; auto; try (exists []; rewrite app_nil_r; reflexivity).
    intros _. split; [|reflexivity]. apply update_map. reflexivity.
  - destruct (pc st); try apply grows_refl.
    + destruct (aborted st); [apply grows_afterLoop | grows_same].
    + eapply grows_trans; [apply grows_loopBody | grows_same].
  - destruct (pc st); try apply grows_refl. apply grows_parserNext.
  - destruct (pc st); try apply grows_refl.
    destruct (aborted st); [|apply grows_refl].
    eapply grows_trans; [|apply grows_afterLoop]. grows_same.
Qed.

Lemma grows_run (es : list Event) : forall st, Grows st (run es st).
Proof.
  induction es as [|e es IH]; intros st; cbn; [apply grows_refl|].
  eapply grows_trans; [apply grows_step | apply IH].
Qed.

(** *** Text and tool results in the caller's stream *)

Lemma silent_refl (st : State) : Silent st st.
Proof. exists []. rewrite app_nil_r. split; [reflexivity | constructor]. Qed.

Lemma silent_trans (a b c : State) : Silent a b -> Silent b c -> Silent a c.
Proof.
  intros [l1 [H1 F1]] [l2 [H2 F2]]. exists (l1 ++ l2). split.
  - rewrite H2, H1, app_assoc. reflexivity.
  - apply Forall_app. split; assumption.
Qed.

Lemma silent_same (st st' : State) : ui st' = ui st -> Silent st st'.
Proof. intros H. exists []. rewrite app_nil_r. split; [assumption | constructor]. Qed.

Lemma silent_settleTask (k : nat) (st : State) : Silent st (settleTask k st).
Proof.
  unfold settleTask. destruct (nth_error (tasks st) k) as [t|]; [|apply silent_refl].
  destruct (negb (t_resolved t) && t_workDone t && resolved (t_previous t) st);
    [|apply silent_refl].
  exists (eventsOfCall (t_call t)). split.
  - cbn. rewrite <- app_assoc. reflexivity.
  - repeat constructor.
Qed.

Lemma silent_settleFrom (n : nat) : forall k st, Silent st (settleFrom n k st).
Proof.
  induction n as [|n IH]; intros k st; cbn; [apply silent_refl|].
  eapply silent_trans; [apply silent_settleTask | apply IH].
Qed.

Lemma silent_wake (st : State) : Silent st (wake st).
Proof.
  unfold wake. destruct (pc st); try apply silent_refl.
  - destruct (resolved p st); [apply silent_same; reflexivity | apply silent_refl].
  - destruct (resolved _ st); [apply silent_same; reflexivity | apply silent_refl].
Qed.

Lemma silent_afterLoop (st : State) : Silent st (afterLoop st).
Proof.
  unfold afterLoop. destruct (aborted st); [apply silent_same; reflexivity|].
  eapply silent_trans; [|apply silent_wake].
  eapply silent_trans;
    [|apply (silent_same (settleAll (set_streamDone true st))); reflexivity].
  eapply silent_trans; [|apply silent_settleFrom].
  apply silent_same. reflexivity.
Qed.

Lemma silent_onTagEnd (name : string) (isXmlMode : bool) (args : Input)
  (st : State) : Silent st (snd (onTagEnd name isXmlMode args st)).
Proof.
  destruct (onTagEnd_cases name isXmlMode args st) as [Ha|m Ha Hr|Ha Hr];
    cbn [snd]; [apply silent_refl | |].
  - exists [ErrorEvent m]. split; [reflexivity | repeat constructor].
  - apply silent_same. reflexivity.
Qed.

Lemma tasks_wake (st : State) : tasks (wake st) = tasks st.
Proof.
  unfold wake. destruct (pc st); try reflexivity.
  - destruct (resolved p st); reflexivity.
  - destruct (resolved _ st); reflexivity.
Qed.

(** A step that hands text to the caller dispatches nothing, and finds
    every inline execution resolved. *)
Lemma text_needs_settled (e : Event) (st : State) (l : list ResponseChunk) :
  Control st -> ui (step e st) = ui st ++ l ->
  (exists x, In x l /\ isText x = true) ->
  tasks (step e st) = tasks st /\ inlineSettled st.
Proof.
  intros Hc Hl [x [Hx Ht]].
  assert (Hsilent : Silent st (step e st) -> False).
  { intros [l' [Hl' Hf]]. rewrite Hl in Hl'. apply app_inv_head in Hl'. subst l'.
    rewrite Forall_forall in Hf. rewrite (Hf x Hx) in Ht. discriminate. }
  destruct e; cbn [step] in *.
  - exfalso. apply Hsilent. apply silent_same. reflexivity.
  - exfalso. apply Hsilent.
    eapply silent_trans; [|apply silent_wake].
    eapply silent_trans; [|apply silent_settleFrom].
    apply silent_same. reflexivity.
  - destruct (pc st) eqn:Hpc; try (exfalso; apply Hsilent; apply silent_refl).
    + exfalso. apply Hsilent.
      destruct (aborted st); [apply silent_afterLoop | apply silent_same; reflexivity].
    + split.
      * destruct chunk; reflexivity.
      * apply control_inlineSettled; [assumption | congruence].
  - destruct (pc st) eqn:Hpc; try (exfalso; apply Hsilent; apply silent_refl).
    assert (Hs : inlineSettled st)
      by (apply control_inlineSettled; [assumption | congruence]).
    split; [|exact Hs].
    unfold parserNext in *. destruct (stream st) as [|item rest].
    + exfalso. apply Hsilent.
      eapply silent_trans; [|apply silent_afterLoop]. apply silent_same. reflexivity.
    + destruct item.
      * cbn. destruct (String.eqb text ""); reflexivity.
      * exfalso. apply Hsilent. apply silent_same. reflexivity.
      * exfalso. apply Hsilent. apply silent_same. reflexivity.
      * exfalso. apply Hsilent.
        eapply silent_trans; [apply (silent_same st (set_stream rest st)); reflexivity|].
        eapply silent_trans; [apply (silent_onTagEnd name false args)|].
        apply silent_same. reflexivity.
      * exfalso. apply Hsilent.
        assert (H1 : Silent st (snd (executeXmlToolCall name args (set_stream rest st)))).
        { unfold executeXmlToolCall. cbn [aborted set_stream].
          destruct (aborted st); [apply silent_same; reflexivity|].
          eapply silent_trans; [|apply silent_onTagEnd]. apply silent_same. reflexivity. }
        destruct (executeXmlToolCall name args (set_stream rest st)) as [[p|] st1];
          cbn [snd] in H1.
        -- eapply silent_trans; [exact H1|].
           eapply silent_trans; [|apply silent_wake]. apply silent_same. reflexivity.
        -- eapply silent_trans; [exact H1|]. apply silent_same. reflexivity.
  - exfalso. apply Hsilent.
    destruct (pc st); try apply silent_refl.
    destruct (aborted st); [|apply silent_refl].
    eapply silent_trans; [|apply silent_afterLoop]. apply silent_same. reflexivity.
Qed.

(** A resolved execution has its call recorded and its result emitted. *)
Lemma resolved_is_recorded (k : nat) (t : Task) (st : State) :
  Chain st -> nth_error (tasks st) k = Some t -> t_resolved t = true ->
  nth_error (toolCalls st) k = Some (t_call t) /\
  In (ToolResultEvent (toolCallId (t_call t)) (toolName (t_call t))
        (handlerOutput (t_call t))) (ui st).
Proof.
  intros Hc Hk Hr.
  pose proof (ch_flags st Hc k t Hk) as Hf. rewrite Hr in Hf.
  symmetry in Hf. apply Nat.ltb_lt in Hf.
  destruct (ch_prefix st Hc) as [rest Hrest].
  pose proof (map_nth_error t_call k (tasks st) Hk) as Hm.
  rewrite Hrest, nth_error_app1 in Hm by assumption.
  split; [exact Hm|].
  assert (Hin : In (ToolResultEvent (toolCallId (t_call t)) (toolName (t_call t))
                      (handlerOutput (t_call t)))
                   (filter isToolEvent (ui st))).
  { rewrite (ch_ui st Hc). apply in_flat_map. exists (t_call t). split.
    - eapply nth_error_In. exact Hm.
    - cbn. auto. }
  apply filter_In in Hin. apply Hin.
Qed.

(** *** Assistant text *)

Lemma texts_same (st st' : State) :
  assistantMessages st' = assistantMessages st -> Texts st -> Texts st'.
Proof. unfold Texts. intros ->. auto. Qed.

Lemma assistantMessages_onTagEnd (name : string) (isXmlMode : bool)
  (args : Input) (st : State) :
  assistantMessages (snd (onTagEnd name isXmlMode args st)) = assistantMessages st.
Proof. destruct (onTagEnd_cases name isXmlMode args st); reflexivity. Qed.

Lemma assistantMessages_settleAll (st : State) :
  assistantMessages (settleAll st) = assistantMessages st.
Proof.
  pose proof (settleFrom_untouched (List.length (tasks st)) 0 st) as H.
  unfold sameControl in H. decompose [and] H. assumption.
Qed.

Lemma assistantMessages_wake (st : State) :
  assistantMessages (wake st) = assistantMessages st.
Proof.
  unfold wake. destruct (pc st); try reflexivity.
  - destruct (resolved p st); reflexivity.
  - destruct (resolved _ st); reflexivity.
Qed.

Lemma assistantMessages_afterLoop (st : State) :
  assistantMessages (afterLoop st) = assistantMessages st.
Proof.
  unfold afterLoop. destruct (aborted st); [reflexivity|].
  rewrite assistantMessages_wake. cbn [assistantMessages set_pc].
  rewrite assistantMessages_settleAll. reflexivity.
Qed.

Lemma texts_step (e : Event) (st : State) : Texts st -> Texts (step e st).
Proof.
  intros Ht. destruct e; cbn [step].
  - exact Ht.
  - revert Ht. apply texts_same.
    rewrite assistantMessages_wake, assistantMessages_settleAll. reflexivity.
  - destruct (pc st); try exact Ht.
    + destruct (aborted st); [|exact Ht].
      revert Ht. apply texts_same. apply assistantMessages_afterLoop.
    + revert Ht. apply texts_same. destruct chunk; reflexivity.
  - destruct (pc st); try exact Ht.
    unfold parserNext. destruct (stream st) as [|item rest].
    + revert Ht. apply texts_same. rewrite assistantMessages_afterLoop. reflexivity.
    + destruct item; try exact Ht.
      * unfold Texts, parserOnResponseChunk. cbn.
        destruct (String.eqb text ""); [exact Ht|]. cbn.
        apply Forall_app. split; [exact Ht|].
        constructor; [exists text; reflexivity | constructor].
      * revert Ht. apply texts_same. cbn.
        apply (assistantMessages_onTagEnd name false args (set_stream rest st)).
      * unfold executeXmlToolCall. cbn [aborted set_stream].
        destruct (aborted st); [exact Ht|].
        pose proof (assistantMessages_onTagEnd name true args (set_stream rest st)) as H.
        destruct (onTagEnd name true args (set_stream rest st)) as [[p|] st1];
          cbn [snd] in H; revert Ht; apply texts_same;
          rewrite ?assistantMessages_wake; exact H.
  - destruct (pc st); try exact Ht. destruct (aborted st); [|exact Ht].
    revert Ht. apply texts_same. rewrite assistantMessages_afterLoop. reflexivity.
Qed.

Lemma texts_run (es : list Event) (st : State) : Texts st -> Texts (run es st).
Proof. apply run_invariant. apply texts_step. Qed.

(** *** Pairing of tool messages with tool calls *)

Lemma noOrphan_app (h1 h2 : list Message) :
  forall seen,
    noOrphan seen (h1 ++ h2) = noOrphan seen h1 && noOrphan (seenAfter seen h1) h2.
Proof.
  induction h1 as [|m tl IH]; intros seen; cbn; [reflexivity|].
  destruct m; cbn; rewrite ?IH; try reflexivity.
  rewrite andb_assoc. reflexivity.
Qed.

Lemma seenAfter_app (h1 h2 : list Message) :
  forall seen, seenAfter seen (h1 ++ h2) = seenAfter (seenAfter seen h1) h2.
Proof.
  induction h1 as [|m tl IH]; intros seen; cbn; [reflexivity|].
  destruct m; cbn; rewrite ?IH; reflexivity.
Qed.

Lemma seenAfter_keeps (h : list Message) :
  forall seen id, In id seen -> In id (seenAfter seen h).
Proof.
  induction h as [|m tl IH]; intros seen id H; cbn; [assumption|].
  destruct m; try (apply IH; assumption).
  apply IH. apply in_or_app. right. assumption.
Qed.

Lemma seenAfter_calls (cs : list ToolCall) :
  forall seen c, In c cs ->
    In (toolCallId c)
       (seenAfter seen (map (fun c => assistantMessage (ToolCallPart c)) cs)).
Proof.
  induction cs as [|c0 tl IH]; intros seen c H; [destruct H|].
  cbn. destruct H as [->|H].
  - apply seenAfter_keeps. cbn. left. reflexivity.
  - apply IH. assumption.
Qed.

Lemma noOrphan_free (h : list Message) :
  Forall (fun m => isToolMessage m = false) h ->
  forall seen, noOrphan seen h = true.
Proof.
  induction 1 as [|m tl Hm _ IH]; intros seen; cbn; [reflexivity|].
  destruct m; try apply IH. discriminate.
Qed.

Lemma noOrphan_results (cs : list ToolCall) (seen : list string) :
  (forall c, In c cs -> In (toolCallId c) seen) ->
  noOrphan seen (map resultOfCall cs) = true.
Proof.
  induction cs as [|c tl IH]; intros H; cbn; [reflexivity|].
  apply andb_true_intro. split.
  - apply Js.mem_In. apply H. left. reflexivity.
  - apply IH. intros c' Hc'. apply H. right. assumption.
Qed.

(** The history built from a snapshot without orphans has none. *)
Lemma noOrphan_history (snapshot texts errors : list Message)
  (calls : list ToolCall) :
  noOrphan [] snapshot = true ->
  Forall (fun m => isToolMessage m = false) texts ->
  Forall (fun m => isToolMessage m = false) errors ->
  noOrphan []
    (snapshot ++ texts
     ++ map (fun c => assistantMessage (ToolCallPart c)) calls
     ++ map resultOfCall calls ++ errors) = true.
Proof.
  intros Hs Ht He.
  rewrite noOrphan_app, Hs. cbn [andb].
  rewrite noOrphan_app, (noOrphan_free texts Ht). cbn [andb].
  rewrite noOrphan_app.
  rewrite (noOrphan_free (map (fun c => assistantMessage (ToolCallPart c)) calls)).
  - cbn [andb]. rewrite noOrphan_app, (noOrphan_free errors He), andb_true_r.
    apply noOrphan_results. intros c Hc. apply seenAfter_calls. assumption.
  - apply Forall_forall. intros m Hm. apply in_map_iff in Hm.
    destruct Hm as [c [<- _]]. reflexivity.
Qed.

(** *** The committed history *)

Lemma snapshot_kept (es : list Event) (history : list Message)
  (fullResponse : string) (items : list StreamItem) :
  messageHistoryBeforeStream (run es (initial history fullResponse items)) = history.
Proof.
  rewrite (g_snapshot _ _ (grows_run es (initial history fullResponse items))).
  reflexivity.
Qed.

(** When every execution has resolved, every dispatched call is recorded. *)
Lemma all_recorded (st : State) :
  Chain st -> allResolved st -> toolCalls st = map t_call (tasks st).
Proof.
  intros Hc Hall. destruct (ch_prefix st Hc) as [rest Hrest].
  destruct rest as [|c rest]; [rewrite Hrest, app_nil_r; reflexivity|].
  exfalso.
  assert (Hlen : List.length (toolCalls st) < List.length (tasks st)).
  { apply (f_equal (@List.length _)) in Hrest.
    rewrite length_map, length_app in Hrest. cbn in Hrest. lia. }
  destruct (nth_error (tasks st) (List.length (toolCalls st))) as [t|] eqn:Ht.
  - pose proof (ch_flags st Hc _ t Ht) as Hf.
    rewrite (Hall t (nth_error_In _ _ Ht)), Nat.ltb_irrefl in Hf. discriminate.
  - apply nth_error_None in Ht. lia.
Qed.

(** The history of a step that returned without abort. *)
Lemma committed_history (es : list Event) (history : list Message)
  (fullResponse : string) (items : list StreamItem) :
  let st := run es (initial history fullResponse items) in
  pc st = Committed -> aborted st = false ->
  allResolved st /\
  toolCallsToAddToMessageHistory st = map t_call (tasks st) /\
  toolResultsToAddToMessageHistory st = map resultOfCall (map t_call (tasks st)) /\
  messageHistory st =
    history ++ assistantMessages st
    ++ map (fun c => assistantMessage (ToolCallPart c)) (map t_call (tasks st))
    ++ map resultOfCall (map t_call (tasks st))
    ++ errorMessages st.
Proof.
  intros st Hpc Ha.
  destruct (invariant_reachable es history fullResponse items) as [Hch He Hc].
  fold st in Hch, He, Hc.
  destruct (ct_committed st Hc Hpc Ha) as [Hall Hh].
  pose proof (all_recorded st Hch Hall) as Hcalls.
  assert (H1 : toolCallsToAddToMessageHistory st = map t_call (tasks st))
    by (rewrite (ch_callsAdd st Hch); exact Hcalls).
  assert (H2 : toolResultsToAddToMessageHistory st
               = map resultOfCall (map t_call (tasks st)))
    by (rewrite (ch_resultsAdd st Hch), (ch_results st Hch), Hcalls; reflexivity).
  repeat split; try assumption.
  rewrite Hh. unfold historyFormula. rewrite H1, H2.
  unfold st. rewrite snapshot_kept. reflexivity.
Qed.

(** *** Dispatch order is stream order *)

Lemma acceptedCalls_app (l1 l2 : list StreamItem) :
  acceptedCalls (l1 ++ l2) = acceptedCalls l1 ++ acceptedCalls l2.
Proof. apply flat_map_app. Qed.

(** Steps that read nothing from the stream and dispatch nothing. *)
Lemma inStreamOrder_same (items : list StreamItem) (st st' : State) :
  (aborted st' = false -> aborted st = false) ->
  stream st' = stream st ->
  map nameAndInput (tasks st') = map nameAndInput (tasks st) ->
  (pc st' = Draining \/ pc st' = Committed ->
   aborted st' = false -> stream st = [] \/ pc st = Draining \/ pc st = Committed) ->
  InStreamOrder items st -> InStreamOrder items st'.
Proof.
  intros Ha Hs Ht Hp Hi Ha'. destruct (Hi (Ha Ha')) as [[consumed [Hc Hm]] Hend].
  split.
  - exists consumed. rewrite Hs, Ht. auto.
  - intros Hpc. rewrite Hs. destruct (Hp Hpc Ha') as [H|H]; auto.
Qed.

Lemma tasks_settleTask (k : nat) (st : State) :
  map nameAndInput (tasks (settleTask k st)) = map nameAndInput (tasks st).
Proof.
  unfold settleTask. destruct (nth_error (tasks st) k) as [t|]; [|reflexivity].
  destruct (negb (t_resolved t) && t_workDone t && resolved (t_previous t) st);
    [|reflexivity].
  cbn. apply update_map. reflexivity.
Qed.

Lemma tasks_settleFrom (n : nat) :
  forall k st,
    map nameAndInput (tasks (settleFrom n k st)) = map nameAndInput (tasks st).
Proof.
  induction n as [|n IH]; intros k st; cbn; [reflexivity|].
  rewrite IH. apply tasks_settleTask.
Qed.

Arguments settleAll : simpl never.

Lemma settleAll_control (st : State) :
  pc (settleAll st) = pc st /\ stream (settleAll st) = stream st /\
  aborted (settleAll st) = aborted st.
Proof.
  destruct (settleFrom_untouched (List.length (tasks st)) 0 st)
    as (Hp & Hs & _ & _ & Ha & _).
  repeat split; assumption.
Qed.

Lemma wake_control (st : State) :
  stream (wake st) = stream st /\ aborted (wake st) = aborted st /\
  (pc (wake st) = Draining \/ pc (wake st) = Committed ->
   pc st = Draining \/ pc st = Committed).
Proof.
  unfold wake. destruct (pc st) eqn:Hpc; try (repeat split; intros [H|H]; congruence).
  - destruct (resolved p st); repeat split; cbn; intros [H|H]; congruence.
  - destruct (resolved _ st); repeat split; auto.
  - repeat split; auto.
Qed.

Lemma inStreamOrder_wake (items : list StreamItem) (st : State) :
  InStreamOrder items st -> InStreamOrder items (wake st).
Proof.
  destruct (wake_control st) as (Hs & Ha & Hp).
  apply inStreamOrder_same.
  - rewrite Ha. auto.
  - exact Hs.
  - rewrite tasks_wake. reflexivity.
  - intros Hpc _. right. apply Hp. exact Hpc.
Qed.

Lemma inStreamOrder_afterLoop (items : list StreamItem) (st : State) :
  (aborted st = false -> stream st = []) ->
  InStreamOrder items st -> InStreamOrder items (afterLoop st).
Proof.
  intros Hend Hi. unfold afterLoop. destruct (aborted st) eqn:Ha.
  - intros Ha'. cbn in Ha'. congruence.
  - apply inStreamOrder_wake.
    destruct (settleAll_control (set_streamDone true st)) as (Hp & Hs & Hab).
    revert Hi. apply inStreamOrder_same; cbn.
    + rewrite Hab. auto.
    + exact Hs.
    + unfold settleAll. rewrite tasks_settleFrom. reflexivity.
    + intros _ _. left. apply Hend. reflexivity.
Qed.

Lemma inStreamOrder_dispatch (items : list StreamItem) (isXmlMode : bool)
  (name : string) (args : Input) (rest : list StreamItem) (st : State)
  (item : StreamItem) :
  item = StructuredToolCall name args \/ item = InlineToolCall name args ->
  stream st = item :: rest ->
  pc st = AwaitStream ->
  InStreamOrder items st ->
  forall p,
    p <> Draining -> p <> Committed ->
    InStreamOrder items
      (set_pc p (snd (onTagEnd name isXmlMode args (set_stream rest st)))).
Proof.
  intros Hitem Hst Hpc Hi p Hp1 Hp2 Ha'.
  destruct (onTagEnd_cases name isXmlMode args (set_stream rest st))
    as [Ha|m Ha Hr|Ha Hr]; cbn [snd] in *; cbn in Ha, Ha'.
  - congruence.
  - destruct (Hi Ha) as [[consumed [Hc Hm]] _]. split.
    + exists (consumed ++ [item]). cbn. split.
      * rewrite Hc, Hst, <- app_assoc. reflexivity.
      * rewrite acceptedCalls_app, <- Hm.
        destruct Hitem as [-> | ->]; cbn; rewrite Hr; cbn;
          rewrite app_nil_r; reflexivity.
    + cbn. intros [H|H]; congruence.
  - destruct (Hi Ha) as [[consumed [Hc Hm]] _]. split.
    + exists (consumed ++ [item]). cbn. split.
      * rewrite Hc, Hst, <- app_assoc. reflexivity.
      * rewrite acceptedCalls_app, map_app, <- Hm.
        destruct Hitem as [-> | ->]; cbn; rewrite Hr; cbn;
          unfold nameAndInput; cbn;
          destruct (effectiveCall name args); reflexivity.
    + cbn. intros [H|H]; congruence.
Qed.

Lemma inStreamOrder_skip (items : list StreamItem) (item : StreamItem)
  (rest : list StreamItem) (st st' : State) :
  acceptedCalls [item] = [] ->
  stream st = item :: rest -> stream st' = rest ->
  aborted st' = aborted st -> tasks st' = tasks st ->
  pc st' <> Draining -> pc st' <> Committed ->
  InStreamOrder items st -> InStreamOrder items st'.
Proof.
  intros Hacc Hst Hst' Hab Ht Hp1 Hp2 Hi Ha'. rewrite Hab in Ha'.
  destruct (Hi Ha') as [[consumed [Hc Hm]] _]. split.
  - exists (consumed ++ [item]). split.
    + rewrite Hc, Hst, Hst', <- app_assoc. reflexivity.
    + rewrite Ht, acceptedCalls_app, Hacc, app_nil_r. exact Hm.
  - intros [H|H]; congruence.
Qed.

Lemma inStreamOrder_step (items : list StreamItem) (e : Event) (st : State) :
  Control st -> InStreamOrder items st -> InStreamOrder items (step e st).
Proof.
  intros Hc Hi. destruct e; cbn [step].
  - intros Ha. cbn in Ha. discriminate.
  - apply inStreamOrder_wake.
    destruct (settleAll_control (set_tasks (update k markWorkDone (tasks st)) st))
      as (Hp & Hs & Hab).
    revert Hi. apply inStreamOrder_same.
    + rewrite Hab. auto.
    + exact Hs.
    + unfold settleAll. rewrite tasks_settleFrom. cbn.
      apply update_map. reflexivity.
    + rewrite Hp. cbn. auto.
  - destruct (pc st) eqn:Hpc; try exact Hi.
    + destruct (aborted st) eqn:Ha.
      * apply inStreamOrder_afterLoop; [congruence | exact Hi].
      * revert Hi. apply inStreamOrder_same; cbn; auto.
        intros [H|H]; discriminate.
    + revert Hi. apply inStreamOrder_same.
      * destruct chunk; cbn; auto.
      * destruct chunk; reflexivity.
      * destruct chunk; reflexivity.
      * cbn. intros [H|H]; discriminate.
  - destruct (pc st) eqn:Hpc; try exact Hi.
    unfold parserNext. destruct (stream st) as [|item rest] eqn:Hst.
    + apply inStreamOrder_afterLoop; [intros _; exact Hst|].
      revert Hi. apply inStreamOrder_same; cbn; auto.
    + destruct item.
      * revert Hi.
        apply (inStreamOrder_skip items (TextDelta text) rest); cbn;
          try reflexivity; try discriminate; try exact Hst.
        -- unfold parserOnResponseChunk. destruct (String.eqb text ""); reflexivity.
        -- unfold parserOnResponseChunk. destruct (String.eqb text ""); reflexivity.
        -- unfold parserOnResponseChunk. destruct (String.eqb text ""); reflexivity.
      * revert Hi.
        apply (inStreamOrder_skip items (ReasoningItem text) rest); cbn;
          try reflexivity; try discriminate; exact Hst.
      * revert Hi.
        apply (inStreamOrder_skip items (ErrorItem message) rest); cbn;
          try reflexivity; try discriminate; exact Hst.
      * apply (inStreamOrder_dispatch items false name args rest st
                 (StructuredToolCall name args)); auto; discriminate.
      * unfold executeXmlToolCall. cbn [aborted set_stream].
        destruct (aborted st) eqn:Ha.
        -- intros Ha'. cbn in Ha'. congruence.
        -- pose proof (inStreamOrder_dispatch items true name args rest st
                         (InlineToolCall name args) (or_intror eq_refl) Hst Hpc Hi)
             as Hd.
           destruct (onTagEnd name true args (set_stream rest st)) as [[p|] st1];
             cbn [snd] in Hd.
           ++ apply inStreamOrder_wake. apply Hd; discriminate.
           ++ apply Hd; discriminate.
  - destruct (pc st) eqn:Hpc; try exact Hi.
    destruct (aborted st) eqn:Ha; [|exact Hi].
    apply inStreamOrder_afterLoop; [cbn; congruence|].
    intros Ha'. cbn in Ha'. congruence.
Qed.

Lemma inStreamOrder_reachable (es : list Event) (history : list Message)
  (fullResponse : string) (items : list StreamItem) :
  InStreamOrder items (run es (initial history fullResponse items)).
Proof.
  assert (H : Invariant (run es (initial history fullResponse items)) /\
              InStreamOrder items (run es (initial history fullResponse items))).
  { apply (run_invariant (fun st => Invariant st /\ InStreamOrder items st)).
    - intros e st [Hinv Hi]. split.
      + apply invariant_step. exact Hinv.
      + apply inStreamOrder_step; [apply Hinv | exact Hi].
    - split; [apply invariant_initial|].
      intros _. split.
      + exists []. split; reflexivity.
      + cbn. intros [H|H]; discriminate. }
  apply H.
Qed.

(** *** The properties of a step *)

(** C1. When a step has returned without abort, the message history is the
    snapshot taken on entry, followed by the assistant text messages, by one
    assistant tool-call message for each recorded tool call, by the tool
    results in the same order, and by the user error messages. The recorded
    calls are the accepted tool calls of the stream in stream order; every
    dispatched execution had resolved before the rewrite; the i-th tool
    message carries the id of the i-th tool-call part; and a snapshot
    without orphan tool messages gives a history without any. *)
Theorem processStream_history_order (es : list Event) (history : list Message)
  (fullResponse : string) (items : list StreamItem) :
  let st := run es (initial history fullResponse items) in
  pc st = Committed -> aborted st = false ->
  let calls := map t_call (tasks st) in
  messageHistory st =
    history ++ assistantMessages st
    ++ map (fun c => assistantMessage (ToolCallPart c)) calls
    ++ map resultOfCall calls
    ++ errorMessages st /\
  Forall (fun m => exists text, m = AssistantMessage [TextPart text])
    (assistantMessages st) /\
  Forall (fun m => exists text, m = UserMessage [TextPart text])
    (errorMessages st) /\
  toolCallsToAddToMessageHistory st = calls /\
  toolResultsToAddToMessageHistory st = map resultOfCall calls /\
  map (fun c => (toolName c, input c)) calls = acceptedCalls items /\
  map toolMessageId (map resultOfCall calls)
    = map (fun c => Some (toolCallId c)) calls /\
  (forall t, In t (tasks st) -> t_resolved t = true) /\
  (noOrphan [] history = true -> noOrphan [] (messageHistory st) = true).
Proof.
  intros st Hpc Ha calls.
  destruct (committed_history es history fullResponse items Hpc Ha)
    as (Hall & Hcalls & Hresults & Hh).
  fold st in Hall, Hcalls, Hresults, Hh. fold calls in Hcalls, Hresults, Hh.
  assert (Htexts : Texts st).
  { apply texts_run. constructor. }
  assert (Herrors : Forall (fun m => exists text, m = UserMessage [TextPart text])
                      (errorMessages st)).
  { destruct (invariant_reachable es history fullResponse items) as [_ He _].
    fold st in He. rewrite (er_messages st He).
    apply Forall_forall. intros m Hm. apply in_map_iff in Hm.
    destruct Hm as [x [<- _]]. eexists. reflexivity. }
  split; [exact Hh|].
  split; [exact Htexts|].
  split; [exact Herrors|].
  split; [exact Hcalls|].
  split; [exact Hresults|].
  split.
  { destruct (inStreamOrder_reachable es history fullResponse items Ha)
      as [[consumed [Hc Hm]] Hend].
    fold st in Hc, Hm, Hend.
    rewrite (Hend (or_intror Hpc)), app_nil_r in Hc. subst consumed.
    unfold calls. rewrite map_map. exact Hm. }
  split; [rewrite map_map; reflexivity|].
  split; [exact Hall|].
  intros Hs. rewrite Hh. apply noOrphan_history; [exact Hs | |].
  - eapply Forall_impl; [|exact Htexts]. intros m [text ->]. reflexivity.
  - eapply Forall_impl; [|exact Herrors]. intros m [text ->]. reflexivity.
Qed.

(** C2. In every state a step can reach: each execution but the first
    awaits the promise of the execution dispatched just before it, and
    [previousToolCallFinished] is the promise of the last one; an accepted
    call is dispatched as a new execution that awaits the handle captured
    at that moment and whose promise replaces it; an execution that has
    recorded its effects had its awaited promise resolved and its handler
    returned; the recorded calls and results are the first [n] dispatched
    ones, in dispatch order, which without abort is the order of the
    accepted calls in the stream; and the caller has seen, for these calls
    in that order, the [tool_call] event followed by the [tool_result]
    event. *)
Theorem tool_effects_in_dispatch_order (es : list Event) (history : list Message)
  (fullResponse : string) (items : list StreamItem) :
  let st := run es (initial history fullResponse items) in
  (forall k t, nth_error (tasks st) (S k) = Some t ->
     t_previous t = ToolPromise k) /\
  (forall n, List.length (tasks st) = S n ->
     previousToolCallFinished st = ToolPromise n) /\
  (forall name isXmlMode args,
     aborted st = false -> refusal name args = None ->
     let st' := snd (onTagEnd name isXmlMode args st) in
     tasks st' = tasks st ++ [newTask name isXmlMode args st] /\
     t_previous (newTask name isXmlMode args st)
       = (if isXmlMode && isStreamDonePromise (previousToolCallFinished st)
          then ResolvedPromise else previousToolCallFinished st) /\
     previousToolCallFinished st' = ToolPromise (List.length (tasks st))) /\
  (forall k t, nth_error (tasks st) k = Some t -> t_resolved t = true ->
     resolved (t_previous t) st = true /\ t_workDone t = true) /\
  (exists n,
     toolCalls st = firstn n (map t_call (tasks st)) /\
     toolResults st = map resultOfCall (toolCalls st) /\
     forall k t, nth_error (tasks st) k = Some t ->
       t_resolved t = Nat.ltb k n) /\
  (aborted st = false ->
   exists consumed,
     items = consumed ++ stream st /\
     map nameAndInput (tasks st) = acceptedCalls consumed) /\
  filter isToolEvent (ui st) = flat_map eventsOfCall (toolCalls st).
Proof.
  intros st.
  destruct (invariant_reachable es history fullResponse items) as [Hch _ _].
  fold st in Hch.
  split; [exact (ch_next st Hch)|].
  split; [exact (ch_last_some st Hch)|].
  split.
  { intros name isXmlMode args Ha Hr. cbn zeta.
    rewrite (onTagEnd_accepted name isXmlMode args st Ha Hr). cbn.
    repeat split. }
  split.
  { intros k t Hk Hr. split; [|exact (ch_work st Hch k t Hk Hr)].
    destruct k as [|j].
    - destruct (ch_first st Hch t Hk) as [Hp|Hp]; rewrite Hp; cbn; [|reflexivity].
      apply (ch_origin st Hch t Hk Hr Hp).
    - rewrite (ch_next st Hch j t Hk). cbn.
      assert (Hj : j < List.length (tasks st)).
      { assert (S j < List.length (tasks st))
          by (apply nth_error_Some; congruence). lia. }
      destruct (nth_error (tasks st) j) as [tj|] eqn:Htj;
        [|apply nth_error_None in Htj; lia].
      rewrite (ch_flags st Hch j tj Htj).
      pose proof (ch_flags st Hch (S j) t Hk) as Hf. rewrite Hr in Hf.
      symmetry in Hf. apply Nat.ltb_lt in Hf. apply Nat.ltb_lt. lia. }
  split; [|split; [|exact (ch_ui st Hch)]].
  2: { intros Ha.
       apply (inStreamOrder_reachable es history fullResponse items Ha). }
  exists (List.length (toolCalls st)). split; [|split].
  - destruct (ch_prefix st Hch) as [rest Hrest].
    rewrite Hrest, firstn_app, Nat.sub_diag, firstn_all. cbn.
    rewrite app_nil_r. reflexivity.
  - exact (ch_results st Hch).
  - exact (ch_flags st Hch).
Qed.

(** C3. A call that the registry or the schema refuses emits one [error]
    event and nothing else, builds no execution and records nothing, sets
    [hadToolCallError] and appends the user notice; in every reachable
    state the user notices are those of the error events seen by the
    caller, one each and in order, and tool events and recorded calls stem
    from accepted calls only; and in the history of a step that returned
    without abort the notices come after all tool results. *)
Theorem refused_call_is_reported (es : list Event) (history : list Message)
  (fullResponse : string) (items : list StreamItem) :
  let st := run es (initial history fullResponse items) in
  (forall name isXmlMode args message,
     aborted st = false -> refusal name args = Some message ->
     let st' := snd (onTagEnd name isXmlMode args st) in
     ui st' = ui st ++ [ErrorEvent message] /\
     tasks st' = tasks st /\
     toolCalls st' = toolCalls st /\
     toolCallsToAddToMessageHistory st' = toolCallsToAddToMessageHistory st /\
     toolResults st' = toolResults st /\
     toolResultsToAddToMessageHistory st' = toolResultsToAddToMessageHistory st /\
     hadToolCallError st' = true /\
     errorMessages st' =
       errorMessages st
       ++ [UserMessage
             [TextPart
                (withSystemTags
                   ("Error during tool call: " ++ message
                    ++ ". Please check the tool name and arguments and try again."))]]) /\
  errorMessages st = map errorNotice (errorTexts (ui st)) /\
  (hadToolCallError st = true <-> errorTexts (ui st) <> []) /\
  filter isToolEvent (ui st) = flat_map eventsOfCall (toolCalls st) /\
  (exists rest, map t_call (tasks st) = toolCalls st ++ rest) /\
  (pc st = Committed -> aborted st = false ->
   messageHistory st =
     history ++ assistantMessages st
     ++ map (fun c => assistantMessage (ToolCallPart c))
          (toolCallsToAddToMessageHistory st)
     ++ toolResultsToAddToMessageHistory st
     ++ errorMessages st).
Proof.
  intros st.
  destruct (invariant_reachable es history fullResponse items) as [Hch He Hc].
  fold st in Hch, He, Hc.
  split.
  { intros name isXmlMode args message Ha Hr. cbn zeta.
    rewrite (onTagEnd_refused name isXmlMode args st message Ha Hr). cbn.
    repeat split. }
  split; [exact (er_messages st He)|].
  split.
  { rewrite (er_flag st He), (er_messages st He), length_map.
    destruct (errorTexts (ui st)); cbn; split; congruence. }
  split; [exact (ch_ui st Hch)|].
  split; [exact (ch_prefix st Hch)|].
  intros Hpc Ha.
  destruct (committed_history es history fullResponse items Hpc Ha)
    as (_ & Hcalls & Hresults & Hh).
  fold st in Hcalls, Hresults, Hh. rewrite Hcalls, Hresults. exact Hh.
Qed.

Lemma resolved_kept_settleTask (k j : nat) (t : Task) (st : State) :
  nth_error (tasks st) j = Some t -> t_resolved t = true ->
  exists t', nth_error (tasks (settleTask k st)) j = Some t' /\
             t_call t' = t_call t /\ t_resolved t' = true.
Proof.
  intros Hj Hr. unfold settleTask.
  destruct (nth_error (tasks st) k) as [tk|] eqn:Hk; [|eauto].
  destruct (negb (t_resolved tk) && t_workDone tk && resolved (t_previous tk) st);
    [|eauto].
  cbn. destruct (Nat.eq_dec j k) as [->|Hne].
  - rewrite update_nth_same, Hj. cbn. eauto.
  - rewrite update_nth_other by assumption. eauto.
Qed.

Lemma resolved_kept_settleFrom (n : nat) :
  forall k j t st,
    nth_error (tasks st) j = Some t -> t_resolved t = true ->
    exists t', nth_error (tasks (settleFrom n k st)) j = Some t' /\
               t_call t' = t_call t /\ t_resolved t' = true.
Proof.
  induction n as [|n IH]; intros k j t st Hj Hr; cbn; [eauto|].
  destruct (resolved_kept_settleTask k j t st Hj Hr) as [t1 [H1 [Hc1 Hr1]]].
  destruct (IH (S k) j t1 _ H1 Hr1) as [t2 [H2 [Hc2 Hr2]]].
  exists t2. repeat split; congruence.
Qed.








(** C6, as the code has it. Once the signal is aborted: [onTagEnd] and
    [executeXmlToolCall] return at once, leaving the state as it is, so
    that no id is assigned and no executor is called; whatever happens
    next, no execution is added and no id is handed out; the consumption
    loop exits the next time it is at its top (and the parser may end the
    stream), and the history is then rewritten, without waiting, from the
    snapshot and what is recorded at that moment. What was recorded before
    the abort stays recorded, in the same order; executions in flight may
    still add theirs until the rewrite. *)
Theorem abort_stops_dispatch (es : list Event) (history : list Message)
  (fullResponse : string) (items : list StreamItem) :
  let st := run es (initial history fullResponse items) in
  aborted st = true ->
  (forall name isXmlMode args, onTagEnd name isXmlMode args st = (None, st)) /\
  (forall name args, executeXmlToolCall name args st = (None, st)) /\
  (forall es',
     aborted (run es' st) = true /\
     map t_call (tasks (run es' st)) = map t_call (tasks st) /\
     idsIssued (run es' st) = idsIssued st) /\
  (forall e, (pc st = LoopTop /\ e = Tick) \/ (pc st = AwaitStream /\ e = ParserAborts) ->
     pc (step e st) = Committed /\
     messageHistory (step e st) =
       history ++ assistantMessages st
       ++ map (fun c => assistantMessage (ToolCallPart c))
            (toolCallsToAddToMessageHistory st)
       ++ toolResultsToAddToMessageHistory st
       ++ errorMessages st) /\
  (forall es', exists more,
     toolCallsToAddToMessageHistory (run es' st)
       = toolCallsToAddToMessageHistory st ++ more /\
     toolResultsToAddToMessageHistory (run es' st)
       = toolResultsToAddToMessageHistory st ++ map resultOfCall more).
Proof.
  intros st Ha.
  pose proof (snapshot_kept es history fullResponse items) as Hsnap.
  fold st in Hsnap.
  split; [intros; apply onTagEnd_aborted; exact Ha|].
  split; [intros; unfold executeXmlToolCall; rewrite Ha; reflexivity|].
  split.
  { intros es'. pose proof (grows_run es' st) as Hg.
    destruct (g_frozen _ _ Hg Ha) as [Ht Hi].
    split; [exact (g_aborted _ _ Hg Ha) | split; assumption]. }
  split.
  { intros e [[Hpc ->]|[Hpc ->]]; cbn [step]; rewrite Hpc, Ha;
      unfold afterLoop; cbn [aborted set_messageId]; rewrite Ha; cbn;
      rewrite Hsnap; split; reflexivity. }
  intros es'.
  destruct (invariant_reachable es history fullResponse items) as [Hch _ _].
  fold st in Hch.
  assert (Hch' : Chain (run es' st)) by (apply chain_run; exact Hch).
  destruct (g_calls _ _ (grows_run es' st)) as [more Hmore].
  exists more. split.
  - rewrite (ch_callsAdd _ Hch'), (ch_callsAdd _ Hch). exact Hmore.
  - rewrite (ch_resultsAdd _ Hch'), (ch_results _ Hch'), Hmore, map_app.
    rewrite (ch_resultsAdd _ Hch), (ch_results _ Hch). reflexivity.
Qed.

(** C7. An accepted inline call makes [onTagEnd] await the promise of the
    execution it has just built, while a structured call awaits nothing.
    As long as an inline execution has not resolved, the parser is held
    inside [executeXmlToolCall]: no item is delivered and the loop does not
    advance. Hence, whenever a step hands text to the caller, the
    [tool_result] event of every inline call dispatched so far has already
    been handed over. *)
Theorem inline_call_is_awaited (es : list Event) (history : list Message)
  (fullResponse : string) (items : list StreamItem) :
  let st := run es (initial history fullResponse items) in
  (forall name args,
     aborted st = false -> refusal name args = None ->
     fst (onTagEnd name true args st) = Some (ToolPromise (List.length (tasks st))) /\
     fst (onTagEnd name false args st) = None) /\
  (forall name args rest,
     pc st = AwaitStream -> aborted st = false -> refusal name args = None ->
     (stream st = InlineToolCall name args :: rest ->
      pc (step Deliver st) = AwaitInline (ToolPromise (List.length (tasks st)))) /\
     (stream st = StructuredToolCall name args :: rest ->
      pc (step Deliver st) = Yielded (ToolCallChunk name args) /\
      exists t, nth_error (tasks (step Deliver st)) (List.length (tasks st)) = Some t /\
                t_resolved t = false)) /\
  (forall k t,
     nth_error (tasks st) k = Some t -> t_inline t = true -> t_resolved t = false ->
     pc st = AwaitInline (ToolPromise k) /\
     step Deliver st = st /\ step Tick st = st /\ step ParserAborts st = st) /\
  (forall e x,
     In x (skipn (List.length (ui st)) (ui (step e st))) -> isText x = true ->
     forall k t,
       nth_error (tasks (step e st)) k = Some t -> t_inline t = true ->
       In (ToolResultEvent (toolCallId (t_call t)) (toolName (t_call t))
             (handlerOutput (t_call t))) (ui st)).
Proof.
  intros st.
  destruct (invariant_reachable es history fullResponse items) as [Hch _ Hc].
  fold st in Hch, Hc.
  split.
  { intros name args Ha Hr.
    rewrite !onTagEnd_accepted by assumption. split; reflexivity. }
  split.
  { intros name args rest Hpc Ha Hr. split; intros Hst; cbn [step];
      rewrite Hpc; unfold parserNext; rewrite Hst.
    - unfold executeXmlToolCall. cbn [aborted set_stream]. rewrite Ha.
      rewrite onTagEnd_accepted by assumption.
      unfold wake. cbn [pc set_pc resolved tasks set_tasks set_stream
        set_previousToolCallFinished set_idsIssued].
      rewrite nth_error_app2, Nat.sub_diag by lia. cbn. reflexivity.
    - rewrite onTagEnd_accepted by assumption. cbn.
      split; [reflexivity|].
      exists (newTask name false args (set_stream rest st)).
      rewrite nth_error_app2, Nat.sub_diag by lia. split; reflexivity. }
  split.
  { intros k t Hk Hi Hr.
    pose proof (ct_inline st Hc k t Hk Hi Hr) as Hpc.
    cbn [step]. rewrite Hpc. repeat split. }
  intros e x Hx Ht k t Hk Hi.
  destruct (g_ui _ _ (grows_step e st)) as [l Hl].
  rewrite Hl, skipn_app, skipn_all, Nat.sub_diag in Hx. cbn in Hx.
  destruct (text_needs_settled e st l Hc Hl) as [Htasks Hs]; [eauto|].
  rewrite Htasks in Hk.
  apply (resolved_is_recorded k t st Hch Hk). apply (Hs k t Hk Hi).
Qed.

(** *** The step against the stream it reads *)

Lemma sameLedger_refl (st : State) : sameLedger st st.
Proof. repeat split. Qed.

Lemma sameLedger_trans (a b c : State) :
  sameLedger a b -> sameLedger b c -> sameLedger a c.
Proof.
  intros (A1 & A2 & A3 & A4 & A5 & A6 & A7 & A8)
         (B1 & B2 & B3 & B4 & B5 & B6 & B7 & B8).
  repeat split; congruence.
Qed.

Lemma ledger_frame (fullResponse : string) (items : list StreamItem)
  (st st' : State) :
  sameLedger st st' ->
  pendingChunks (pc st') = pendingChunks (pc st) ->
  pendingText (pc st') = pendingText (pc st) ->
  (pc st' = AwaitStream -> pc st = AwaitStream) ->
  (pc st' = Draining \/ pc st' = Committed ->
   (messageId st = None -> aborted st = true) /\
   (aborted st = false -> stream st = [])) ->
  Ledger fullResponse items st -> Ledger fullResponse items st'.
Proof.
  intros (S1 & S2 & S3 & S4 & S5 & S6 & S7 & S8) Hp Ht Ha Hd
    [live late H1 H2 H3 H4 H5 H6 H7 H8 H9 H10 H11 H12].
  apply (mkLedger fullResponse items st' live late);
    rewrite ?S1, ?S2, ?S3, ?S4, ?S5, ?S6, ?S7, ?S8, ?Hp, ?Ht; auto.
  - intros Hpc. apply (proj1 (Hd Hpc)).
  - intros Hpc. apply (proj2 (Hd Hpc)).
Qed.

Lemma otherChunks_app (l1 l2 : list ResponseChunk) :
  otherChunks (l1 ++ l2) = otherChunks l1 ++ otherChunks l2.
Proof. apply filter_app. Qed.

Lemma sameLedger_settleTask (k : nat) (st : State) :
  sameLedger st (settleTask k st).
Proof.
  unfold settleTask. destruct (nth_error (tasks st) k) as [t|];
    [|apply sameLedger_refl].
  destruct (negb (t_resolved t) && t_workDone t && resolved (t_previous t) st);
    [|apply sameLedger_refl].
  repeat split; cbn.
  - rewrite !otherChunks_app. cbn. rewrite !app_nil_r. reflexivity.
  - apply update_map. reflexivity.
Qed.

Lemma sameLedger_settleFrom (n : nat) :
  forall k st, sameLedger st (settleFrom n k st).
Proof.
  induction n as [|n IH]; intros k st; cbn; [apply sameLedger_refl|].
  eapply sameLedger_trans; [apply sameLedger_settleTask | apply IH].
Qed.

Lemma sameLedger_settleAll (st : State) : sameLedger st (settleAll st).
Proof. apply sameLedger_settleFrom. Qed.

Lemma pc_settleAll (st : State) : pc (settleAll st) = pc st.
Proof. apply settleAll_control. Qed.

Lemma sameLedger_wake (st : State) : sameLedger st (wake st).
Proof.
  unfold wake. destruct (pc st); try apply sameLedger_refl.
  - destruct (resolved p st); [repeat split | apply sameLedger_refl].
  - destruct (resolved _ st); [repeat split | apply sameLedger_refl].
Qed.

(** The phase after [wake]: unchanged, or the top of the loop after an
    awaited inline call, or returned after the wait that follows the
    loop. *)
Lemma pc_wake (st : State) :
  pc (wake st) = pc st \/
  ((exists p, pc st = AwaitInline p) /\ pc (wake st) = LoopTop) \/
  (pc st = Draining /\ pc (wake st) = Committed).
Proof.
  unfold wake. destruct (pc st) eqn:Hpc; auto.
  - destruct (resolved p st); cbn; eauto.
  - destruct (resolved _ st); cbn; auto.
Qed.

Lemma ledger_wake (fullResponse : string) (items : list StreamItem)
  (st : State) :
  Ledger fullResponse items st -> Ledger fullResponse items (wake st).
Proof.
  intros H. pose proof H as [live late H1 H2 H3 H4 H5 H6 H7 H8 H9 H10 H11 H12].
  revert H. apply ledger_frame; [apply sameLedger_wake | | | |].
  - destruct (pc_wake st) as [->|[[[p Hp] ->]|[Hp ->]]];
      [reflexivity | rewrite Hp; reflexivity | rewrite Hp; reflexivity].
  - destruct (pc_wake st) as [->|[[[p Hp] ->]|[Hp ->]]];
      [reflexivity | rewrite Hp; reflexivity | rewrite Hp; reflexivity].
  - destruct (pc_wake st) as [->|[[[p Hp] ->]|[Hp ->]]]; auto; discriminate.
  - intros Hpc.
    assert (Hd : pc st = Draining \/ pc st = Committed).
    { destruct (pc_wake st) as [E|[[[p Hp] E]|[Hp E]]]; rewrite E in Hpc; auto.
      destruct Hpc; discriminate. }
    split; [apply H11 | apply H12]; exact Hd.
Qed.

Lemma ledger_afterLoop (fullResponse : string) (items : list StreamItem)
  (st : State) :
  pc st = LoopTop \/ pc st = AwaitStream ->
  (messageId st = None -> aborted st = true) ->
  (aborted st = false -> stream st = []) ->
  Ledger fullResponse items st -> Ledger fullResponse items (afterLoop st).
Proof.
  intros Hpc Hid Hend H. unfold afterLoop. destruct (aborted st) eqn:Ha.
  - revert H. apply ledger_frame; [repeat split | | | |]; cbn.
    + destruct Hpc as [-> | ->]; reflexivity.
    + destruct Hpc as [-> | ->]; reflexivity.
    + discriminate.
    + intros _. rewrite Ha. split; [reflexivity | discriminate].
  - apply ledger_wake. revert H. apply ledger_frame.
    + eapply sameLedger_trans;
        [|apply (sameLedger_trans _ (settleAll (set_streamDone true st)));
          [apply sameLedger_settleAll | repeat split]].
      repeat split.
    + cbn. destruct Hpc as [-> | ->]; reflexivity.
    + cbn. destruct Hpc as [-> | ->]; reflexivity.
    + cbn. discriminate.
    + intros _. rewrite Ha. split; assumption.
Qed.

Lemma callsFrom_app (l1 l2 : list StreamItem) :
  forall n,
    callsFrom n (l1 ++ l2) = callsFrom n l1 ++ callsFrom (n + toolCallCount l1) l2.
Proof.
  induction l1 as [|item tl IH]; intros n; cbn.
  - rewrite Nat.add_0_r. reflexivity.
  - unfold toolCallCount in *.
    destruct item; cbn; rewrite ?IH; try reflexivity;
      replace (n + S (List.length (filter isToolCallItem tl)))
        with (S n + List.length (filter isToolCallItem tl)) by lia;
      destruct (refusal name args); reflexivity.
Qed.

Lemma toolCallCount_app (l1 l2 : list StreamItem) :
  toolCallCount (l1 ++ l2) = toolCallCount l1 + toolCallCount l2.
Proof. unfold toolCallCount. rewrite filter_app, length_app. reflexivity. Qed.

Lemma textDeltas_app (l1 l2 : list StreamItem) :
  textDeltas (l1 ++ l2) = textDeltas l1 ++ textDeltas l2.
Proof. apply flat_map_app. Qed.

Lemma textMessages_app (l1 l2 : list StreamItem) :
  textMessages (l1 ++ l2) = textMessages l1 ++ textMessages l2.
Proof. apply flat_map_app. Qed.

(** One item is read from the stream. *)
Lemma ledger_consume (fullResponse : string) (items : list StreamItem)
  (item : StreamItem) (rest : list StreamItem) (st st' : State) :
  pc st = AwaitStream -> stream st = item :: rest ->
  stream st' = rest -> aborted st' = aborted st ->
  pc st' <> AwaitStream -> pc st' <> Draining -> pc st' <> Committed ->
  messageId st' = messageId st ->
  otherChunks (ui st') ++ pendingChunks (pc st')
    = otherChunks (ui st) ++ chunksOfItem (negb (aborted st)) item ->
  assistantMessages st' = assistantMessages st ++ textMessages [item] ->
  fullResponseChunks st' ++ pendingText (pc st')
    = fullResponseChunks st ++ textDeltas [item] ->
  idsIssued st'
    = idsIssued st + (if aborted st then 0 else toolCallCount [item]) ->
  map t_call (tasks st')
    = map t_call (tasks st)
      ++ (if aborted st then [] else callsFrom (idsIssued st) [item]) ->
  Ledger fullResponse items st -> Ledger fullResponse items st'.
Proof.
  intros Hpc Hst Hst' Hab Hp1 Hp2 Hp3 Hmid Hui Htx Hfr Hids Hcalls
    [live late H1 H2 H3 H4 H5 H6 H7 H8 H9 H10 H11 H12].
  specialize (H3 Hpc). subst late. rewrite Hpc in H5, H7. cbn in H5, H7.
  repeat rewrite app_nil_r in H5. repeat rewrite app_nil_r in H6.
  repeat rewrite app_nil_r in H7. cbn in H1.
  destruct (aborted st) eqn:Ha; cbn [negb] in Hui.
  - apply (mkLedger fullResponse items st' live [item]).
    + rewrite H1, Hst, Hst'. reflexivity.
    + rewrite Hab. discriminate.
    + intros E. contradiction.
    + cbn. lia.
    + rewrite Hui, H5. cbn. rewrite ?app_nil_r. reflexivity.
    + rewrite Htx, H6, textMessages_app. reflexivity.
    + rewrite Hfr, textDeltas_app, H7. reflexivity.
    + rewrite Hids, H8. lia.
    + rewrite Hcalls, app_nil_r. exact H9.
    + rewrite Hmid, Hst'. destruct H10 as [E|[E1 E2]]; [auto | congruence].
    + intros [E|E]; contradiction.
    + intros [E|E]; contradiction.
  - apply (mkLedger fullResponse items st' (live ++ [item]) []).
    + rewrite H1, Hst, Hst', <- app_assoc. reflexivity.
    + reflexivity.
    + reflexivity.
    + cbn. lia.
    + rewrite Hui, H5, flat_map_app. cbn. rewrite ?app_nil_r. reflexivity.
    + rewrite Htx, H6, app_nil_r, textMessages_app. reflexivity.
    + rewrite Hfr, app_nil_r, textDeltas_app, H7. reflexivity.
    + rewrite Hids, H8, toolCallCount_app. reflexivity.
    + rewrite Hcalls, H9, callsFrom_app, H8. reflexivity.
    + rewrite Hmid, Hst'. destruct H10 as [E|[E1 E2]]; [auto | congruence].
    + intros [E|E]; contradiction.
    + intros [E|E]; contradiction.
Qed.

Lemma ledger_dispatch (fullResponse : string) (items : list StreamItem)
  (isXmlMode : bool) (name : string) (args : Input) (rest : list StreamItem)
  (st : State) (item : StreamItem) :
  item = StructuredToolCall name args \/ item = InlineToolCall name args ->
  pc st = AwaitStream -> stream st = item :: rest ->
  Ledger fullResponse items st ->
  forall p,
    p <> AwaitStream -> p <> Draining -> p <> Committed ->
    pendingChunks p = [] -> pendingText p = [] ->
    Ledger fullResponse items
      (set_pc p (snd (onTagEnd name isXmlMode args (set_stream rest st)))).
Proof.
  intros Hitem Hpc Hst H p Hp1 Hp2 Hp3 Hq1 Hq2.
  revert H. apply (ledger_consume fullResponse items item rest); auto;
    destruct (onTagEnd_cases name isXmlMode args (set_stream rest st))
      as [Ha|m Ha Hr|Ha Hr]; cbn [snd]; cbn in Ha; cbn; rewrite ?Hq1, ?Hq2, ?Ha;
    cbn; rewrite ?app_nil_r; try reflexivity;
    destruct Hitem as [-> | ->]; cbn; rewrite ?Hr; cbn;
    rewrite ?otherChunks_app, ?map_app, ?app_nil_r; cbn;
    rewrite ?app_nil_r; try reflexivity; try lia.
Qed.

Lemma ledger_step (fullResponse : string) (items : list StreamItem)
  (e : Event) (st : State) :
  Ledger fullResponse items st -> Ledger fullResponse items (step e st).
Proof.
  intros H. pose proof H as [live late H1 H2 H3 H4 H5 H6 H7 H8 H9 H10 H11 H12].
  destruct e; cbn [step].
  - apply (mkLedger fullResponse items _ live late); cbn; auto; discriminate.
  - apply ledger_wake. revert H. apply ledger_frame.
    + eapply sameLedger_trans; [|apply sameLedger_settleAll].
      repeat split. cbn. apply update_map. reflexivity.
    + rewrite pc_settleAll. reflexivity.
    + rewrite pc_settleAll. reflexivity.
    + rewrite pc_settleAll. auto.
    + rewrite pc_settleAll. cbn. intros Hpc. split; [apply H11 | apply H12]; exact Hpc.
  - destruct (pc st) eqn:Hpc; try exact H.
    + destruct (aborted st) eqn:Ha.
      * apply ledger_afterLoop; auto; congruence.
      * apply (mkLedger fullResponse items _ live late); cbn; auto;
          try (intros _; apply H2; reflexivity);
          intros [E|E]; discriminate.
    + apply (mkLedger fullResponse items _ live late); cbn [pc set_pc].
      * destruct chunk; exact H1.
      * destruct chunk; exact H2.
      * discriminate.
      * exact H4.
      * rewrite <- H5. destruct chunk; cbn;
          rewrite ?otherChunks_app, ?app_nil_r; reflexivity.
      * destruct chunk; exact H6.
      * rewrite <- H7. destruct chunk; cbn; rewrite ?app_nil_r; reflexivity.
      * destruct chunk; exact H8.
      * destruct chunk; exact H9.
      * destruct chunk; exact H10.
      * intros [E|E]; discriminate.
      * intros [E|E]; discriminate.
  - destruct (pc st) eqn:Hpc; try exact H.
    unfold parserNext. destruct (stream st) as [|item rest] eqn:Hst.
    + apply ledger_afterLoop; cbn; auto; try discriminate.
      apply (mkLedger fullResponse items _ live late);
        cbn [stream aborted pc ui assistantMessages fullResponseChunks
             idsIssued tasks messageId set_messageId];
        rewrite ?Hpc, ?Hst; auto.
      intros [E|E]; discriminate.
    + destruct item.
      * revert H.
        apply (ledger_consume fullResponse items (TextDelta text) rest);
          auto; try discriminate;
          unfold parserOnResponseChunk; cbn;
          destruct (String.eqb text ""); cbn;
          rewrite ?otherChunks_app, ?app_nil_r, <- ?app_assoc;
          destruct (aborted st); cbn; rewrite ?app_nil_r;
          first [reflexivity | lia].
      * revert H.
        apply (ledger_consume fullResponse items (ReasoningItem text) rest);
          auto; try discriminate; cbn; rewrite ?app_nil_r;
          destruct (aborted st); cbn; rewrite ?app_nil_r;
          first [reflexivity | lia].
      * revert H.
        apply (ledger_consume fullResponse items (ErrorItem message) rest);
          auto; try discriminate; cbn; rewrite ?app_nil_r;
          destruct (aborted st); cbn; rewrite ?app_nil_r;
          first [reflexivity | lia].
      * apply (ledger_dispatch fullResponse items false name args rest st
                 (StructuredToolCall name args)); auto; discriminate.
      * unfold executeXmlToolCall. cbn [aborted set_stream].
        destruct (aborted st) eqn:Ha.
        -- revert H.
           apply (ledger_consume fullResponse items (InlineToolCall name args) rest);
             auto; try discriminate; cbn; rewrite ?Ha, ?app_nil_r; cbn;
             rewrite ?app_nil_r; first [reflexivity | lia].
        -- pose proof (ledger_dispatch fullResponse items true name args rest st
                         (InlineToolCall name args) (or_intror eq_refl) Hpc Hst H)
             as Hd.
           destruct (onTagEnd name true args (set_stream rest st)) as [[p|] st1];
             cbn [snd] in Hd.
           ++ apply ledger_wake. apply Hd; try discriminate; reflexivity.
           ++ apply Hd; try discriminate; reflexivity.
  - destruct (pc st) eqn:Hpc; try exact H.
    destruct (aborted st) eqn:Ha; [|exact H].
    apply ledger_afterLoop; cbn; auto; try congruence.
    apply (mkLedger fullResponse items _ live late);
      cbn [stream aborted pc ui assistantMessages fullResponseChunks
           idsIssued tasks messageId set_messageId];
      rewrite ?Hpc, ?Ha; auto.
Qed.

Lemma ledger_initial (history : list Message) (fullResponse : string)
  (items : list StreamItem) :
  Ledger fullResponse items (initial history fullResponse items).
Proof.
  apply (mkLedger fullResponse items _ [] []); cbn; auto.
  - intros [E|E]; discriminate.
  - intros [E|E]; discriminate.
Qed.

Lemma ledger_reachable (es : list Event) (history : list Message)
  (fullResponse : string) (items : list StreamItem) :
  Ledger fullResponse items (run es (initial history fullResponse items)).
Proof.
  apply run_invariant; [apply ledger_step | apply ledger_initial].
Qed.

(** *** The history of a step that has returned, aborted or not *)

Lemma returned_free (st : State) : pc st <> Committed -> Returned st.
Proof. intros H Hpc. contradiction. Qed.

Lemma returned_frame (st st' : State) :
  pc st' = pc st -> messageHistory st' = messageHistory st ->
  messageHistoryBeforeStream st' = messageHistoryBeforeStream st ->
  assistantMessages st' = assistantMessages st ->
  errorMessages st' = errorMessages st ->
  (exists l, toolCalls st' = toolCalls st ++ l) ->
  Returned st -> Returned st'.
Proof.
  intros Hp Hh Hs Ha He [l Hl] H Hpc. rewrite Hp in Hpc.
  destruct (H Hpc) as [n [Hn Hf]]. exists n.
  rewrite Hl, length_app, Hh, Hs, Ha, He, firstn_app.
  replace (n - List.length (toolCalls st)) with 0 by lia.
  cbn [firstn]. rewrite app_nil_r. split; [lia | exact Hf].
Qed.

Lemma returned_commit (st : State) : Chain st -> Returned (commit st).
Proof.
  intros Hc _. exists (List.length (toolCalls st)). cbn.
  split; [lia|]. rewrite firstn_all. unfold buildArray.
  rewrite (ch_callsAdd st Hc), (ch_resultsAdd st Hc), (ch_results st Hc).
  reflexivity.
Qed.

Lemma returned_wake (st : State) : Chain st -> Returned st -> Returned (wake st).
Proof.
  intros Hc H. unfold wake. destruct (pc st) eqn:Hpc; try exact H.
  - destruct (resolved p st); [|exact H].
    apply returned_free. cbn. discriminate.
  - destruct (resolved _ st); [|exact H].
    apply returned_commit. exact Hc.
Qed.

Lemma returned_settleAll (st : State) : Returned st -> Returned (settleAll st).
Proof.
  destruct (settleFrom_untouched (List.length (tasks st)) 0 st)
    as (Hp & _ & _ & _ & _ & Hh & Hs & Ha & He & _).
  apply returned_frame; try assumption.
  apply (g_calls _ _ (grows_settleFrom (List.length (tasks st)) 0 st)).
Qed.

Lemma returned_afterLoop (st : State) : Chain st -> Returned (afterLoop st).
Proof.
  intros Hc. unfold afterLoop. destruct (aborted st).
  - apply returned_commit. exact Hc.
  - apply returned_wake.
    + apply chain_set_pc, chain_settleAll, chain_streamDone. exact Hc.
    + apply returned_free. cbn. discriminate.
Qed.

Lemma returned_step (e : Event) (st : State) :
  Chain st -> Returned st -> Returned (step e st).
Proof.
  intros Hc H. destruct e; cbn [step].
  - revert H. apply returned_frame; try reflexivity.
    exists []. rewrite app_nil_r. reflexivity.
  - apply returned_wake; [apply chain_settleAll, chain_workDone; exact Hc|].
    apply returned_settleAll. revert H. apply returned_frame; try reflexivity.
    exists []. rewrite app_nil_r. reflexivity.
  - destruct (pc st) eqn:Hpc; try exact H.
    + destruct (aborted st); [apply returned_afterLoop; exact Hc|].
      apply returned_free. cbn. discriminate.
    + apply returned_free. cbn. discriminate.
  - destruct (pc st) eqn:Hpc; try exact H.
    unfold parserNext. destruct (stream st) as [|item rest].
    + apply returned_afterLoop. revert Hc. apply chain_frame. same_chain.
    + destruct item; try (apply returned_free; cbn; discriminate).
      destruct (executeXmlToolCall name args (set_stream rest st)) as [[p|] st1].
      * apply returned_free.
        destruct (pc_wake (set_pc (AwaitInline p) st1)) as [E|[[_ E]|[E _]]];
          [rewrite E | rewrite E | cbn in E]; cbn; discriminate.
      * apply returned_free. cbn. discriminate.
  - destruct (pc st) eqn:Hpc; try exact H.
    destruct (aborted st); [|exact H].
    apply returned_afterLoop. revert Hc. apply chain_frame. same_chain.
Qed.

Lemma returned_reachable (es : list Event) (history : list Message)
  (fullResponse : string) (items : list StreamItem) :
  Returned (run es (initial history fullResponse items)).
Proof.
  assert (H : Chain (run es (initial history fullResponse items)) /\
              Returned (run es (initial history fullResponse items))).
  { apply (run_invariant (fun st => Chain st /\ Returned st)).
    - intros e st [Hc Hr]. split; [apply chain_step | apply returned_step];
        assumption.
    - split; [apply chain_initial|]. apply returned_free. cbn. discriminate. }
  apply H.
Qed.

(** *** After the return *)

Lemma update_same {A : Type} (f : A -> A) (l : list A) :
  (forall x, In x l -> f x = x) -> forall k, update k f l = l.
Proof.
  induction l as [|x tl IH]; intros H [|k]; cbn; try reflexivity.
  - rewrite H by (left; reflexivity). reflexivity.
  - rewrite IH; [reflexivity|]. intros y Hy. apply H. right. exact Hy.
Qed.

(** Once every execution has resolved, the end of a handler changes
    nothing. *)
Lemma handlerDone_noop (k : nat) (st : State) :
  Chain st -> allResolved st ->
  settleAll (set_tasks (update k markWorkDone (tasks st)) st) = st.
Proof.
  intros Hc Hall.
  assert (Hu : update k markWorkDone (tasks st) = tasks st).
  { apply update_same. intros t Ht.
    pose proof (Hall t Ht) as Hr.
    apply In_nth_error in Ht. destruct Ht as [j Hj].
    pose proof (ch_work st Hc j t Hj Hr) as Hw.
    destruct t; cbn in *. subst. reflexivity. }
  rewrite Hu.
  assert (Hst : set_tasks (tasks st) st = st) by (destruct st; reflexivity).
  rewrite Hst. unfold settleAll. apply settleFrom_noop. exact Hall.
Qed.

(** A step of a state that has returned: the history stays; when every
    execution has resolved, only the signal can still change. *)
Lemma step_after_return (e : Event) (st : State) :
  pc st = Committed ->
  pc (step e st) = Committed /\
  messageHistory (step e st) = messageHistory st /\
  (Chain st -> allResolved st ->
   step e st = st \/ step e st = set_aborted true st).
Proof.
  intros Hpc. destruct e; cbn [step]; rewrite ?Hpc.
  - repeat split; try assumption. intros _ _. right. reflexivity.
  - assert (Hw : forall s, pc s = Committed -> wake s = s)
      by (intros s Hs; unfold wake; rewrite Hs; reflexivity).
    destruct (settleFrom_untouched
                (List.length (tasks (set_tasks (update k markWorkDone (tasks st)) st)))
                0 (set_tasks (update k markWorkDone (tasks st)) st))
      as (Hp & _ & _ & _ & _ & Hh & _).
    fold (settleAll (set_tasks (update k markWorkDone (tasks st)) st)) in Hp, Hh.
    cbn in Hp, Hh. rewrite Hw by congruence.
    split; [congruence|]. split; [exact Hh|].
    intros Hc Hall. left. apply handlerDone_noop; assumption.
  - repeat split; auto.
  - repeat split; auto.
  - repeat split; auto.
Qed.

(** *** Executions are only ever added *)

Lemma kept_same (st st' : State) :
  map shape (tasks st') = map shape (tasks st) -> Kept st st'.
Proof. intros H. exists []. rewrite app_nil_r. exact H. Qed.

Lemma kept_trans (a b c : State) : Kept a b -> Kept b c -> Kept a c.
Proof.
  intros [l1 H1] [l2 H2]. exists (l1 ++ l2).
  rewrite H2, H1, app_assoc. reflexivity.
Qed.

Lemma shape_settleTask (k : nat) (st : State) :
  map shape (tasks (settleTask k st)) = map shape (tasks st).
Proof.
  unfold settleTask. destruct (nth_error (tasks st) k) as [t|]; [|reflexivity].
  destruct (negb (t_resolved t) && t_workDone t && resolved (t_previous t) st);
    [|reflexivity].
  cbn. apply update_map. reflexivity.
Qed.

Lemma shape_settleFrom (n : nat) :
  forall k st, map shape (tasks (settleFrom n k st)) = map shape (tasks st).
Proof.
  induction n as [|n IH]; intros k st; cbn; [reflexivity|].
  rewrite IH. apply shape_settleTask.
Qed.

Lemma shape_settleAll (st : State) :
  map shape (tasks (settleAll st)) = map shape (tasks st).
Proof. apply shape_settleFrom. Qed.

Lemma shape_afterLoop (st : State) :
  map shape (tasks (afterLoop st)) = map shape (tasks st).
Proof.
  unfold afterLoop. destruct (aborted st); [reflexivity|].
  rewrite tasks_wake. cbn [tasks set_pc]. rewrite shape_settleAll. reflexivity.
Qed.

Lemma kept_onTagEnd (name : string) (isXmlMode : bool) (args : Input)
  (st : State) : Kept st (snd (onTagEnd name isXmlMode args st)).
Proof.
  destruct (onTagEnd_cases name isXmlMode args st) as [Ha|m Ha Hr|Ha Hr];
    cbn [snd]; try (apply kept_same; reflexivity).
  eexists. cbn. rewrite map_app. reflexivity.
Qed.

Lemma kept_step (e : Event) (st : State) : Kept st (step e st).
Proof.
  destruct e; cbn [step].
  - apply kept_same. reflexivity.
  - apply kept_same. rewrite tasks_wake, shape_settleAll. cbn.
    apply update_map. reflexivity.
  - destruct (pc st); try (apply kept_same; reflexivity).
    + destruct (aborted st); apply kept_same;
        [apply shape_afterLoop | reflexivity].
    + apply kept_same. destruct chunk; reflexivity.
  - destruct (pc st); try (apply kept_same; reflexivity).
    unfold parserNext. destruct (stream st) as [|item rest].
    + apply kept_same. rewrite shape_afterLoop. reflexivity.
    + destruct item; try (apply kept_same; reflexivity).
      * apply kept_same. cbn [tasks set_pc].
        rewrite (proj1 (parserOnResponseChunk_tasks _ _)). reflexivity.
      * apply (kept_onTagEnd name false args (set_stream rest st)).
      * unfold executeXmlToolCall. cbn [aborted set_stream].
        destruct (aborted st); [apply kept_same; reflexivity|].
        pose proof (kept_onTagEnd name true args (set_stream rest st)) as H.
        destruct (onTagEnd name true args (set_stream rest st)) as [[p|] st1];
          cbn [snd] in H; destruct H as [more H]; exists more;
          rewrite ?tasks_wake; exact H.
  - destruct (pc st); try (apply kept_same; reflexivity).
    destruct (aborted st); apply kept_same; [|reflexivity].
    rewrite shape_afterLoop. reflexivity.
Qed.

Lemma kept_run (es : list Event) : forall st, Kept st (run es st).
Proof.
  induction es as [|e es IH]; intros st; cbn;
    [apply kept_same; reflexivity|].
  eapply kept_trans; [apply kept_step | apply IH].
Qed.

Lemma kept_nth (st st' : State) (k : nat) (t : Task) :
  Kept st st' -> nth_error (tasks st) k = Some t ->
  exists t', nth_error (tasks st') k = Some t' /\ shape t' = shape t.
Proof.
  intros [more H] Hk.
  assert (Hs : nth_error (map shape (tasks st')) k = Some (shape t)).
  { rewrite H, nth_error_app1.
    - rewrite nth_error_map, Hk. reflexivity.
    - rewrite length_map. apply nth_error_Some. congruence. }
  rewrite nth_error_map in Hs.
  destruct (nth_error (tasks st') k) as [t'|]; [|discriminate].
  exists t'. split; [reflexivity|]. cbn in Hs. congruence.
Qed.

(** *** A structured call followed by an inline call *)

Lemma unblocked_open (st : State) : streamDone st = false -> Unblocked st.
Proof. intros H t0 _ _ Hs. congruence. Qed.

Lemma unblocked_frame (st st' : State) :
  map shape (tasks st') = map shape (tasks st) ->
  streamDone st' = streamDone st ->
  Unblocked st -> Unblocked st'.
Proof.
  intros Hm Hs H t0' H0 Hp Hd t' Ht'.
  assert (Hk : Kept st' st) by (apply kept_same; symmetry; exact Hm).
  destruct (kept_nth st' st 0 t0' Hk H0) as [t0 [H0' E0]].
  apply In_nth_error in Ht'. destruct Ht' as [k Hk'].
  destruct (kept_nth st' st k t' Hk Hk') as [t [Hk'' E]].
  unfold shape in E0, E.
  assert (Hi : t_inline t = false).
  { apply (H t0 H0'); [congruence | congruence |].
    apply (nth_error_In _ _ Hk''). }
  congruence.
Qed.

(** While the first execution awaits the open stream, no execution has
    resolved. *)
Lemma none_resolved (st : State) (t0 : Task) :
  Chain st -> nth_error (tasks st) 0 = Some t0 ->
  t_previous t0 = StreamDonePromise -> streamDone st = false ->
  toolCalls st = [] /\
  forall k t, nth_error (tasks st) k = Some t -> t_resolved t = false.
Proof.
  intros Hc H0 Hp Hs.
  assert (Hr : t_resolved t0 = false).
  { destruct (t_resolved t0) eqn:Hr; [|reflexivity].
    rewrite (ch_origin st Hc t0 H0 Hr Hp) in Hs. discriminate. }
  assert (Hl : toolCalls st = []).
  { pose proof (ch_flags st Hc 0 t0 H0) as Hf. rewrite Hr in Hf.
    destruct (toolCalls st); [reflexivity | discriminate]. }
  split; [exact Hl|].
  intros k t Hk. rewrite (ch_flags st Hc k t Hk), Hl. reflexivity.
Qed.

Lemma unblocked_afterLoop (st : State) :
  Chain st -> Control st -> pc st = LoopTop \/ pc st = AwaitStream ->
  Unblocked (afterLoop st).
Proof.
  intros Hc Hct Hpc.
  assert (Hs : streamDone st = false).
  { apply control_streamDone_false; [exact Hct | |];
      destruct Hpc as [E|E]; rewrite E; discriminate. }
  assert (Hin : inlineSettled st).
  { apply control_inlineSettled; [exact Hct|].
    intros p. destruct Hpc as [E|E]; rewrite E; discriminate. }
  unfold afterLoop. destruct (aborted st).
  - apply unblocked_open. exact Hs.
  - intros t0' H0 Hp _ t' Ht'.
    assert (Hk : Kept (wake (set_pc Draining (settleAll (set_streamDone true st)))) st).
    { apply kept_same. rewrite tasks_wake. cbn [tasks set_pc].
      rewrite shape_settleAll. reflexivity. }
    destruct (kept_nth _ st 0 t0' Hk H0) as [t0 [H0' E0]].
    apply In_nth_error in Ht'. destruct Ht' as [k Hk'].
    destruct (kept_nth _ st k t' Hk Hk') as [t [Hk'' E]].
    unfold shape in E0, E.
    destruct (none_resolved st t0 Hc H0' ltac:(congruence) Hs) as [_ Hnone].
    destruct (t_inline t) eqn:Hi; [|congruence].
    specialize (Hnone k t Hk''). rewrite (Hin k t Hk'' Hi) in Hnone.
    discriminate.
Qed.

Lemma streamDone_wake (st : State) : streamDone (wake st) = streamDone st.
Proof.
  unfold wake. destruct (pc st); try reflexivity.
  - destruct (resolved p st); reflexivity.
  - destruct (resolved _ st); reflexivity.
Qed.

Lemma streamDone_settleAll (st : State) :
  streamDone (settleAll st) = streamDone st.
Proof.
  destruct (settleFrom_untouched (List.length (tasks st)) 0 st)
    as (_ & _ & _ & H & _).
  exact H.
Qed.

Lemma unblocked_step (e : Event) (st : State) :
  Chain st -> Control st -> Unblocked st -> Unblocked (step e st).
Proof.
  intros Hc Hct H. destruct e; cbn [step].
  - revert H. apply unblocked_frame; reflexivity.
  - revert H. apply unblocked_frame.
    + rewrite tasks_wake, shape_settleAll. cbn. apply update_map. reflexivity.
    + rewrite streamDone_wake, streamDone_settleAll. reflexivity.
  - destruct (pc st) eqn:Hpc; try exact H.
    + destruct (aborted st).
      * apply unblocked_afterLoop; auto.
      * revert H. apply unblocked_frame; reflexivity.
    + revert H. apply unblocked_frame; destruct chunk; reflexivity.
  - destruct (pc st) eqn:Hpc; try exact H.
    assert (Hs : streamDone st = false)
      by (apply control_streamDone_false; [exact Hct | |];
          rewrite Hpc; discriminate).
    unfold parserNext. destruct (stream st) as [|item rest].
    + apply unblocked_afterLoop.
      * revert Hc. apply chain_frame. same_chain.
      * apply control_set_messageId; assumption.
      * right. exact Hpc.
    + apply unblocked_open. destruct item; cbn [streamDone set_pc].
      * rewrite (proj2 (parserOnResponseChunk_tasks _ _)). exact Hs.
      * exact Hs.
      * exact Hs.
      * rewrite onTagEnd_streamDone. exact Hs.
      * unfold executeXmlToolCall. cbn [aborted set_stream].
        destruct (aborted st); [exact Hs|].
        pose proof (onTagEnd_streamDone name true args (set_stream rest st)) as E.
        destruct (onTagEnd name true args (set_stream rest st)) as [[p|] st1];
          cbn [snd] in E; rewrite ?streamDone_wake; cbn [streamDone set_pc];
          rewrite E; exact Hs.
  - destruct (pc st) eqn:Hpc; try exact H.
    destruct (aborted st); [|exact H].
    apply unblocked_afterLoop.
    + revert Hc. apply chain_frame. same_chain.
    + apply control_set_messageId; [exact Hct|].
      apply control_streamDone_false; [exact Hct | |]; rewrite Hpc; discriminate.
    + right. exact Hpc.
Qed.

Lemma unblocked_reachable (es : list Event) (history : list Message)
  (fullResponse : string) (items : list StreamItem) :
  Unblocked (run es (initial history fullResponse items)).
Proof.
  assert (H : Invariant (run es (initial history fullResponse items)) /\
              Unblocked (run es (initial history fullResponse items))).
  { apply (run_invariant (fun st => Invariant st /\ Unblocked st)).
    - intros e st [Hinv Hu]. split; [apply invariant_step; exact Hinv|].
      apply unblocked_step; [apply Hinv | apply Hinv | exact Hu].
    - split; [apply invariant_initial|]. apply unblocked_open. reflexivity. }
  apply H.
Qed.

(** *** The ids of the executions *)

Lemma callsFrom_ids (items : list StreamItem) :
  forall n c, In c (callsFrom n items) ->
    exists j, n <= j /\ toolCallId c = generateCompactId j.
Proof.
  induction items as [|item rest IH]; intros n c H; [destruct H|].
  cbn in H. destruct item;
    try (destruct (IH n c H) as [j [Hj E]]; exists j; split; [lia | exact E]);
    destruct (refusal name args);
    try (destruct (IH (S n) c H) as [j [Hj E]]; exists j; split; [lia | exact E]);
    (destruct H as [<- | H];
     [exists n; split; [lia | reflexivity]
     | destruct (IH (S n) c H) as [j [Hj E]]; exists j; split; [lia | exact E]]).
Qed.

Lemma callsFrom_NoDup (items : list StreamItem) :
  (forall i j, generateCompactId i = generateCompactId j -> i = j) ->
  forall n, NoDup (map toolCallId (callsFrom n items)).
Proof.
  intros Hinj. induction items as [|item rest IH]; intros n; cbn;
    [constructor|].
  assert (Hnew : forall name args,
            NoDup (map toolCallId
                     (mkToolCall (generateCompactId n)
                        (fst (effectiveCall name args))
                        (snd (effectiveCall name args))
                      :: callsFrom (S n) rest))).
  { intros name args. cbn. constructor; [|apply IH].
    intros Hin. apply in_map_iff in Hin. destruct Hin as [c [E Hc]].
    destruct (callsFrom_ids rest (S n) c Hc) as [j [Hj Ej]].
    rewrite Ej in E. apply Hinj in E. lia. }
  destruct item; try apply IH; destruct (refusal name args);
    first [apply IH | apply Hnew].
Qed.

(** *** The errors of a stretch of the stream *)

Lemma errorTexts_otherChunks (l : list ResponseChunk) :
  errorTexts (otherChunks l) = errorTexts l.
Proof.
  unfold errorTexts, otherChunks.
  induction l as [|c tl IH]; [reflexivity|].
  destruct c; cbn; rewrite ?IH; reflexivity.
Qed.

(** *** What a step that returns without abort leaves *)

Lemma committed_outcome (es : list Event) (history : list Message)
  (fullResponse : string) (items : list StreamItem) :
  let st := run es (initial history fullResponse items) in
  pc st = Committed -> aborted st = false ->
  messageHistory st = expectedHistory history items /\
  result st = expectedResult fullResponse items /\
  otherChunks (ui st) = flat_map (chunksOfItem true) items.
Proof.
  intros st Hpc Ha.
  destruct (committed_history es history fullResponse items Hpc Ha)
    as (Hall & _ & _ & Hh).
  fold st in Hall, Hh.
  destruct (invariant_reachable es history fullResponse items) as [Hch He _].
  fold st in Hch, He.
  destruct (ledger_reachable es history fullResponse items)
    as [live late H1 H2 H3 H4 H5 H6 H7 H8 H9 H10 H11 H12].
  fold st in H1, H2, H3, H4, H5, H6, H7, H8, H9, H10, H11, H12.
  rewrite (H2 Ha) in *. rewrite (H12 (or_intror Hpc) Ha) in *.
  repeat rewrite app_nil_r in *. subst live.
  rewrite Hpc in H5, H7. cbn in H5, H7. repeat rewrite app_nil_r in *.
  assert (Herr : errorMessages st = map errorNotice (errorsOf items)).
  { rewrite (er_messages st He). unfold errorsOf.
    rewrite <- H5, errorTexts_otherChunks. reflexivity. }
  split; [|split].
  - rewrite Hh, H6, H9, Herr. reflexivity.
  - unfold result, expectedResult.
    rewrite H7, (er_flag st He), Herr, length_map.
    rewrite (all_recorded st Hch Hall), (ch_results st Hch),
      (all_recorded st Hch Hall), H9.
    destruct H10 as [E|[E _]].
    + rewrite (H11 (or_intror Hpc) E) in Ha. discriminate.
    + rewrite E. reflexivity.
  - exact H5.
Qed.

Lemma callsFrom_withoutReasoning (items : list StreamItem) :
  forall n, callsFrom n (withoutReasoning items) = callsFrom n items.
Proof.
  induction items as [|item rest IH]; intros n; [reflexivity|].
  destruct item; cbn; rewrite ?IH; reflexivity.
Qed.

Lemma textDeltas_withoutReasoning (items : list StreamItem) :
  textDeltas (withoutReasoning items) = textDeltas items.
Proof.
  unfold textDeltas, withoutReasoning. induction items as [|item rest IH]; [reflexivity|].
  destruct item; cbn; rewrite ?IH; reflexivity.
Qed.

Lemma textMessages_withoutReasoning (items : list StreamItem) :
  textMessages (withoutReasoning items) = textMessages items.
Proof.
  unfold textMessages, withoutReasoning. induction items as [|item rest IH]; [reflexivity|].
  destruct item; cbn; rewrite ?IH; reflexivity.
Qed.

Lemma errorsOf_withoutReasoning (items : list StreamItem) :
  errorsOf (withoutReasoning items) = errorsOf items.
Proof.
  unfold errorsOf, withoutReasoning.
  induction items as [|item rest IH]; [reflexivity|].
  destruct item; cbn [filter isReasoningItem negb flat_map];
    rewrite ?errorTexts_app, ?IH; reflexivity.
Qed.

(** *** Further properties of a step *)

Lemma append_empty (s : string) : (s ++ "")%string = s.
Proof. induction s as [|a s IH]; cbn; [reflexivity | rewrite IH; reflexivity]. Qed.

(** [chunks.join('')] of a list with a first element. *)
Lemma concat_cons (x : string) (l : list string) :
  String.concat "" (x :: l) = (x ++ String.concat "" l)%string.
Proof.
  destruct l as [|y l]; cbn [String.concat]; [rewrite append_empty|];
    reflexivity.
Qed.

(** The full response a step returns is the one it was given, followed by
    the text deltas read from the stream, empty ones included, in stream
    order: all of them when the step was not aborted, those read before
    the loop was left otherwise. *)
Theorem fullResponse_is_the_text_read (es : list Event)
  (history : list Message) (fullResponse : string) (items : list StreamItem) :
  let st := run es (initial history fullResponse items) in
  pc st = Committed ->
  exists read,
    items = read ++ stream st /\
    r_fullResponseChunks (result st) = fullResponse :: textDeltas read /\
    r_fullResponse (result st)
      = (fullResponse ++ String.concat "" (textDeltas read))%string /\
    (aborted st = false -> read = items).
Proof.
  intros st Hpc.
  destruct (ledger_reachable es history fullResponse items)
    as [live late H1 H2 H3 H4 H5 H6 H7 H8 H9 H10 H11 H12].
  fold st in H1, H2, H3, H4, H5, H6, H7, H8, H9, H10, H11, H12.
  rewrite Hpc in H7. cbn in H7. rewrite app_nil_r in H7.
  exists (live ++ late). split; [rewrite <- app_assoc; exact H1|].
  split; [exact H7|]. split.
  - cbn [result r_fullResponse]. rewrite H7. apply concat_cons.
  - intros Ha. rewrite H1, (H12 (or_intror Hpc) Ha), (H2 Ha), !app_nil_r.
    reflexivity.
Qed.

(** Tool events apart, the caller receives, for each item read and in
    stream order: a text delta as a text event and then as a plain string,
    a reasoning item as a reasoning delta, an error as an error event, and
    for a refused tool call the error event of the refusal; the last of
    them may still be held by the loop body. After the abort at most one
    more item is read, and a tool call in it is ignored. *)
Theorem caller_stream_follows_the_stream (es : list Event)
  (history : list Message) (fullResponse : string) (items : list StreamItem) :
  let st := run es (initial history fullResponse items) in
  exists live late,
    items = live ++ late ++ stream st /\
    (aborted st = false -> late = []) /\
    List.length late <= 1 /\
    otherChunks (ui st) ++ pendingChunks (pc st)
      = flat_map (chunksOfItem true) live
        ++ flat_map (chunksOfItem false) late /\
    (pc st = Committed -> aborted st = false ->
     otherChunks (ui st) = flat_map (chunksOfItem true) items).
Proof.
  intros st.
  destruct (ledger_reachable es history fullResponse items)
    as [live late H1 H2 H3 H4 H5 H6 H7 H8 H9 H10 H11 H12].
  fold st in H1, H2, H3, H4, H5, H6, H7, H8, H9, H10, H11, H12.
  exists live, late. repeat split; try assumption.
  intros Hpc Ha.
  apply (committed_outcome es history fullResponse items Hpc Ha).
Qed.

(** Every tool call read while the signal is clear draws one id, whether
    it is then accepted or refused, so that the executions carry the ids of
    their positions among the tool calls of the stream; when
    [generateCompactId] never repeats itself, no two executions, and no two
    recorded calls, share an id. *)
Theorem tool_call_ids_are_distinct (es : list Event)
  (history : list Message) (fullResponse : string) (items : list StreamItem) :
  (forall i j, generateCompactId i = generateCompactId j -> i = j) ->
  let st := run es (initial history fullResponse items) in
  (exists live rest,
     items = live ++ rest /\
     map t_call (tasks st) = callsFrom 0 live /\
     idsIssued st = toolCallCount live) /\
  NoDup (map toolCallId (map t_call (tasks st))) /\
  NoDup (map toolCallId (toolCalls st)).
Proof.
  intros Hinj st.
  destruct (ledger_reachable es history fullResponse items)
    as [live late H1 H2 H3 H4 H5 H6 H7 H8 H9 H10 H11 H12].
  fold st in H1, H2, H3, H4, H5, H6, H7, H8, H9, H10, H11, H12.
  destruct (invariant_reachable es history fullResponse items) as [Hch _ _].
  fold st in Hch.
  assert (Hnd : NoDup (map toolCallId (map t_call (tasks st))))
    by (rewrite H9; apply callsFrom_NoDup; exact Hinj).
  split; [exists live, (late ++ stream st); auto|].
  split; [exact Hnd|].
  destruct (ch_prefix st Hch) as [rest Hrest].
  rewrite Hrest, map_app in Hnd. apply NoDup_app_remove_r in Hnd. exact Hnd.
Qed.


Lemma run_cons (e : Event) (es : list Event) (st : State) :
  run (e :: es) st = run es (step e st).
Proof. reflexivity. Qed.

Lemma run_after_return (es' : list Event) :
  forall st, pc st = Committed ->
    pc (run es' st) = Committed /\
    messageHistory (run es' st) = messageHistory st.
Proof.
  induction es' as [|e es' IH]; intros st Hpc; [cbn; auto|].
  rewrite run_cons.
  destruct (step_after_return e st Hpc) as (H1 & H2 & _).
  destruct (IH (step e st) H1) as [H3 H4]. split; congruence.
Qed.

Lemma run_after_all_resolved (es' : list Event) :
  forall st, pc st = Committed -> Chain st -> allResolved st ->
    run es' st = st \/ run es' st = set_aborted true st.
Proof.
  induction es' as [|e es' IH]; intros st Hpc Hc Hall; [cbn; auto|].
  rewrite run_cons.
  destruct (step_after_return e st Hpc) as (_ & _ & H).
  destruct (H Hc Hall) as [E|E]; rewrite E; [apply IH; assumption|].
  destruct (IH (set_aborted true st)) as [E'|E']; auto.
  revert Hc. apply chain_frame. same_chain.
Qed.

(** Once a step has returned, nothing that happens later changes the
    message history. When it returned without abort, nothing changes at
    all but the signal: no handler is still running, the caller receives
    nothing more, and the returned arrays stay as they are. *)
Theorem returned_step_is_final (es es' : list Event)
  (history : list Message) (fullResponse : string) (items : list StreamItem) :
  let st := run es (initial history fullResponse items) in
  pc st = Committed ->
  pc (run es' st) = Committed /\
  messageHistory (run es' st) = messageHistory st /\
  (aborted st = false ->
   result (run es' st) = result st /\
   ui (run es' st) = ui st /\
   tasks (run es' st) = tasks st).
Proof.
  intros st Hpc.
  destruct (run_after_return es' st Hpc) as [H1 H2].
  split; [exact H1|]. split; [exact H2|]. intros Ha.
  destruct (invariant_reachable es history fullResponse items) as [Hch _ Hc].
  fold st in Hch, Hc.
  destruct (ct_committed st Hc Hpc Ha) as [Hall _].
  destruct (run_after_all_resolved es' st Hpc Hch Hall) as [E|E]; rewrite E;
    repeat split.
Qed.

Lemma pc_afterLoop (st : State) :
  pc (afterLoop st) = Draining \/ pc (afterLoop st) = Committed.
Proof.
  unfold afterLoop. destruct (aborted st); [right; reflexivity|].
  destruct (pc_wake (set_pc Draining (settleAll (set_streamDone true st))))
    as [E|[[[p Hp] _]|[_ E]]];
    [left; exact E | discriminate Hp | right; exact E].
Qed.

Lemma messageId_wake (st : State) : messageId (wake st) = messageId st.
Proof.
  unfold wake. destruct (pc st); try reflexivity.
  - destruct (resolved p st); reflexivity.
  - destruct (resolved _ st); reflexivity.
Qed.

Lemma messageId_settleAll (st : State) :
  messageId (settleAll st) = messageId st.
Proof.
  destruct (settleFrom_untouched (List.length (tasks st)) 0 st)
    as (_ & _ & H & _).
  exact H.
Qed.

Lemma unassigned_wake (st : State) : Unassigned st -> Unassigned (wake st).
Proof.
  intros H Hm. rewrite messageId_wake in Hm. specialize (H Hm).
  destruct (pc_wake st) as [E|[[[p Hp] _]|[_ E]]].
  - rewrite E. exact H.
  - destruct H as [H|H]; congruence.
  - right. exact E.
Qed.

Lemma unassigned_step (e : Event) (st : State) :
  Unassigned st -> Unassigned (step e st).
Proof.
  intros H. destruct e; cbn [step].
  - exact H.
  - apply unassigned_wake. intros Hm. rewrite messageId_settleAll in Hm.
    rewrite pc_settleAll. apply H. exact Hm.
  - destruct (pc st) eqn:Hpc; try exact H.
    + destruct (aborted st); [intros _; apply pc_afterLoop|].
      intros Hm. destruct (H Hm) as [E|E]; congruence.
    + intros Hm.
      assert (Hm' : messageId st <> None) by (destruct chunk; exact Hm).
      destruct (H Hm') as [E|E]; congruence.
  - destruct (pc st) eqn:Hpc; try exact H.
    unfold parserNext. destruct (stream st) as [|item rest];
      [intros _; apply pc_afterLoop|].
    assert (Hno : messageId st = None).
    { destruct (messageId st) eqn:Hm; [|reflexivity].
      destruct H as [E|E]; congruence. }
    intros Hm. exfalso. apply Hm.
    destruct item; cbn [messageId set_pc].
    + unfold parserOnResponseChunk. destruct (String.eqb text ""); exact Hno.
    + exact Hno.
    + exact Hno.
    + destruct (onTagEnd_cases name false args (set_stream rest st))
        as [Hab|m Hab Hr|Hab Hr]; exact Hno.
    + unfold executeXmlToolCall. destruct (aborted (set_stream rest st));
        [exact Hno|].
      destruct (onTagEnd_cases name true args (set_stream rest st))
        as [Hab|m Hab Hr|Hab Hr]; cbn iota; rewrite ?messageId_wake;
        exact Hno.
  - destruct (pc st) eqn:Hpc; try exact H.
    destruct (aborted st); [intros _; apply pc_afterLoop | exact H].
Qed.

Lemma unassigned_reachable (es : list Event) (history : list Message)
  (fullResponse : string) (items : list StreamItem) :
  Unassigned (run es (initial history fullResponse items)).
Proof.
  apply run_invariant; [apply unassigned_step|].
  intros Hm. exfalso. apply Hm. reflexivity.
Qed.

(** [messageId] is assigned only where the stream ends: as long as the
    step is in its loop it is null, and a step whose loop is left at the
    abort check returns null, whatever the stream would have returned at
    its end. *)
Theorem messageId_is_null_until_the_stream_ends (es : list Event)
  (history : list Message) (fullResponse : string) (items : list StreamItem) :
  let st := run es (initial history fullResponse items) in
  (pc st <> Draining -> pc st <> Committed -> messageId st = None) /\
  (pc st = LoopTop -> aborted st = true ->
   pc (step Tick st) = Committed /\
   r_messageId (result (step Tick st)) = None).
Proof.
  intros st.
  assert (Hin : pc st <> Draining -> pc st <> Committed -> messageId st = None).
  { intros H1 H2. destruct (messageId st) eqn:Hm; [|reflexivity].
    destruct (unassigned_reachable es history fullResponse items) as [E|E];
      fold st; [rewrite Hm; discriminate | contradiction | contradiction]. }
  split; [exact Hin|].
  intros Hpc Ha. cbn [step]. rewrite Hpc, Ha. unfold afterLoop. rewrite Ha.
  split; [reflexivity|].
  cbn [result r_messageId commit messageId set_pc set_messageHistory].
  apply Hin; rewrite Hpc; discriminate.
Qed.

Lemma reasoningDeltas_otherChunks (l : list ResponseChunk) :
  reasoningDeltas (otherChunks l) = reasoningDeltas l.
Proof.
  unfold reasoningDeltas, otherChunks.
  induction l as [|c tl IH]; [reflexivity|].
  destruct c; cbn; rewrite ?IH; reflexivity.
Qed.

Lemma reasoningDeltas_chunks (items : list StreamItem) :
  reasoningDeltas (flat_map (chunksOfItem true) items) = reasoningTexts items.
Proof.
  unfold reasoningDeltas, reasoningTexts.
  induction items as [|item rest IH]; [reflexivity|].
  cbn [flat_map]. rewrite flat_map_app, IH.
  destruct item; cbn; try reflexivity; destruct (refusal name args); reflexivity.
Qed.

(** Reasoning only passes through: in a step that returns without abort
    the caller receives each reasoning item once, as a reasoning delta and
    in stream order, and the history and the result are those of the same
    stream without its reasoning. *)
Theorem reasoning_leaves_no_trace (es es' : list Event)
  (history : list Message) (fullResponse : string) (items : list StreamItem) :
  let st := run es (initial history fullResponse items) in
  let st' := run es' (initial history fullResponse (withoutReasoning items)) in
  pc st = Committed -> aborted st = false ->
  pc st' = Committed -> aborted st' = false ->
  reasoningDeltas (ui st) = reasoningTexts items /\
  messageHistory st = messageHistory st' /\
  result st = result st'.
Proof.
  intros st st' Hpc Ha Hpc' Ha'.
  destruct (committed_outcome es history fullResponse items Hpc Ha)
    as (H1 & H2 & H3).
  destruct (committed_outcome es' history fullResponse (withoutReasoning items)
              Hpc' Ha') as (H1' & H2' & _).
  fold st in H1, H2, H3. fold st' in H1', H2'.
  split; [|split].
  - rewrite <- reasoningDeltas_otherChunks, H3. apply reasoningDeltas_chunks.
  - rewrite H1, H1'. unfold expectedHistory.
    rewrite textMessages_withoutReasoning, callsFrom_withoutReasoning,
      errorsOf_withoutReasoning. reflexivity.
  - rewrite H2, H2'. unfold expectedResult.
    rewrite textDeltas_withoutReasoning, callsFrom_withoutReasoning,
      errorsOf_withoutReasoning. reflexivity.
Qed.

(** When the first execution of a step awaits [streamDonePromise] (the
    first accepted call was structured) and a later execution is inline,
    the step never returns: the parser waits for the inline execution,
    which waits, through the chain, for the end of a stream that the parser
    no longer reads. Nothing is recorded and no tool event reaches the
    caller, whatever happens next. *)
Theorem inline_after_structured_never_returns (es es' : list Event)
  (history : list Message) (fullResponse : string) (items : list StreamItem)
  (t0 t : Task) (k : nat) :
  let st := run es (initial history fullResponse items) in
  nth_error (tasks st) 0 = Some t0 -> t_previous t0 = StreamDonePromise ->
  nth_error (tasks st) k = Some t -> t_inline t = true ->
  let st' := run es' st in
  pc st' = AwaitInline (ToolPromise k) /\
  pc st' <> Committed /\
  streamDone st' = false /\
  toolCalls st' = [] /\
  filter isToolEvent (ui st') = [].
Proof.
  intros st H0 Hp Hk Hi st'.
  assert (E : st' = run (es ++ es') (initial history fullResponse items))
    by (unfold st', st; rewrite run_app; reflexivity).
  destruct (invariant_reachable (es ++ es') history fullResponse items)
    as [Hch _ Hc].
  pose proof (unblocked_reachable (es ++ es') history fullResponse items) as Hu.
  rewrite <- E in Hch, Hc, Hu.
  destruct (kept_nth st st' 0 t0 (kept_run es' st) H0) as [t0' [H0' E0]].
  destruct (kept_nth st st' k t (kept_run es' st) Hk) as [t' [Hk' Ek]].
  unfold shape in E0, Ek.
  assert (Hp' : t_previous t0' = StreamDonePromise) by congruence.
  assert (Hi' : t_inline t' = true) by congruence.
  assert (Hs : streamDone st' = false).
  { destruct (streamDone st') eqn:Hs; [|reflexivity].
    rewrite (Hu t0' H0' Hp' Hs t' (nth_error_In _ _ Hk')) in Hi'.
    discriminate. }
  destruct (none_resolved st' t0' Hch H0' Hp' Hs) as [Hl Hnone].
  assert (Hpc : pc st' = AwaitInline (ToolPromise k))
    by (apply (ct_inline st' Hc k t' Hk' Hi'), (Hnone k t' Hk')).
  split; [exact Hpc|]. split; [rewrite Hpc; discriminate|].
  split; [exact Hs|]. split; [exact Hl|].
  rewrite (ch_ui st' Hch), Hl. reflexivity.
Qed.

(** Whenever a step has returned, aborted or not, its history is the
    snapshot, one assistant message for each text delta read that is not
    empty, the assistant tool-call messages of the calls recorded when the
    history was rewritten, their results in the same order, and the
    notices. Tool calls and results pair up by position, and a snapshot
    without orphan tool messages gives a history without any. *)
Theorem returned_history_is_paired (es : list Event)
  (history : list Message) (fullResponse : string) (items : list StreamItem) :
  let st := run es (initial history fullResponse items) in
  pc st = Committed ->
  exists read calls,
    items = read ++ stream st /\
    (exists rest, toolCalls st = calls ++ rest) /\
    messageHistory st =
      history ++ textMessages read
      ++ map (fun c => assistantMessage (ToolCallPart c)) calls
      ++ map resultOfCall calls
      ++ errorMessages st /\
    map toolMessageId (map resultOfCall calls)
      = map (fun c => Some (toolCallId c)) calls /\
    (noOrphan [] history = true -> noOrphan [] (messageHistory st) = true).
Proof.
  intros st Hpc.
  destruct (returned_reachable es history fullResponse items Hpc)
    as [n [Hn Hh]].
  fold st in Hn, Hh.
  destruct (ledger_reachable es history fullResponse items)
    as [live late H1 H2 H3 H4 H5 H6 H7 H8 H9 H10 H11 H12].
  fold st in H1, H2, H3, H4, H5, H6, H7, H8, H9, H10, H11, H12.
  destruct (invariant_reachable es history fullResponse items) as [_ He _].
  fold st in He.
  unfold st in Hh at 2. rewrite snapshot_kept in Hh. rewrite H6 in Hh.
  exists (live ++ late), (firstn n (toolCalls st)).
  split; [rewrite <- app_assoc; exact H1|].
  split; [exists (skipn n (toolCalls st)); symmetry; apply firstn_skipn|].
  split; [exact Hh|].
  split; [rewrite map_map; reflexivity|].
  intros Hs. rewrite Hh. apply noOrphan_history; [exact Hs | |].
  - unfold textMessages. apply Forall_forall. intros m Hm.
    apply in_flat_map in Hm. destruct Hm as [item [_ Hm]].
    destruct item; try destruct Hm.
    destruct (String.eqb text ""); [destruct Hm|].
    destruct Hm as [<- | []]. reflexivity.
  - rewrite (er_messages st He). apply Forall_forall. intros m Hm.
    apply in_map_iff in Hm. destruct Hm as [x [<- _]]. reflexivity.
Qed.

(** *** Tool events in the caller's stream *)

Lemma toolTail_refl (st : State) : ToolTail st st.
Proof. exists []. rewrite app_nil_r. split; [reflexivity | constructor]. Qed.

Lemma toolTail_trans (a b c : State) :
  ToolTail a b -> ToolTail b c -> ToolTail a c.
Proof.
  intros [l1 [H1 F1]] [l2 [H2 F2]]. exists (l1 ++ l2). split.
  - rewrite H2, H1, app_assoc. reflexivity.
  - apply Forall_app. split; assumption.
Qed.

Lemma toolTail_same (st st' : State) : ui st' = ui st -> ToolTail st st'.
Proof.
  intros H. exists []. rewrite app_nil_r. split; [assumption | constructor].
Qed.

Lemma toolTail_settleTask (k : nat) (st : State) : ToolTail st (settleTask k st).
Proof.
  unfold settleTask. destruct (nth_error (tasks st) k) as [t|];
    [|apply toolTail_refl].
  destruct (negb (t_resolved t) && t_workDone t && resolved (t_previous t) st);
    [|apply toolTail_refl].
  exists (eventsOfCall (t_call t)). split.
  - cbn. rewrite <- app_assoc. reflexivity.
  - repeat constructor.
Qed.

Lemma toolTail_settleFrom (n : nat) :
  forall k st, ToolTail st (settleFrom n k st).
Proof.
  induction n as [|n IH]; intros k st; cbn; [apply toolTail_refl|].
  eapply toolTail_trans; [apply toolTail_settleTask | apply IH].
Qed.

Lemma ui_wake (st : State) : ui (wake st) = ui st.
Proof.
  unfold wake. destruct (pc st); try reflexivity.
  - destruct (resolved p st); reflexivity.
  - destruct (resolved _ st); reflexivity.
Qed.

Lemma toolTail_afterLoop (st : State) : ToolTail st (afterLoop st).
Proof.
  unfold afterLoop. destruct (aborted st); [apply toolTail_same; reflexivity|].
  eapply toolTail_trans; [|apply toolTail_same; apply ui_wake].
  eapply toolTail_trans;
    [|apply (toolTail_same (settleAll (set_streamDone true st))); reflexivity].
  eapply toolTail_trans; [|apply toolTail_settleFrom].
  apply toolTail_same. reflexivity.
Qed.

(** Once [streamDonePromise] has resolved, the caller receives tool events
    only. *)
Lemma toolTail_step (e : Event) (st : State) :
  Control st -> streamDone (step e st) = true -> ToolTail st (step e st).
Proof.
  intros Hc Hs. destruct e; cbn [step] in *.
  - apply toolTail_same. reflexivity.
  - eapply toolTail_trans; [|apply toolTail_same; apply ui_wake].
    eapply toolTail_trans; [|apply toolTail_settleFrom].
    apply toolTail_same. reflexivity.
  - destruct (pc st) eqn:Hpc; try apply toolTail_refl.
    + destruct (aborted st); [apply toolTail_afterLoop|].
      apply toolTail_same. reflexivity.
    + exfalso.
      assert (Hd : streamDone st = true) by (destruct chunk; exact Hs).
      destruct (ct_streamDone st Hc Hd) as [[E|E] _]; congruence.
  - destruct (pc st) eqn:Hpc; try apply toolTail_refl.
    assert (Hd : streamDone st = false)
      by (apply control_streamDone_false; [exact Hc | |];
          rewrite Hpc; discriminate).
    unfold parserNext in *. destruct (stream st) as [|item rest].
    + eapply toolTail_trans; [|apply toolTail_afterLoop].
      apply toolTail_same. reflexivity.
    + exfalso. destruct item; cbn [streamDone set_pc] in Hs.
      * rewrite (proj2 (parserOnResponseChunk_tasks _ _)) in Hs.
        cbn in Hs. congruence.
      * cbn in Hs. congruence.
      * cbn in Hs. congruence.
      * rewrite onTagEnd_streamDone in Hs. cbn in Hs. congruence.
      * unfold executeXmlToolCall in Hs. cbn [aborted set_stream] in Hs.
        destruct (aborted st); [cbn in Hs; congruence|].
        pose proof (onTagEnd_streamDone name true args (set_stream rest st)) as E.
        destruct (onTagEnd name true args (set_stream rest st)) as [[p|] st1];
          cbn [snd] in E; rewrite ?streamDone_wake in Hs;
          cbn [streamDone set_pc] in Hs; rewrite E in Hs; cbn in Hs; congruence.
  - destruct (pc st) eqn:Hpc; try apply toolTail_refl.
    destruct (aborted st); [|apply toolTail_refl].
    eapply toolTail_trans; [|apply toolTail_afterLoop].
    apply toolTail_same. reflexivity.
Qed.

Lemma otherChunks_tools (l : list ResponseChunk) :
  Forall (fun c => isToolEvent c = true) l -> otherChunks l = [].
Proof.
  induction 1 as [|c l Hc _ IH]; [reflexivity|].
  unfold otherChunks in *. cbn. rewrite Hc. cbn. exact IH.
Qed.

Lemma filter_tools (l : list ResponseChunk) :
  Forall (fun c => isToolEvent c = true) l -> filter isToolEvent l = l.
Proof.
  induction 1 as [|c l Hc _ IH]; [reflexivity|].
  cbn. rewrite Hc, IH. reflexivity.
Qed.

Lemma otherChunks_only (l : list ResponseChunk) :
  filter isToolEvent l = [] -> otherChunks l = l.
Proof.
  unfold otherChunks. induction l as [|c l IH]; [reflexivity|].
  cbn. destruct (isToolEvent c); cbn; [discriminate|].
  intros H. rewrite (IH H). reflexivity.
Qed.

Lemma filter_otherChunks (l : list ResponseChunk) :
  filter isToolEvent (otherChunks l) = [].
Proof.
  unfold otherChunks. induction l as [|c l IH]; [reflexivity|].
  cbn. destruct (isToolEvent c) eqn:E; cbn; [exact IH|].
  rewrite E. exact IH.
Qed.

Lemma otherChunks_idem (l : list ResponseChunk) :
  otherChunks (otherChunks l) = otherChunks l.
Proof. apply otherChunks_only, filter_otherChunks. Qed.

Lemma eventsOfCall_tools (cs : list ToolCall) :
  Forall (fun c => isToolEvent c = true) (flat_map eventsOfCall cs).
Proof.
  induction cs as [|c cs IH]; [constructor|].
  cbn. constructor; [reflexivity|]. constructor; [reflexivity | exact IH].
Qed.

Lemma toolsLast_tail (st st' : State) :
  Chain st' -> ToolTail st st' -> ToolsLast st -> ToolsLast st'.
Proof.
  intros Hc [l [Hl Fl]] H. unfold ToolsLast in *.
  pose proof (ch_ui st' Hc) as Hu.
  assert (Ho : otherChunks (ui st') = otherChunks (ui st)).
  { rewrite Hl, otherChunks_app, (otherChunks_tools l Fl), app_nil_r.
    reflexivity. }
  assert (Hf : filter isToolEvent (ui st)
               = flat_map eventsOfCall (toolCalls st)).
  { rewrite H at 1. rewrite filter_app, filter_otherChunks. cbn [app].
    apply filter_tools, eventsOfCall_tools. }
  rewrite <- Hu, Ho, Hl, filter_app, (filter_tools l Fl), Hf, app_assoc, <- H.
  reflexivity.
Qed.

(** While the first execution, if any, awaits the open stream, no tool
    event has reached the caller. *)
Lemma toolsLast_open (st : State) :
  Chain st ->
  (forall t0, nth_error (tasks st) 0 = Some t0 ->
     t_previous t0 = StreamDonePromise) ->
  streamDone st = false ->
  toolCalls st = [] /\ ToolsLast st.
Proof.
  intros Hc H0 Hs.
  assert (Hl : toolCalls st = []).
  { destruct (nth_error (tasks st) 0) as [t0|] eqn:E.
    - apply (none_resolved st t0 Hc E (H0 t0 eq_refl) Hs).
    - destruct (ch_prefix st Hc) as [rest Hrest].
      destruct (tasks st); [|discriminate E].
      destruct (toolCalls st); [reflexivity | discriminate Hrest]. }
  split; [exact Hl|]. unfold ToolsLast.
  rewrite Hl. cbn. rewrite app_nil_r. symmetry. apply otherChunks_only.
  rewrite (ch_ui st Hc), Hl. reflexivity.
Qed.

(** The first execution stays the first. *)
Lemma first_kept (st st' : State) (t0' : Task) :
  Kept st st' -> nth_error (tasks st') 0 = Some t0' ->
  forall t0, nth_error (tasks st) 0 = Some t0 ->
    t_previous t0 = t_previous t0'.
Proof.
  intros Hk H0' t0 H0.
  destruct (kept_nth st st' 0 t0 Hk H0) as [t [Ht E]].
  rewrite H0' in Ht. injection Ht as <-. unfold shape in E. congruence.
Qed.

Lemma toolsLast_step (e : Event) (st : State) :
  Invariant st ->
  (FirstAwaitsStream st -> ToolsLast st) ->
  FirstAwaitsStream (step e st) -> ToolsLast (step e st).
Proof.
  intros Hinv IH H0'.
  pose proof (invariant_step e st Hinv) as [Hch' _ _].
  destruct (streamDone (step e st)) eqn:Hs.
  - apply (toolsLast_tail st); [exact Hch' | |].
    + apply toolTail_step; [apply Hinv | exact Hs].
    + apply IH. intros t0 H0.
      destruct (kept_nth st (step e st) 0 t0 (kept_step e st) H0)
        as [t0' [Ht0' E]].
      unfold shape in E. rewrite <- (H0' t0' Ht0'). congruence.
  - apply (toolsLast_open _ Hch' H0' Hs).
Qed.

Lemma toolsLast_reachable (es : list Event) (history : list Message)
  (fullResponse : string) (items : list StreamItem) :
  let st := run es (initial history fullResponse items) in
  FirstAwaitsStream st -> ToolsLast st.
Proof.
  cbn zeta.
  assert (H : Invariant (run es (initial history fullResponse items)) /\
              (FirstAwaitsStream (run es (initial history fullResponse items)) ->
               ToolsLast (run es (initial history fullResponse items)))).
  { apply (run_invariant
             (fun st => Invariant st /\ (FirstAwaitsStream st -> ToolsLast st))).
    - intros e st [Hinv IH]. split; [apply invariant_step; exact Hinv|].
      apply toolsLast_step; assumption.
    - split; [apply invariant_initial|]. intros _. reflexivity. }
  apply H.
Qed.

(** When the first execution of a step, if there is one, awaits
    [streamDonePromise], as it does when the tool calls of the stream are
    structured, no tool event reaches the caller while the stream is open:
    the caller first receives everything that is not a tool event, then,
    once the stream has ended, the [tool_call] and [tool_result] events of
    the recorded calls, call by call in dispatch order. *)
Theorem structured_calls_report_after_the_stream (es : list Event)
  (history : list Message) (fullResponse : string) (items : list StreamItem) :
  let st := run es (initial history fullResponse items) in
  (forall t0, nth_error (tasks st) 0 = Some t0 ->
     t_previous t0 = StreamDonePromise) ->
  ui st = otherChunks (ui st) ++ flat_map eventsOfCall (toolCalls st) /\
  (streamDone st = false -> toolCalls st = [] /\ ui st = otherChunks (ui st)) /\
  (toolCalls st <> [] -> stream st = [] /\ pendingChunks (pc st) = []).
Proof.
  intros st H0.
  pose proof (toolsLast_reachable es history fullResponse items H0) as Hl.
  destruct (invariant_reachable es history fullResponse items) as [Hch _ Hc].
  fold st in Hl, Hch, Hc.
  split; [exact Hl|]. split.
  - intros Hs. destruct (toolsLast_open st Hch H0 Hs) as [Hn Ht].
    split; [exact Hn|]. unfold ToolsLast in Ht. rewrite Hn in Ht.
    cbn in Ht. rewrite app_nil_r in Ht. exact Ht.
  - intros Hne. destruct (streamDone st) eqn:Hs.
    + destruct (ct_streamDone st Hc Hs) as [Hpc [Hst _]].
      split; [exact Hst|]. destruct Hpc as [E|E]; rewrite E; reflexivity.
    + destruct (toolsLast_open st Hch H0 Hs) as [Hn _]. contradiction.
Qed.

(** *** A step that returns aborted *)

Lemma ended_free (st : State) :
  pc st <> Draining -> pc st <> Committed -> Ended st.
Proof. intros H1 H2 [E|E]; contradiction. Qed.

Lemma ended_wake (st : State) : Ended st -> Ended (wake st).
Proof.
  intros H Hpc Ha.
  destruct (wake_control st) as (_ & Ea & Hp).
  rewrite streamDone_wake. rewrite Ea in Ha. apply H; auto.
Qed.

Lemma ended_afterLoop (st : State) : Ended (afterLoop st).
Proof.
  unfold afterLoop. destruct (aborted st) eqn:Ha.
  - intros _ Ha'. cbn in Ha'. congruence.
  - intros _ _. rewrite streamDone_wake. cbn [streamDone set_pc].
    rewrite streamDone_settleAll. reflexivity.
Qed.

Lemma ended_step (e : Event) (st : State) : Ended st -> Ended (step e st).
Proof.
  intros H. destruct e; cbn [step].
  - intros _ Ha. discriminate Ha.
  - apply ended_wake. intros Hpc Ha.
    rewrite pc_settleAll in Hpc.
    destruct (settleAll_control (set_tasks (update k markWorkDone (tasks st)) st))
      as (_ & _ & Ea).
    rewrite Ea in Ha. rewrite streamDone_settleAll. apply H; assumption.
  - destruct (pc st) eqn:Hpc; try exact H.
    + destruct (aborted st); [apply ended_afterLoop|].
      apply ended_free; cbn; discriminate.
    + apply ended_free; cbn; discriminate.
  - destruct (pc st) eqn:Hpc; try exact H.
    unfold parserNext. destruct (stream st) as [|item rest];
      [apply ended_afterLoop|].
    destruct item; try (apply ended_free; cbn; discriminate).
    destruct (executeXmlToolCall name args (set_stream rest st)) as [[p|] st1].
    + apply ended_wake. apply ended_free; cbn; discriminate.
    + apply ended_free; cbn; discriminate.
  - destruct (pc st) eqn:Hpc; try exact H.
    destruct (aborted st); [apply ended_afterLoop | exact H].
Qed.

Lemma ended_reachable (es : list Event) (history : list Message)
  (fullResponse : string) (items : list StreamItem) :
  Ended (run es (initial history fullResponse items)).
Proof.
  apply run_invariant; [apply ended_step|].
  apply ended_free; cbn; discriminate.
Qed.

Lemma streamDone_after_return (es' : list Event) :
  forall st, pc st = Committed ->
    streamDone (run es' st) = streamDone st.
Proof.
  induction es' as [|e es' IH]; intros st Hpc; [reflexivity|].
  rewrite run_cons.
  destruct (step_after_return e st Hpc) as (H1 & _ & _).
  rewrite (IH (step e st) H1).
  destruct e; cbn [step]; rewrite ?Hpc; try reflexivity.
  rewrite streamDone_wake, streamDone_settleAll. reflexivity.
Qed.

(** A step returns with [streamDonePromise] unresolved only if it was
    aborted, and the promise then stays unresolved. If the first execution
    of such a step awaits that promise, the executions dispatched before
    the abort are never recorded, whenever their handlers finish: their
    calls and results are neither in the returned arrays nor in the
    history, and the caller never receives their events. *)
Theorem aborted_step_drops_waiting_calls (es es' : list Event)
  (history : list Message) (fullResponse : string) (items : list StreamItem)
  (t0 : Task) :
  let st := run es (initial history fullResponse items) in
  pc st = Committed -> streamDone st = false ->
  nth_error (tasks st) 0 = Some t0 -> t_previous t0 = StreamDonePromise ->
  let st' := run es' st in
  aborted st = true /\
  streamDone st' = false /\
  toolCalls st' = [] /\ toolResults st' = [] /\
  filter isToolEvent (ui st') = [] /\
  Forall (fun m => isToolMessage m = false)
    (skipn (List.length history) (messageHistory st')).
Proof.
  intros st Hpc Hs H0 Hp st'.
  assert (E : st' = run (es ++ es') (initial history fullResponse items))
    by (unfold st', st; rewrite run_app; reflexivity).
  destruct (invariant_reachable (es ++ es') history fullResponse items)
    as [Hch He _].
  rewrite <- E in Hch, He.
  assert (Hs' : streamDone st' = false)
    by (unfold st'; rewrite streamDone_after_return; assumption).
  destruct (kept_nth st st' 0 t0 (kept_run es' st) H0) as [t0' [H0' E0]].
  unfold shape in E0.
  destruct (none_resolved st' t0' Hch H0' ltac:(congruence) Hs') as [Hl _].
  split.
  { destruct (aborted st) eqn:Ha; [reflexivity|].
    pose proof (ended_reachable es history fullResponse items
                  (or_intror Hpc) Ha) as Hd.
    fold st in Hd. congruence. }
  split; [exact Hs'|]. split; [exact Hl|].
  split; [rewrite (ch_results st' Hch), Hl; reflexivity|].
  split; [rewrite (ch_ui st' Hch), Hl; reflexivity|].
  destruct (run_after_return es' st Hpc) as [Hpc' Hh].
  fold st' in Hpc', Hh.
  destruct (returned_reachable (es ++ es') history fullResponse items)
    as [n [Hn Hf]]; [rewrite <- E; exact Hpc'|].
  rewrite <- E in Hn, Hf. rewrite Hl, firstn_nil in Hf. cbn [map app] in Hf.
  rewrite E in Hf at 2. rewrite snapshot_kept in Hf.
  rewrite Hf, skipn_app, skipn_all, Nat.sub_diag. cbn [skipn app].
  apply Forall_app. split.
  - pose proof (texts_run (es ++ es') (initial history fullResponse items)) as Ht.
    rewrite <- E in Ht. eapply Forall_impl; [|apply Ht; constructor].
    intros m [text ->]. reflexivity.
  - rewrite (er_messages st' He). apply Forall_forall. intros m Hm.
    apply in_map_iff in Hm. destruct Hm as [x [<- _]]. reflexivity.
Qed.

(** *** A step that returns *)

Lemma waiting_free (st : State) :
  pc st <> Draining -> (forall p, pc st <> AwaitInline p) -> Waiting st.
Proof.
  intros H1 H2. unfold Waiting. destruct (pc st); auto.
  - exfalso. apply (H2 p). reflexivity.
  - contradiction.
Qed.

Lemma waiting_wake (st : State) : Waiting (wake st).
Proof.
  unfold Waiting, wake. destruct (pc st) eqn:Hpc; rewrite ?Hpc; auto.
  - destruct (resolved p st) eqn:Hr; cbn; [exact I | rewrite Hpc; exact Hr].
  - destruct (resolved (previousToolCallFinished st) st) eqn:Hr; cbn;
      [exact I | rewrite Hpc; exact Hr].
Qed.

Lemma waiting_afterLoop (st : State) : Waiting (afterLoop st).
Proof.
  unfold afterLoop. destruct (aborted st); [|apply waiting_wake].
  apply waiting_free; cbn; [discriminate | intros p; discriminate].
Qed.

Lemma waiting_step (e : Event) (st : State) : Waiting st -> Waiting (step e st).
Proof.
  intros H. destruct e; cbn [step].
  - exact H.
  - apply waiting_wake.
  - destruct (pc st) eqn:Hpc; try exact H.
    + destruct (aborted st); [apply waiting_afterLoop|].
      apply waiting_free; cbn; [discriminate | intros p; discriminate].
    + apply waiting_free; cbn; [discriminate | intros p; discriminate].
  - destruct (pc st) eqn:Hpc; try exact H.
    unfold parserNext. destruct (stream st) as [|item rest];
      [apply waiting_afterLoop|].
    destruct item;
      try (apply waiting_free; cbn; [discriminate | intros p; discriminate]).
    destruct (executeXmlToolCall name args (set_stream rest st)) as [[p|] st1];
      [apply waiting_wake
      | apply waiting_free; cbn; [discriminate | intros p; discriminate]].
  - destruct (pc st) eqn:Hpc; try exact H.
    destruct (aborted st); [apply waiting_afterLoop | exact H].
Qed.

Lemma waiting_run (es : list Event) (st : State) :
  Waiting st -> Waiting (run es st).
Proof. apply run_invariant. apply waiting_step. Qed.

Lemma woken_trans (a b c : Phase) : woken a b -> woken b c -> woken a c.
Proof.
  intros [->|[[[p ->] ->]|[-> ->]]] H; [exact H | |].
  - destruct H as [->|[[[q Hq] _]|[Hq _]]]; try discriminate.
    right. left. eauto.
  - destruct H as [->|[[[q Hq] _]|[Hq _]]]; try discriminate.
    right. right. auto.
Qed.

(** One item that is no inline call is read, and the loop is at its top
    again. *)
Lemma read_item (item : StreamItem) (rest : list StreamItem) (st : State) :
  pc st = LoopTop -> aborted st = false -> stream st = item :: rest ->
  isInlineItem item = false ->
  pc (run [Tick; Deliver; Tick] st) = LoopTop /\
  aborted (run [Tick; Deliver; Tick] st) = false /\
  stream (run [Tick; Deliver; Tick] st) = rest.
Proof.
  intros Hpc Ha Hst Hi.
  assert (E1 : step Tick st = set_pc AwaitStream st)
    by (cbn [step]; rewrite Hpc, Ha; reflexivity).
  assert (E2 : step Deliver (set_pc AwaitStream st)
               = parserNext (set_pc AwaitStream st)) by reflexivity.
  rewrite !run_cons, E1, E2. unfold parserNext. cbn [stream set_pc].
  rewrite Hst. destruct item; try discriminate Hi.
  - unfold parserOnResponseChunk. destruct (String.eqb text "");
      cbn; repeat split; assumption.
  - cbn. repeat split; assumption.
  - cbn. repeat split; assumption.
  - destruct (onTagEnd_cases name false args (set_stream rest (set_pc AwaitStream st)))
      as [Hab|m Hab Hr|Hab Hr]; cbn; repeat split; assumption.
Qed.

Lemma read_items (items : list StreamItem) :
  forall st,
    pc st = LoopTop -> aborted st = false -> stream st = items ->
    Forall (fun item => isInlineItem item = false) items ->
    let st' := run (flat_map (fun _ => [Tick; Deliver; Tick]) items) st in
    pc st' = LoopTop /\ aborted st' = false /\ stream st' = [].
Proof.
  induction items as [|item rest IH]; intros st Hpc Ha Hst Hall; cbn zeta.
  - cbn. auto.
  - inversion Hall as [|x l Hi Hrest]; subst x l.
    cbn [flat_map]. rewrite run_app.
    destruct (read_item item rest st Hpc Ha Hst Hi) as (H1 & H2 & H3).
    apply IH; assumption.
Qed.

Lemma read_end (st : State) :
  pc st = LoopTop -> aborted st = false -> stream st = [] ->
  let st' := run [Tick; Deliver] st in
  streamDone st' = true /\ aborted st' = false /\
  (pc st' = Draining \/ pc st' = Committed).
Proof.
  intros Hpc Ha Hst. cbn zeta.
  assert (E1 : step Tick st = set_pc AwaitStream st)
    by (cbn [step]; rewrite Hpc, Ha; reflexivity).
  rewrite !run_cons, E1. cbn [run fold_left step pc set_pc].
  unfold parserNext. cbn [stream set_pc]. rewrite Hst.
  unfold afterLoop. cbn [aborted set_messageId set_pc]. rewrite Ha.
  set (s := set_pc Draining _).
  split; [|split].
  - rewrite streamDone_wake. unfold s. cbn [streamDone set_pc].
    rewrite streamDone_settleAll. reflexivity.
  - destruct (wake_control s) as (_ & E & _). rewrite E. unfold s.
    cbn [aborted set_pc].
    destruct (settleAll_control
                (set_streamDone true
                   (set_messageId (Some providerMessageId) (set_pc AwaitStream st))))
      as (_ & _ & E'). rewrite E'. exact Ha.
  - destruct (pc_wake s) as [E|[[[p Hp] _]|[_ E]]];
      [left; rewrite E; reflexivity | discriminate Hp | right; exact E].
Qed.

Lemma settleTask_resolved (k : nat) (t : Task) (st : State) :
  nth_error (tasks st) k = Some t -> t_resolved t = true ->
  settleTask k st = st.
Proof. intros Hk Hr. unfold settleTask. rewrite Hk, Hr. reflexivity. Qed.

(** An execution that is ready resolves in the pass over the executions,
    when those before it have resolved. *)
Lemma settleFrom_resolves (n : nat) :
  forall j st k t,
    j <= k < j + n ->
    (forall i ti, j <= i < k -> nth_error (tasks st) i = Some ti ->
       t_resolved ti = true) ->
    nth_error (tasks st) k = Some t -> t_workDone t = true ->
    resolved (t_previous t) st = true ->
    exists t', nth_error (tasks (settleFrom n j st)) k = Some t' /\
               t_resolved t' = true.
Proof.
  induction n as [|n IH]; intros j st k t Hjk Hbefore Hk Hw Hp; [lia|].
  cbn [settleFrom]. destruct (Nat.eq_dec j k) as [->|Hne].
  - assert (H1 : exists t1, nth_error (tasks (settleTask k st)) k = Some t1 /\
                            t_resolved t1 = true).
    { destruct (t_resolved t) eqn:Hr.
      - rewrite (settleTask_resolved k t st Hk Hr). eauto.
      - unfold settleTask. rewrite Hk, Hr, Hw, Hp. cbn [negb andb].
        exists (markResolved t). split; [|reflexivity].
        cbn. rewrite update_nth_same, Hk. reflexivity. }
    destruct H1 as [t1 [Ht1 Hr1]].
    destruct (resolved_kept_settleFrom n (S k) k t1 _ Ht1 Hr1) as [t2 [Ht2 [_ Hr2]]].
    eauto.
  - assert (Hj : exists tj, nth_error (tasks st) j = Some tj).
    { destruct (nth_error (tasks st) j) as [tj|] eqn:E; [eauto|].
      apply nth_error_None in E.
      assert (k < List.length (tasks st)) by (apply nth_error_Some; congruence).
      lia. }
    destruct Hj as [tj Htj].
    rewrite (settleTask_resolved j tj st Htj (Hbefore j tj ltac:(lia) Htj)).
    apply (IH (S j) st k t); try assumption; [lia|].
    intros i ti Hi. apply Hbefore. lia.
Qed.

Lemma streamDone_handlerDone (k : nat) (st : State) :
  streamDone (step (HandlerDone k) st) = streamDone st.
Proof. cbn [step]. rewrite streamDone_wake, streamDone_settleAll. reflexivity. Qed.

Lemma previousToolCallFinished_wake (st : State) :
  previousToolCallFinished (wake st) = previousToolCallFinished st.
Proof.
  unfold wake. destruct (pc st); try reflexivity.
  - destruct (resolved p st); reflexivity.
  - destruct (resolved _ st); reflexivity.
Qed.

Lemma shape_handlerDone (k : nat) (st : State) :
  map shape (tasks (step (HandlerDone k) st)) = map shape (tasks st).
Proof.
  cbn [step]. rewrite tasks_wake, shape_settleAll. cbn.
  apply update_map. reflexivity.
Qed.

(** The end of a handler changes neither the stream nor the signal nor
    the chain; it can only let a waiting continuation go on. *)
Lemma handlerDone_frame (k : nat) (st : State) :
  let st' := step (HandlerDone k) st in
  stream st' = stream st /\ aborted st' = aborted st /\
  previousToolCallFinished st' = previousToolCallFinished st /\
  List.length (tasks st') = List.length (tasks st) /\
  woken (pc st) (pc st').
Proof.
  cbn zeta.
  split; [|split; [|split; [|split]]].
  - cbn [step].
    destruct (wake_control (settleAll (set_tasks (update k markWorkDone (tasks st)) st)))
      as (E & _ & _).
    destruct (settleAll_control (set_tasks (update k markWorkDone (tasks st)) st))
      as (_ & E' & _).
    rewrite E, E'. reflexivity.
  - cbn [step].
    destruct (wake_control (settleAll (set_tasks (update k markWorkDone (tasks st)) st)))
      as (_ & E & _).
    destruct (settleAll_control (set_tasks (update k markWorkDone (tasks st)) st))
      as (_ & _ & E').
    rewrite E, E'. reflexivity.
  - cbn [step]. rewrite previousToolCallFinished_wake.
    destruct (settleFrom_untouched
                (List.length (tasks (set_tasks (update k markWorkDone (tasks st)) st)))
                0 (set_tasks (update k markWorkDone (tasks st)) st))
      as (_ & _ & _ & _ & _ & _ & _ & _ & _ & _ & _ & E & _).
    exact E.
  - rewrite <- (length_map shape), shape_handlerDone, length_map. reflexivity.
  - cbn [step].
    set (s := settleAll (set_tasks (update k markWorkDone (tasks st)) st)).
    assert (Hs : pc s = pc st) by (unfold s; rewrite pc_settleAll; reflexivity).
    unfold woken. rewrite <- Hs. apply pc_wake.
Qed.

Lemma firstReady_done (st : State) :
  Chain st -> streamDone st = true -> FirstReady st.
Proof.
  intros Hc Hs t0 H0.
  destruct (ch_first st Hc t0 H0) as [E|E]; rewrite E; cbn;
    [exact Hs | reflexivity].
Qed.

Lemma firstReady_handlerDone (k : nat) (st : State) :
  Chain st -> FirstReady st -> FirstReady (step (HandlerDone k) st).
Proof.
  intros Hc Hf t0' H0'.
  assert (Hm : nth_error (map shape (tasks (step (HandlerDone k) st))) 0
               = Some (shape t0'))
    by (rewrite nth_error_map, H0'; reflexivity).
  rewrite shape_handlerDone, nth_error_map in Hm.
  destruct (nth_error (tasks st) 0) as [t0|] eqn:H0; [|discriminate].
  cbn in Hm. assert (Ep : t_previous t0' = t_previous t0)
    by (unfold shape in Hm; congruence).
  specialize (Hf t0 H0). rewrite Ep.
  destruct (ch_first st Hc t0 H0) as [E|E]; rewrite E in *; cbn in *;
    [rewrite streamDone_wake, streamDone_settleAll; exact Hf | reflexivity].
Qed.

(** When the promise the first execution awaits has resolved and the
    executions before the [k]-th have resolved, the end of the [k]-th
    handler resolves the [k]-th. *)
Lemma handlerDone_resolves (k : nat) (st : State) :
  Chain st -> FirstReady st ->
  (forall i ti, i < k -> nth_error (tasks st) i = Some ti ->
     t_resolved ti = true) ->
  forall i ti, i < S k ->
    nth_error (tasks (step (HandlerDone k) st)) i = Some ti ->
    t_resolved ti = true.
Proof.
  intros Hc Hs Hbefore i ti Hi Hti. cbn [step] in Hti.
  rewrite tasks_wake in Hti.
  set (x := set_tasks (update k markWorkDone (tasks st)) st) in *.
  assert (Hx : forall j tj, j < k -> nth_error (tasks x) j = Some tj ->
                 t_resolved tj = true).
  { intros j tj Hj Htj. unfold x in Htj. cbn in Htj.
    rewrite update_nth_other in Htj by lia. apply (Hbefore j tj Hj Htj). }
  assert (Hex : exists tx, nth_error (tasks x) i = Some tx).
  { assert (Hm : nth_error (map shape (tasks (settleAll x))) i = Some (shape ti))
      by (rewrite nth_error_map, Hti; reflexivity).
    rewrite shape_settleAll, nth_error_map in Hm.
    destruct (nth_error (tasks x) i) as [tx|]; [eauto | discriminate]. }
  destruct Hex as [tx Htx].
  assert (Hgoal : exists t', nth_error (tasks (settleAll x)) i = Some t' /\
                             t_resolved t' = true).
  { destruct (Nat.eq_dec i k) as [->|Hne].
    - unfold settleAll.
      apply (settleFrom_resolves (List.length (tasks x)) 0 x k tx).
      + split; [lia|]. cbn [Nat.add]. apply nth_error_Some. rewrite Htx.
        discriminate.
      + intros j tj Hj. apply Hx. lia.
      + exact Htx.
      + unfold x in Htx. cbn in Htx. rewrite update_nth_same in Htx.
        destruct (nth_error (tasks st) k); [|discriminate].
        cbn in Htx. injection Htx as <-. reflexivity.
      + unfold x in Htx. cbn in Htx. rewrite update_nth_same in Htx.
        destruct (nth_error (tasks st) k) as [t|] eqn:Hk; [|discriminate].
        cbn in Htx. injection Htx as <-. cbn [t_previous markWorkDone].
        destruct k as [|k'].
        * specialize (Hs t Hk).
          destruct (ch_first st Hc t Hk) as [E|E]; rewrite E in *; cbn in *;
            [exact Hs | reflexivity].
        * rewrite (ch_next st Hc k' t Hk). cbn [resolved].
          destruct (nth_error (tasks x) k') as [tp|] eqn:Hp.
          -- apply (Hx k' tp); [lia | exact Hp].
          -- exfalso. apply nth_error_None in Hp.
             assert (S k' < List.length (tasks x)).
             { unfold x. cbn [tasks set_tasks]. rewrite update_length.
               apply nth_error_Some. congruence. }
             lia.
    - unfold settleAll.
      destruct (resolved_kept_settleFrom (List.length (tasks x)) 0 i tx x Htx)
        as [t' [Ht' [_ Hr']]]; [apply (Hx i tx); [lia | exact Htx]|].
      eauto. }
  destruct Hgoal as [t' [Ht' Hr']]. congruence.
Qed.

Lemma finishAll_succ (n : nat) :
  finishAll (S n) = finishAll n ++ [HandlerDone n].
Proof. unfold finishAll. rewrite seq_S, map_app. reflexivity. Qed.

(** When the promise the first execution awaits has resolved and the first
    [n] handlers finish, oldest first, the first [n] executions resolve;
    nothing else changes but the continuation that waited for them. *)
Lemma finish_resolves (n : nat) :
  forall st,
    Chain st -> FirstReady st ->
    let st' := run (finishAll n) st in
    Chain st' /\ FirstReady st' /\
    stream st' = stream st /\ aborted st' = aborted st /\
    streamDone st' = streamDone st /\
    previousToolCallFinished st' = previousToolCallFinished st /\
    List.length (tasks st') = List.length (tasks st) /\
    woken (pc st) (pc st') /\
    forall i ti, i < n -> nth_error (tasks st') i = Some ti ->
      t_resolved ti = true.
Proof.
  induction n as [|n IH]; intros st Hc Hf; cbn zeta.
  - change (run (finishAll 0) st) with st.
    repeat (split; [first [assumption | reflexivity | (left; reflexivity)]|]).
    intros i ti Hi. lia.
  - rewrite finishAll_succ, run_app.
    destruct (IH st Hc Hf) as (Hc' & Hf' & E1 & E2 & E3 & E4 & E5 & Hw & Hall).
    set (s := run (finishAll n) st) in *.
    change (run [HandlerDone n] s) with (step (HandlerDone n) s).
    destruct (handlerDone_frame n s) as (F1 & F2 & F4 & F5 & Fw).
    split; [apply chain_step; exact Hc'|].
    split; [apply firstReady_handlerDone; assumption|].
    split; [congruence|]. split; [congruence|].
    split; [rewrite streamDone_handlerDone; exact E3|].
    split; [congruence|]. split; [congruence|].
    split; [exact (woken_trans _ _ _ Hw Fw)|].
    apply handlerDone_resolves; assumption.
Qed.

(** When every execution has resolved, so has the promise the step awaits
    after its loop. *)
Lemma last_resolved (st : State) :
  Chain st ->
  (previousToolCallFinished st = StreamDonePromise -> streamDone st = true) ->
  (forall i ti, nth_error (tasks st) i = Some ti -> t_resolved ti = true) ->
  resolved (previousToolCallFinished st) st = true.
Proof.
  intros Hc Hs Hres.
  destruct (tasks st) as [|t l] eqn:Et.
  - destruct (ch_last_none st Hc Et) as [E|E]; rewrite E; cbn;
      [exact (Hs E) | reflexivity].
  - assert (Elen : List.length (tasks st) = S (List.length l))
      by (rewrite Et; reflexivity).
    rewrite (ch_last_some st Hc (List.length l) Elen). cbn [resolved].
    rewrite Et.
    destruct (nth_error (t :: l) (List.length l)) as [tl|] eqn:En.
    + apply (Hres (List.length l) tl En).
    + apply nth_error_None in En. cbn in En. lia.
Qed.

Lemma callsFrom_length (items : list StreamItem) :
  forall n, List.length (callsFrom n items) <= List.length items.
Proof.
  induction items as [|item rest IH]; intros n; cbn; [lia|].
  destruct item; try (specialize (IH n); lia);
    destruct (refusal name args); cbn; specialize (IH (S n)); lia.
Qed.

(** A stream without inline tool calls can always be brought to its end:
    when the stream is read through and the handlers then finish, the step
    returns without abort, with the history and the result that the stream
    determines. *)
Theorem structured_stream_returns (history : list Message)
  (fullResponse : string) (items : list StreamItem) :
  Forall (fun item => isInlineItem item = false) items ->
  let st :=
    run (readAll items ++ finishAll (List.length items))
      (initial history fullResponse items) in
  pc st = Committed /\ aborted st = false /\
  messageHistory st = expectedHistory history items /\
  result st = expectedResult fullResponse items.
Proof.
  intros Hall st.
  set (es := readAll items ++ finishAll (List.length items)) in *.
  assert (Hgoal : pc st = Committed /\ aborted st = false).
  { unfold st, es, readAll. rewrite !run_app.
    destruct (read_items items (initial history fullResponse items)
                eq_refl eq_refl eq_refl Hall) as (H1 & H2 & H3).
    set (s0 := run (flat_map (fun _ => [Tick; Deliver; Tick]) items)
                 (initial history fullResponse items)) in *.
    destruct (read_end s0 H1 H2 H3) as (Hs & Ha & Hpc).
    set (s1 := run [Tick; Deliver] s0) in *.
    assert (Hc1 : Chain s1).
    { unfold s1, s0. apply chain_run, chain_run, chain_initial. }
    destruct (finish_resolves (List.length items) s1 Hc1
                (firstReady_done s1 Hc1 Hs))
      as (Hc2 & _ & _ & Ha2 & Hs2 & _ & _ & Hwk & Hres).
    set (s2 := run (finishAll (List.length items)) s1) in *.
    split; [|congruence].
    assert (Hw : Waiting s2).
    { unfold s2, s1, s0. apply waiting_run, waiting_run, waiting_run.
      exact I. }
    assert (Hled : Ledger fullResponse items s2).
    { unfold s2, s1, s0. rewrite <- !run_app. apply ledger_reachable. }
    assert (Hlen : List.length (tasks s2) <= List.length items).
    { destruct Hled as [live late H1' _ _ _ _ _ _ _ H9 _ _ _].
      rewrite <- (length_map t_call), H9.
      pose proof (callsFrom_length live 0) as Hl.
      rewrite H1', !length_app. lia. }
    assert (Hr : resolved (previousToolCallFinished s2) s2 = true).
    { apply last_resolved; [exact Hc2 | intros _; congruence|].
      intros i ti Hi. apply (Hres i ti); [|exact Hi].
      assert (i < List.length (tasks s2)) by (apply nth_error_Some; congruence).
      lia. }
    unfold Waiting in Hw.
    destruct Hwk as [E|[[[p Hp] _]|[_ E]]]; [| |exact E].
    - destruct Hpc as [E'|E']; [|congruence].
      rewrite E, E' in Hw. congruence.
    - destruct Hpc as [E'|E']; congruence. }
  destruct Hgoal as [Hpc Ha].
  split; [exact Hpc|]. split; [exact Ha|].
  destruct (committed_outcome es history fullResponse items Hpc Ha)
    as (H1 & H2 & _).
  split; assumption.
Qed.

(** *** A step whose first tool call is inline *)

Lemma previousPromiseOf_inline (st : State) :
  previousPromiseOf true st <> StreamDonePromise.
Proof.
  unfold previousPromiseOf.
  destruct (previousToolCallFinished st); cbn; discriminate.
Qed.

Lemma firstReady_same (st s : State) :
  tasks s = tasks st -> streamDone s = streamDone st ->
  FirstReady st -> FirstReady s.
Proof.
  intros Et Es Hf t0 H0. rewrite Et in H0. specialize (Hf t0 H0).
  destruct (t_previous t0); cbn in *; rewrite ?Es, ?Et; exact Hf.
Qed.

Lemma firstReady_new (st s : State) (t : Task) :
  Chain st -> tasks s = tasks st ++ [t] -> streamDone s = streamDone st ->
  FirstReady st -> (tasks st = [] -> t_previous t = ResolvedPromise) ->
  FirstReady s.
Proof.
  intros Hc Et Es Hf Hn t0 H0. rewrite Et in H0.
  destruct (tasks st) as [|t1 l] eqn:E.
  - cbn in H0. injection H0 as <-. rewrite (Hn eq_refl). reflexivity.
  - cbn in H0. injection H0 as <-.
    assert (H1 : nth_error (tasks st) 0 = Some t1) by (rewrite E; reflexivity).
    specialize (Hf t1 H1).
    destruct (ch_first st Hc t1 H1) as [E1|E1]; rewrite E1 in *; cbn in *;
      [rewrite Es; exact Hf | reflexivity].
Qed.

(** What the delivery of one item leaves. *)
Lemma deliver_item (item : StreamItem) (rest : list StreamItem) (st : State) :
  Chain st -> pc st = LoopTop -> aborted st = false ->
  stream st = item :: rest -> FirstReady st ->
  (previousToolCallFinished st = StreamDonePromise ->
   inlineFirst (item :: rest) = true) ->
  let s := run [Tick; Deliver] st in
  stream s = rest /\ aborted s = false /\
  List.length (tasks s) <= S (List.length (tasks st)) /\
  FirstReady s /\
  (previousToolCallFinished s = StreamDonePromise -> inlineFirst rest = true) /\
  (if isInlineItem item
   then (pc s = LoopTop \/ pc s = AwaitInline (previousToolCallFinished s)) /\
        previousToolCallFinished s <> StreamDonePromise
   else exists chunk, pc s = Yielded chunk).
Proof.
  intros Hc Hpc Ha Hst Hf Ho. cbn zeta.
  assert (E1 : step Tick st = set_pc AwaitStream st)
    by (cbn [step]; rewrite Hpc, Ha; reflexivity).
  assert (E2 : step Deliver (set_pc AwaitStream st)
               = parserNext (set_pc AwaitStream st)) by reflexivity.
  rewrite !run_cons, E1, E2. change (run [] ?x) with x.
  unfold parserNext. cbn [stream set_pc]. rewrite Hst.
  set (st0 := set_stream rest (set_pc AwaitStream st)).
  assert (Hnew : forall xml, (xml = false -> isInlineItem item = false) ->
            isToolCallItem item = true ->
            tasks st = [] -> previousPromiseOf xml st0 = ResolvedPromise).
  { intros xml Hx Hi Et. unfold previousPromiseOf, st0.
    cbn [previousToolCallFinished set_stream set_pc].
    destruct (ch_last_none st Hc Et) as [E|E]; rewrite E; cbn;
      [|destruct xml; reflexivity].
    destruct xml; [reflexivity|]. specialize (Ho E).
    unfold inlineFirst in Ho. cbn [filter] in Ho. rewrite Hi in Ho.
    rewrite (Hx eq_refl) in Ho. discriminate. }
  destruct item.
  - unfold parserOnResponseChunk.
    destruct (String.eqb text "");
      (split; [reflexivity|]; split; [exact Ha|]; split; [cbn; lia|];
       split; [apply (firstReady_same st); [reflexivity | reflexivity | exact Hf]|];
       split; [exact Ho|]; eexists; reflexivity).
  - split; [reflexivity|]; split; [exact Ha|]; split; [cbn; lia|];
      split; [apply (firstReady_same st); [reflexivity | reflexivity | exact Hf]|];
      split; [exact Ho|]; eexists; reflexivity.
  - split; [reflexivity|]; split; [exact Ha|]; split; [cbn; lia|];
      split; [apply (firstReady_same st); [reflexivity | reflexivity | exact Hf]|];
      split; [exact Ho|]; eexists; reflexivity.
  - destruct (onTagEnd_cases name false args st0) as [Hab|m Hab Hr|Hab Hr].
    + unfold st0 in Hab. cbn in Hab. congruence.
    + split; [reflexivity|]. split; [exact Ha|]. split; [cbn; lia|].
      split; [apply (firstReady_same st); [reflexivity | reflexivity | exact Hf]|].
      split; [|eexists; reflexivity].
      intros E. specialize (Ho E). discriminate Ho.
    + split; [reflexivity|]. split; [exact Ha|].
      split; [cbn; rewrite length_app; cbn; lia|].
      split; [|split; [intros E; discriminate E | eexists; reflexivity]].
      apply (firstReady_new st _ (newTask name false args st0));
        [exact Hc | reflexivity | reflexivity | exact Hf|].
      apply (Hnew false); reflexivity.
  - unfold executeXmlToolCall.
    assert (Ha0 : aborted st0 = false) by exact Ha. rewrite Ha0.
    destruct (onTagEnd_cases name true args st0) as [Hab|m Hab Hr|Hab Hr].
    + congruence.
    + cbn iota.
      set (x := set_pc (AwaitInline (previousPromiseOf true st0)) _).
      destruct (wake_control x) as (Ws & Wa & _).
      split; [rewrite Ws; reflexivity|]. split; [rewrite Wa; exact Ha|].
      split; [rewrite tasks_wake; cbn; lia|].
      split; [apply (firstReady_same st);
              [rewrite tasks_wake; reflexivity
              | rewrite streamDone_wake; reflexivity | exact Hf]|].
      rewrite previousToolCallFinished_wake.
      assert (Ep : previousToolCallFinished x = previousPromiseOf true st0)
        by reflexivity.
      rewrite Ep.
      split; [intros E; destruct (previousPromiseOf_inline st0 E)|].
      split; [|apply previousPromiseOf_inline].
      unfold wake. cbn [pc x set_pc].
      destruct (resolved (previousPromiseOf true st0) x);
        [left | right]; reflexivity.
    + cbn iota.
      set (x := set_pc (AwaitInline (ToolPromise (List.length (tasks st0)))) _).
      destruct (wake_control x) as (Ws & Wa & _).
      split; [rewrite Ws; reflexivity|]. split; [rewrite Wa; exact Ha|].
      split; [rewrite tasks_wake; cbn; rewrite length_app; cbn; lia|].
      split.
      { apply (firstReady_same x);
          [apply tasks_wake | apply streamDone_wake|].
        apply (firstReady_new st _ (newTask name true args st0));
          [exact Hc | reflexivity | reflexivity | exact Hf|].
        apply (Hnew true); [discriminate | reflexivity]. }
      rewrite previousToolCallFinished_wake.
      assert (Ep : previousToolCallFinished x
                   = ToolPromise (List.length (tasks st0))) by reflexivity.
      rewrite Ep.
      split; [intros E; discriminate E|].
      split; [|discriminate].
      unfold wake. cbn [pc x set_pc].
      destruct (resolved (ToolPromise (List.length (tasks st0))) x);
        [left | right]; reflexivity.
Qed.

Lemma resolved_grows (st st' : State) (i : nat) (t t' : Task) :
  Chain st -> Chain st' -> Grows st st' ->
  nth_error (tasks st) i = Some t -> t_resolved t = true ->
  nth_error (tasks st') i = Some t' -> t_resolved t' = true.
Proof.
  intros Hc Hc' Hg Hi Hr Hi'.
  rewrite (ch_flags st Hc i t Hi) in Hr. apply Nat.ltb_lt in Hr.
  rewrite (ch_flags st' Hc' i t' Hi'). apply Nat.ltb_lt.
  destruct (g_calls st st' Hg) as [l El]. rewrite El, length_app. lia.
Qed.

(** One item is read, every execution has resolved, and the loop is at its
    top again. *)
Lemma serve_item (n : nat) (item : StreamItem) (rest : list StreamItem)
  (st : State) :
  Served n st -> stream st = item :: rest ->
  Served n (run (serveItem n item) st) /\
  stream (run (serveItem n item) st) = rest.
Proof.
  intros [Hc Hpc Ha Hf Hres Hb Ho] Hst.
  unfold serveItem. rewrite !run_app.
  rewrite Hst in Ho.
  destruct (deliver_item item rest st Hc Hpc Ha Hst Hf Ho)
    as (D1 & D2 & D3 & D4 & D5 & D6).
  set (s1 := run [Tick; Deliver] st) in *.
  assert (Hc1 : Chain s1) by (apply chain_run; exact Hc).
  destruct (finish_resolves n s1 Hc1 D4)
    as (Hc2 & Hf2 & F1 & F2 & F3 & F4 & F5 & Hw & Hall).
  set (s2 := run (finishAll n) s1) in *.
  assert (Hlen : List.length (tasks s2) + List.length rest <= n).
  { rewrite F5. rewrite Hst in Hb. cbn in Hb. lia. }
  assert (Hres2 : forall i ti, nth_error (tasks s2) i = Some ti ->
                    t_resolved ti = true).
  { intros i ti Hi. apply (Hall i ti); [|exact Hi].
    assert (i < List.length (tasks s2)) by (apply nth_error_Some; congruence).
    lia. }
  assert (Hw2 : Waiting s2).
  { unfold s2, s1. apply waiting_run, waiting_run. unfold Waiting.
    rewrite Hpc. exact I. }
  destruct (isInlineItem item) eqn:Hi.
  - destruct D6 as [Dpc Dne].
    change (run [] s2) with s2.
    assert (Hpc2 : pc s2 = LoopTop).
    { destruct Dpc as [E|E].
      - destruct Hw as [E'|[[[p Hp] E']|[Hd _]]]; congruence.
      - destruct Hw as [E'|[[_ E']|[Hd _]]]; [|exact E'|congruence].
        exfalso. unfold Waiting in Hw2. rewrite E', E, <- F4 in Hw2.
        rewrite (last_resolved s2 Hc2) in Hw2; [discriminate| |exact Hres2].
        intros E0. rewrite F4 in E0. contradiction. }
    split; [|rewrite F1; exact D1].
    constructor; try assumption.
    + congruence.
    + rewrite F1, D1. exact Hlen.
    + rewrite F1, D1, F4. exact D5.
  - destruct D6 as [chunk Dpc].
    assert (Hpc2 : pc s2 = Yielded chunk).
    { destruct Hw as [E'|[[[p Hp] _]|[Hd _]]]; congruence. }
    change (run [Tick] s2) with (step Tick s2).
    assert (Hc3 : Chain (step Tick s2)) by (apply chain_step; exact Hc2).
    cbn [step] in *. rewrite Hpc2 in *.
    set (f := set_pc LoopTop (loopBody chunk s2)) in *.
    assert (T : tasks f = tasks s2 /\ stream f = stream s2 /\
                aborted f = aborted s2 /\
                previousToolCallFinished f = previousToolCallFinished s2 /\
                streamDone f = streamDone s2)
      by (unfold f; destruct chunk; repeat split).
    destruct T as (T1 & T2 & T3 & T4 & T5).
    split; [|rewrite T2, F1; exact D1].
    constructor.
    + exact Hc3.
    + reflexivity.
    + congruence.
    + apply (firstReady_same s2); assumption.
    + rewrite T1. exact Hres2.
    + rewrite T1, T2, F1, D1. exact Hlen.
    + rewrite T2, F1, D1, T4, F4. exact D5.
Qed.

Lemma serve_items (n : nat) (items : list StreamItem) :
  forall st,
    Served n st -> stream st = items ->
    let st' := run (flat_map (serveItem n) items) st in
    Served n st' /\ stream st' = [].
Proof.
  induction items as [|item rest IH]; intros st Hs Hst; cbn zeta.
  - cbn. auto.
  - cbn [flat_map]. rewrite run_app.
    destruct (serve_item n item rest st Hs Hst) as [Hs' Hst'].
    apply IH; assumption.
Qed.

(** At the end of a stream read in that way the step returns at once. *)
Lemma served_end (n : nat) (st : State) :
  Served n st -> stream st = [] ->
  pc (run [Tick; Deliver] st) = Committed /\
  aborted (run [Tick; Deliver] st) = false.
Proof.
  intros [Hc Hpc Ha Hf Hres Hb Ho] Hst.
  destruct (read_end st Hpc Ha Hst) as (Hs & Ha' & Hpc').
  set (s := run [Tick; Deliver] st) in *.
  split; [|exact Ha'].
  destruct Hpc' as [E|E]; [|exact E]. exfalso.
  assert (Hw : Waiting s).
  { unfold s. apply waiting_run. unfold Waiting. rewrite Hpc. exact I. }
  unfold Waiting in Hw. rewrite E in Hw.
  assert (Hcs : Chain s) by (apply chain_run; exact Hc).
  rewrite (last_resolved s Hcs) in Hw; [discriminate | intros _; exact Hs|].
  intros i ti Hi.
  assert (Hl : List.length (tasks s) = List.length (tasks st)).
  { unfold s.
    assert (E1 : step Tick st = set_pc AwaitStream st)
      by (cbn [step]; rewrite Hpc, Ha; reflexivity).
    rewrite !run_cons, E1. change (run [] ?x) with x.
    cbn [step pc set_pc]. unfold parserNext. cbn [stream set_pc].
    rewrite Hst. rewrite <- (length_map shape), shape_afterLoop, length_map.
    reflexivity. }
  assert (Hlt : i < List.length (tasks st)).
  { rewrite <- Hl. apply nth_error_Some. congruence. }
  destruct (nth_error (tasks st) i) as [t|] eqn:Ht;
    [|apply nth_error_None in Ht; lia].
  apply (resolved_grows st s i t ti Hc Hcs (grows_run _ st) Ht
           (Hres i t Ht) Hi).
Qed.

(** A stream whose first tool call is inline can always be brought to its
    end: when each handler finishes as soon as its call is dispatched, the
    step returns when the stream ends, without abort, with the history and
    the result that the stream determines. *)
Theorem inline_first_stream_returns (history : list Message)
  (fullResponse : string) (items : list StreamItem) :
  inlineFirst items = true ->
  let st := run (serveAll items) (initial history fullResponse items) in
  pc st = Committed /\ aborted st = false /\
  messageHistory st = expectedHistory history items /\
  result st = expectedResult fullResponse items.
Proof.
  intros Hfirst st.
  assert (Hgoal : pc st = Committed /\ aborted st = false).
  { unfold st, serveAll. rewrite run_app.
    assert (H0 : Served (List.length items) (initial history fullResponse items)).
    { constructor; cbn.
      - apply chain_initial.
      - reflexivity.
      - reflexivity.
      - intros t0 H. discriminate H.
      - intros [|i] ti H; discriminate H.
      - lia.
      - intros _. exact Hfirst. }
    destruct (serve_items (List.length items) items _ H0 eq_refl) as [Hs Hst].
    apply (served_end (List.length items)); assumption. }
  destruct Hgoal as [Hpc Ha].
  split; [exact Hpc|]. split; [exact Ha|].
  destruct (committed_outcome (serveAll items) history fullResponse items Hpc Ha)
    as (H1 & H2 & _).
  split; assumption.
Qed.

(** *** The first call of a step *)



End ProcessStream.

(** *** A concrete runtime

    Two native tools, no spawnable agents, no custom tools; [spawn_agents]
    wants an array for [agents]. *)

Definition sampleId (n : nat) : string :=
  ("call-" ++ NilZero.string_of_uint (Nat.to_uint n))%string.

Definition sampleNative (name : string) : bool :=
  Js.mem name ["read_files"; "spawn_agents"; "end_turn"].

Definition sampleTransform (name : string) (args : Input)
  : option (string * Input) := None.

Definition sampleValidate (name : string) (args : Input) : option string :=
  if String.eqb name "spawn_agents"
  then match Js.assoc "agents" args with
       | Some v => if String.prefix "[" v then None
                   else Some "Invalid parameters for spawn_agents"
       | None => Some "Invalid parameters for spawn_agents"
       end
  else None.

Definition sampleValidateCustom (name : string) (args : Input) : option string :=
  Some ("Tool not found: " ++ name)%string.

Definition sampleOutput (c : ToolCall) : ToolOutput :=
  [JsonResult ("result of " ++ toolName c)%string].

Definition sampleTags (s : string) : string :=
  ("<system>" ++ s ++ "</system>")%string.

Abbreviation sampleRun :=
  (run sampleId sampleNative sampleTransform sampleValidate sampleValidateCustom
     sampleOutput sampleTags "mock-message-id").

Abbreviation sampleStep :=
  (step sampleId sampleNative sampleTransform sampleValidate sampleValidateCustom
     sampleOutput sampleTags "mock-message-id").

Ltac evaluate := vm_compute; reflexivity.

Definition sampleHistory : list Message :=
  [UserMessage [TextPart "list files"]].

(** Text, then two structured calls; the second handler finishes first. *)
Definition twoCalls : list StreamItem :=
  [ TextDelta "ok: ";
    StructuredToolCall "read_files" [("paths", "a.ts")];
    StructuredToolCall "end_turn" [] ].

Definition twoCallsSchedule : list Event :=
  [ Tick; Deliver; Tick;
    Tick; Deliver; Tick;
    Tick; Deliver; Tick;
    HandlerDone 1;
    Tick; Deliver;
    HandlerDone 0 ].

Lemma processStream_history_order_witness :
  let st := sampleRun twoCallsSchedule (initial sampleHistory "" twoCalls) in
  pc st = Committed /\ aborted st = false /\
  messageHistory st =
    [ UserMessage [TextPart "list files"];
      AssistantMessage [TextPart "ok: "];
      AssistantMessage
        [ToolCallPart (mkToolCall "call-0" "read_files" [("paths", "a.ts")])];
      AssistantMessage [ToolCallPart (mkToolCall "call-1" "end_turn" [])];
      ToolMessage "call-0" "read_files" [JsonResult "result of read_files"];
      ToolMessage "call-1" "end_turn" [JsonResult "result of end_turn"] ] /\
  noOrphan [] (messageHistory st) = true.
Proof.
  cbv zeta.
  assert (Hpc : pc (sampleRun twoCallsSchedule (initial sampleHistory "" twoCalls))
                = Committed) by evaluate.
  assert (Hab : aborted (sampleRun twoCallsSchedule (initial sampleHistory "" twoCalls))
                = false) by evaluate.
  split; [exact Hpc|]. split; [exact Hab|].
  destruct (processStream_history_order sampleId sampleNative sampleTransform
              sampleValidate sampleValidateCustom sampleOutput sampleTags
              "mock-message-id" twoCallsSchedule sampleHistory "" twoCalls
              Hpc Hab) as (Hh & _ & _ & _ & _ & _ & _ & _ & Hno).
  split.
  - etransitivity; [exact Hh | evaluate].
  - apply Hno. evaluate.
Defined.

(** The events of the two calls reach the caller in dispatch order although
    the second handler finished first. *)
Lemma tool_effects_in_dispatch_order_witness :
  filter isToolEvent
    (ui (sampleRun twoCallsSchedule (initial sampleHistory "" twoCalls))) =
  [ ToolCallEvent (mkToolCall "call-0" "read_files" [("paths", "a.ts")]);
    ToolResultEvent "call-0" "read_files" [JsonResult "result of read_files"];
    ToolCallEvent (mkToolCall "call-1" "end_turn" []);
    ToolResultEvent "call-1" "end_turn" [JsonResult "result of end_turn"] ].
Proof.
  pose proof (tool_effects_in_dispatch_order sampleId sampleNative sampleTransform
                sampleValidate sampleValidateCustom sampleOutput sampleTags
                "mock-message-id" twoCallsSchedule sampleHistory "" twoCalls) as H.
  cbv zeta in H. destruct H as (_ & _ & _ & _ & _ & _ & Hui).
  etransitivity; [exact Hui | evaluate].
Defined.

(** A string where [spawn_agents] wants an array. *)
Definition invalidSpawn : list StreamItem :=
  [StructuredToolCall "spawn_agents" [("agents", "not-an-array")]].

Lemma refused_call_is_reported_witness :
  let st :=
    sampleRun [Tick; Deliver; Tick; Tick; Deliver]
      (initial sampleHistory "" invalidSpawn) in
  ui st = [ErrorEvent "Invalid parameters for spawn_agents"] /\
  hadToolCallError st = true /\
  messageHistory st =
    [ UserMessage [TextPart "list files"];
      UserMessage
        [TextPart
           "<system>Error during tool call: Invalid parameters for spawn_agents. Please check the tool name and arguments and try again.</system>"] ].
Proof.
  cbv zeta.
  pose proof (refused_call_is_reported sampleId sampleNative sampleTransform
                sampleValidate sampleValidateCustom sampleOutput sampleTags
                "mock-message-id" [Tick; Deliver; Tick; Tick; Deliver]
                sampleHistory "" invalidSpawn) as H.
  cbv zeta in H. destruct H as (_ & _ & Hflag & _ & _ & Hh).
  split; [evaluate|]. split.
  - etransitivity; [|apply Hflag]; [evaluate|]. vm_compute. discriminate.
  - etransitivity; [|etransitivity; [apply Hh; evaluate|]]; evaluate.
Defined.

(** An inline call, then text; the abort comes while the handler runs. *)
Definition inlineThenText : list StreamItem :=
  [InlineToolCall "read_files" [("paths", "a.ts")]; TextDelta "done"].

(** C6, as stated, fails: the call dispatched before the abort records its
    call and its result after the abort, and the rewrite includes them. *)
Lemma abort_then_late_result :
  let atAbort :=
    sampleRun [Tick; Deliver; Abort] (initial sampleHistory "" inlineThenText) in
  let final := sampleRun [HandlerDone 0; Tick] atAbort in
  aborted atAbort = true /\
  toolCallsToAddToMessageHistory atAbort = [] /\
  toolResultsToAddToMessageHistory atAbort = [] /\
  pc final = Committed /\
  messageHistory final =
    [ UserMessage [TextPart "list files"];
      AssistantMessage
        [ToolCallPart (mkToolCall "call-0" "read_files" [("paths", "a.ts")])];
      ToolMessage "call-0" "read_files" [JsonResult "result of read_files"] ] /\
  messageHistory final <>
    messageHistoryBeforeStream atAbort
    ++ assistantMessages final
    ++ map (fun c => assistantMessage (ToolCallPart c))
         (toolCallsToAddToMessageHistory atAbort)
    ++ toolResultsToAddToMessageHistory atAbort
    ++ errorMessages final.
Proof.
  cbv zeta. repeat split; try evaluate. vm_compute. discriminate.
Qed.

Lemma abort_stops_dispatch_witness :
  let st :=
    sampleRun [Tick; Deliver; Abort; HandlerDone 0]
      (initial sampleHistory "" inlineThenText) in
  aborted st = true /\ pc st = LoopTop /\
  onTagEnd sampleId sampleNative sampleTransform sampleValidate
    sampleValidateCustom sampleTags "read_files" false [] st = (None, st) /\
  pc (sampleStep Tick st) = Committed /\
  messageHistory (sampleStep Tick st) =
    [ UserMessage [TextPart "list files"];
      AssistantMessage
        [ToolCallPart (mkToolCall "call-0" "read_files" [("paths", "a.ts")])];
      ToolMessage "call-0" "read_files" [JsonResult "result of read_files"] ].
Proof.
  cbv zeta.
  assert (Hab : aborted (sampleRun [Tick; Deliver; Abort; HandlerDone 0]
                           (initial sampleHistory "" inlineThenText)) = true)
    by evaluate.
  assert (Htop : pc (sampleRun [Tick; Deliver; Abort; HandlerDone 0]
                       (initial sampleHistory "" inlineThenText)) = LoopTop)
    by evaluate.
  split; [exact Hab|]. split; [exact Htop|].
  destruct (abort_stops_dispatch sampleId sampleNative sampleTransform
              sampleValidate sampleValidateCustom sampleOutput sampleTags
              "mock-message-id" [Tick; Deliver; Abort; HandlerDone 0]
              sampleHistory "" inlineThenText Hab)
    as (Hguard & _ & _ & Hexit & _).
  split; [apply Hguard|].
  destruct (Hexit Tick (or_introl (conj Htop eq_refl))) as [Hpc Hh].
  split; [exact Hpc|].
  etransitivity; [exact Hh | evaluate].
Defined.

(** The text that follows the inline call reaches the caller after the
    result of the call. *)
Lemma inline_call_is_awaited_witness :
  let st :=
    sampleRun [Tick; Deliver; HandlerDone 0; Tick]
      (initial sampleHistory "" inlineThenText) in
  In (TextEvent "done") (skipn (List.length (ui st)) (ui (sampleStep Deliver st))) /\
  In (ToolResultEvent "call-0" "read_files" [JsonResult "result of read_files"])
     (ui st).
Proof.
  cbv zeta.
  assert (Hin : In (TextEvent "done")
                  (skipn (List.length
                            (ui (sampleRun [Tick; Deliver; HandlerDone 0; Tick]
                                   (initial sampleHistory "" inlineThenText))))
                     (ui (sampleStep Deliver
                            (sampleRun [Tick; Deliver; HandlerDone 0; Tick]
                               (initial sampleHistory "" inlineThenText))))))
    by (vm_compute; left; reflexivity).
  split; [exact Hin|].
  pose proof (inline_call_is_awaited sampleId sampleNative sampleTransform
                sampleValidate sampleValidateCustom sampleOutput sampleTags
                "mock-message-id" [Tick; Deliver; HandlerDone 0; Tick]
                sampleHistory "" inlineThenText) as H.
  cbv zeta in H. destruct H as (_ & _ & _ & Htext).
  apply (Htext Deliver (TextEvent "done") Hin eq_refl 0
           (mkTask (mkToolCall "call-0" "read_files" [("paths", "a.ts")])
              true ResolvedPromise true true));
    evaluate.
Defined.



(** The first call is structured: its handler has finished, yet nothing is
    recorded while the stream is open. *)
Example structured_first_waits :
  let st :=
    sampleRun [Tick; Deliver; HandlerDone 0; Tick; Tick]
      (initial sampleHistory "" twoCalls) in
  let st' :=
    sampleRun [Tick; Deliver; Tick; Tick; Deliver; HandlerDone 0; Tick]
      (initial sampleHistory "" twoCalls) in
  toolResults st = [] /\ toolResults st' = [] /\ streamDone st' = false.
Proof. cbv zeta. repeat split; evaluate. Qed.

(** A structured call followed by an inline call: the inline execution
    awaits the structured one, which awaits the end of the stream, which the
    parser cannot reach while it awaits the inline execution. *)
Example structured_then_inline_stalls :
  let st :=
    sampleRun [Tick; Deliver; Tick; Tick; Deliver; HandlerDone 0; HandlerDone 1]
      (initial sampleHistory ""
         [StructuredToolCall "read_files" []; InlineToolCall "end_turn" []]) in
  pc st = AwaitInline (ToolPromise 1) /\
  toolResults st = [] /\
  Forall (fun e => sampleStep e st = st)
    [HandlerDone 0; HandlerDone 1; Tick; Deliver; ParserAborts].
Proof.
  cbv zeta. split; [evaluate|]. split; [evaluate|].
  repeat (constructor; [evaluate|]). constructor.
Qed.

(** *** The further properties on the sample runtime *)

Lemma to_uint_not_nil (n : nat) : Nat.to_uint n <> Decimal.Nil.
Proof.
  intros H. pose proof (Unsigned.of_to n) as E. rewrite H in E. cbn in E.
  subst n. discriminate H.
Qed.

Lemma sampleId_injective (i j : nat) : sampleId i = sampleId j -> i = j.
Proof.
  unfold sampleId. cbn. intros H. injection H as H.
  apply Unsigned.to_uint_inj.
  assert (E : Some (Nat.to_uint i) = Some (Nat.to_uint j)).
  { rewrite <- !NilZero.usu by apply to_uint_not_nil. rewrite H. reflexivity. }
  congruence.
Qed.

(** The abort comes while the handler of the inline call runs: the text
    that follows the call is never read. *)
Definition abortedSchedule : list Event :=
  [Tick; Deliver; Abort; HandlerDone 0; Tick].

Lemma fullResponse_is_the_text_read_witness :
  r_fullResponse
    (result (sampleRun twoCallsSchedule (initial sampleHistory "so far, " twoCalls)))
  = "so far, ok: ".
Proof.
  assert (Hpc : pc (sampleRun twoCallsSchedule
                      (initial sampleHistory "so far, " twoCalls)) = Committed)
    by evaluate.
  assert (Hab : aborted (sampleRun twoCallsSchedule
                           (initial sampleHistory "so far, " twoCalls)) = false)
    by evaluate.
  destruct (fullResponse_is_the_text_read sampleId sampleNative sampleTransform
              sampleValidate sampleValidateCustom sampleOutput sampleTags
              "mock-message-id" twoCallsSchedule sampleHistory "so far, " twoCalls
              Hpc) as [read (_ & _ & Hf & Hall)].
  rewrite (Hall Hab) in Hf. etransitivity; [exact Hf | evaluate].
Defined.

Lemma tool_call_ids_are_distinct_witness :
  NoDup (map toolCallId
           (toolCalls (sampleRun twoCallsSchedule
                         (initial sampleHistory "" twoCalls)))).
Proof.
  apply (tool_call_ids_are_distinct sampleId sampleNative sampleTransform
           sampleValidate sampleValidateCustom sampleOutput sampleTags
           "mock-message-id" twoCallsSchedule sampleHistory "" twoCalls
           sampleId_injective).
Defined.


(** An inline call, then a structured one whose handler is still running
    when the step is aborted and returns. *)
Definition inlineThenStructured : list StreamItem :=
  [InlineToolCall "read_files" [("paths", "a.ts")]; StructuredToolCall "end_turn" []].

Definition returnsEarly : list Event :=
  [Tick; Deliver; HandlerDone 0; Tick; Deliver; Abort; Tick; Tick].

(** The handler that finishes after the return still records its call in
    the returned array; the history stays as it was rewritten. *)
Lemma returned_step_is_final_witness :
  let st := sampleRun returnsEarly (initial sampleHistory "" inlineThenStructured) in
  List.length (toolCalls st) = 1 /\
  List.length (toolCalls (sampleRun [HandlerDone 1] st)) = 2 /\
  messageHistory (sampleRun [HandlerDone 1] st)
  = [ UserMessage [TextPart "list files"];
      AssistantMessage
        [ToolCallPart (mkToolCall "call-0" "read_files" [("paths", "a.ts")])];
      ToolMessage "call-0" "read_files" [JsonResult "result of read_files"] ].
Proof.
  cbv zeta. split; [evaluate|]. split; [evaluate|].
  assert (Hpc : pc (sampleRun returnsEarly
                      (initial sampleHistory "" inlineThenStructured)) = Committed)
    by evaluate.
  destruct (returned_step_is_final sampleId sampleNative sampleTransform
              sampleValidate sampleValidateCustom sampleOutput sampleTags
              "mock-message-id" returnsEarly [HandlerDone 1] sampleHistory ""
              inlineThenStructured Hpc) as (_ & Hh & _).
  etransitivity; [exact Hh | evaluate].
Defined.

(** Aborted between two chunks, the step returns no message id. *)
Lemma messageId_is_null_until_the_stream_ends_witness :
  let st :=
    sampleRun [Tick; Deliver; Tick; Abort] (initial sampleHistory "" twoCalls) in
  stream st <> [] /\
  pc (sampleStep Tick st) = Committed /\
  r_messageId (result (sampleStep Tick st)) = None.
Proof.
  cbv zeta. split; [vm_compute; discriminate|].
  apply (messageId_is_null_until_the_stream_ends sampleId sampleNative
           sampleTransform sampleValidate sampleValidateCustom sampleOutput
           sampleTags "mock-message-id" [Tick; Deliver; Tick; Abort]
           sampleHistory "" twoCalls); evaluate.
Defined.

Definition withReasoning : list StreamItem :=
  [ReasoningItem "the user wants a list"; TextDelta "ok"].

Lemma reasoning_leaves_no_trace_witness :
  let st :=
    sampleRun [Tick; Deliver; Tick; Tick; Deliver; Tick; Tick; Deliver]
      (initial sampleHistory "" withReasoning) in
  reasoningDeltas (ui st) = ["the user wants a list"] /\
  messageHistory st
  = [UserMessage [TextPart "list files"]; AssistantMessage [TextPart "ok"]].
Proof.
  cbv zeta.
  assert (Hpc : pc (sampleRun [Tick; Deliver; Tick; Tick; Deliver; Tick; Tick; Deliver]
                      (initial sampleHistory "" withReasoning)) = Committed)
    by evaluate.
  assert (Hab : aborted (sampleRun [Tick; Deliver; Tick; Tick; Deliver; Tick; Tick; Deliver]
                           (initial sampleHistory "" withReasoning)) = false)
    by evaluate.
  assert (Hpc' : pc (sampleRun [Tick; Deliver; Tick; Tick; Deliver]
                       (initial sampleHistory ""
                          (withoutReasoning withReasoning))) = Committed)
    by evaluate.
  assert (Hab' : aborted (sampleRun [Tick; Deliver; Tick; Tick; Deliver]
                            (initial sampleHistory ""
                               (withoutReasoning withReasoning))) = false)
    by evaluate.
  destruct (reasoning_leaves_no_trace sampleId sampleNative sampleTransform
              sampleValidate sampleValidateCustom sampleOutput sampleTags
              "mock-message-id"
              [Tick; Deliver; Tick; Tick; Deliver; Tick; Tick; Deliver]
              [Tick; Deliver; Tick; Tick; Deliver]
              sampleHistory "" withReasoning Hpc Hab Hpc' Hab')
    as (Hr & Hh & _).
  split.
  - etransitivity; [exact Hr | evaluate].
  - etransitivity; [exact Hh | evaluate].
Defined.

Definition structuredThenInline : list StreamItem :=
  [StructuredToolCall "read_files" []; InlineToolCall "end_turn" []].

Lemma inline_after_structured_never_returns_witness :
  let st :=
    sampleRun [Tick; Deliver; Tick; Tick; Deliver]
      (initial sampleHistory "" structuredThenInline) in
  pc (sampleRun [HandlerDone 0; HandlerDone 1; Abort; Tick; ParserAborts; Deliver] st)
  <> Committed.
Proof.
  cbv zeta.
  apply (inline_after_structured_never_returns sampleId sampleNative
           sampleTransform sampleValidate sampleValidateCustom sampleOutput
           sampleTags "mock-message-id"
           [Tick; Deliver; Tick; Tick; Deliver]
           [HandlerDone 0; HandlerDone 1; Abort; Tick; ParserAborts; Deliver]
           sampleHistory "" structuredThenInline
           (mkTask (mkToolCall "call-0" "read_files" []) false
              StreamDonePromise false false)
           (mkTask (mkToolCall "call-1" "end_turn" []) true
              (ToolPromise 0) false false)
           1); evaluate.
Defined.

(** The step is aborted while the handler of the inline call runs: the
    call and its result, recorded before the return, are in the history,
    the text that was never read is not. *)
Lemma returned_history_is_paired_witness :
  let st := sampleRun abortedSchedule (initial sampleHistory "" inlineThenText) in
  aborted st = true /\
  noOrphan [] (messageHistory st) = true.
Proof.
  cbv zeta. split; [evaluate|].
  assert (Hpc : pc (sampleRun abortedSchedule
                      (initial sampleHistory "" inlineThenText)) = Committed)
    by evaluate.
  destruct (returned_history_is_paired sampleId sampleNative sampleTransform
              sampleValidate sampleValidateCustom sampleOutput sampleTags
              "mock-message-id" abortedSchedule sampleHistory "" inlineThenText
              Hpc) as [read [calls (_ & _ & _ & _ & Hno)]].
  apply Hno. evaluate.
Defined.

(** Two structured calls: the caller receives the text, then, after the
    end of the stream, the events of the calls in dispatch order, although
    the second handler finished first. *)
Lemma structured_calls_report_after_the_stream_witness :
  ui (sampleRun twoCallsSchedule (initial sampleHistory "" twoCalls))
  = [ TextEvent "ok: "; PlainText "ok: ";
      ToolCallEvent (mkToolCall "call-0" "read_files" [("paths", "a.ts")]);
      ToolResultEvent "call-0" "read_files" [JsonResult "result of read_files"];
      ToolCallEvent (mkToolCall "call-1" "end_turn" []);
      ToolResultEvent "call-1" "end_turn" [JsonResult "result of end_turn"] ].
Proof.
  destruct (structured_calls_report_after_the_stream sampleId sampleNative
              sampleTransform sampleValidate sampleValidateCustom sampleOutput
              sampleTags "mock-message-id" twoCallsSchedule sampleHistory ""
              twoCalls) as (Hui & _).
  - intros t0 H0. vm_compute in H0. injection H0 as <-. reflexivity.
  - etransitivity; [exact Hui | evaluate].
Defined.

(** The step is aborted after the first structured call was dispatched. *)
Definition abortedAfterDispatch : list Event :=
  [Tick; Deliver; Tick; Tick; Deliver; Abort; Tick; Tick].

Lemma aborted_step_drops_waiting_calls_witness :
  let st := sampleRun abortedAfterDispatch (initial sampleHistory "" twoCalls) in
  List.length (tasks st) = 1 /\
  toolCalls (sampleRun [HandlerDone 0] st) = [].
Proof.
  cbv zeta. split; [evaluate|].
  refine (proj1 (proj2 (proj2 _))).
  apply (aborted_step_drops_waiting_calls sampleId sampleNative sampleTransform
           sampleValidate sampleValidateCustom sampleOutput sampleTags
           "mock-message-id" abortedAfterDispatch [HandlerDone 0] sampleHistory
           "" twoCalls
           (mkTask (mkToolCall "call-0" "read_files" [("paths", "a.ts")]) false
              StreamDonePromise false false)); evaluate.
Defined.

Lemma structured_stream_returns_witness :
  pc (sampleRun (readAll twoCalls ++ finishAll 3)
        (initial sampleHistory "" twoCalls)) = Committed.
Proof.
  apply (structured_stream_returns sampleId sampleNative sampleTransform
           sampleValidate sampleValidateCustom sampleOutput sampleTags
           "mock-message-id" sampleHistory "" twoCalls).
  repeat constructor.
Defined.

Lemma inline_first_stream_returns_witness :
  inlineFirst inlineThenStructured = true /\
  pc (sampleRun (serveAll inlineThenStructured)
        (initial sampleHistory "" inlineThenStructured)) = Committed.
Proof.
  split; [reflexivity|].
  apply (inline_first_stream_returns sampleId sampleNative sampleTransform
           sampleValidate sampleValidateCustom sampleOutput sampleTags
           "mock-message-id" sampleHistory "" inlineThenStructured).
  reflexivity.
Defined.

End StreamParser.

(** ** packages/agent-runtime/src/tools/handlers/tool: task-completed.ts
       and read-docs.ts *)
Module Handlers.

Import Js.

(** *** Promises *)

(** A thrown value, or the reason of a rejection: an instance of [Error]
    with its [name], [message] and [stack], or anything else. *)
Inductive Thrown : Type :=
| ErrorInstance (name message : string) (stack : Value)
| NotAnError (v : Value).

(** How a promise stands. *)
Inductive Promise (T : Type) : Type :=
| Pending
| Fulfilled (v : T)
| Rejected (reason : Thrown).
Arguments Pending {T}.
Arguments Fulfilled {T} v.
Arguments Rejected {T} reason.

(** [const x = await p] in an async function whose rest is [k]. *)
Definition await {A B : Type} (p : Promise A) (k : A -> Promise B)
  : Promise B :=
  match p with
  | Pending => Pending
  | Fulfilled v => k v
  | Rejected reason => Rejected reason
  end.

(** [try { body } catch (error) { handler }] in an async function. *)
Definition tryCatch {A : Type} (body : Promise A)
  (handler : Thrown -> Promise A) : Promise A :=
  match body with
  | Rejected reason => handler reason
  | _ => body
  end.

(** A part of a tool output, [{ type: 'json', value }]. *)
Inductive ToolResultPart (V : Type) : Type :=
| Json (value : V).
Arguments Json {V} value.

(** What a handler returns. *)
Record HandlerReturn (R S : Type) : Type := mkHandlerReturn {
  result : Promise R;
  state : S
}.
Arguments mkHandlerReturn {R S} _ _.
Arguments result {R S} _.
Arguments state {R S} _.

(** *** task-completed.ts *)

Definition handleTaskCompleted (previousToolCallFinished : Promise unit)
  : HandlerReturn (list (ToolResultPart unit)) unit :=
  mkHandlerReturn
    (await previousToolCallFinished (fun _ => Fulfilled []))
    tt.

(** *** read-docs.ts *)

(** The parameters the handler reads: the tool call, the ids of the
    request, and the ids in [state]. *)
Record ReadDocsParams : Type := mkReadDocsParams {
  toolCallId : string;
  libraryTitle : string;
  topic : option string;
  max_tokens : option Z;
  agentStepId : string;
  clientSessionId : string;
  userInputId : string;
  userId : option string;
  fingerprintId : option string;
  repoId : option string
}.

(** What [callDocsSearchAPI] resolves to; a property that is absent reads
    [undefined]. *)
Record DocsResponse : Type := mkDocsResponse {
  documentation : Value;
  error : Value;
  creditsUsed : Value
}.

(** The value of the json part: [documentation], and [errorMessage] when
    the key is there. *)
Record DocsValue : Type := mkDocsValue {
  v_documentation : Value;
  v_errorMessage : option Value
}.

(** An entry written to the logger: the fields spread from [docsContext]
    are those of the parameters and are the same in every entry. *)
Inductive LogEntry : Type :=
| LogWarn (docsContext : ReadDocsParams) (docsDuration : Z)
    (usedWebApi success : bool) (error : Value) (msg : string)
| LogInfo (docsContext : ReadDocsParams) (docsDuration : Z)
    (resultLength estimatedTokens : nat) (hasResults usedWebApi : bool)
    (creditsUsed : Value) (success : bool) (msg : string)
| LogError (docsContext : ReadDocsParams) (error : Thrown) (docsDuration : Z)
    (success : bool) (msg : string).

(** What [documentationPromise] leaves when it settles: its value, the
    variable [capturedCreditsUsed], and the log entry. *)
Record Fetched : Type := mkFetched {
  value : DocsValue;
  capturedCreditsUsed : Value;
  logged : LogEntry
}.

Definition quote : string := String (ascii_of_nat 34) EmptyString.

Definition isString (v : Value) : bool :=
  match typeof v with TString => true | _ => false end.

Definition isNumber (v : Value) : bool :=
  match typeof v with TNumber => true | _ => false end.

(** [topic ? ` (topic: ${topic})` : ''] *)
Definition topicNote (topic : option string) : string :=
  match topic with
  | Some t => if String.eqb t "" then "" else (" (topic: " ++ t ++ ")")%string
  | None => ""
  end.

Definition isWhitespace (a : ascii) : bool :=
  let n := nat_of_ascii a in
  Nat.eqb n 32 || (Nat.leb 9 n && Nat.leb n 13).

(** [Boolean(s && s.trim())] for a string, with the white space of
    ASCII. *)
Definition hasText (s : string) : bool :=
  existsb (fun a => negb (isWhitespace a)) (list_ascii_of_string s).

(** The [try] block once [callDocsSearchAPI] has resolved; [now] is what
    [Date.now()] then answers. *)
Definition onResponse (p : ReadDocsParams) (docsStartTime now : Z)
  (viaWebApi : DocsResponse) : Fetched :=
  if negb (falsy (error viaWebApi)) || negb (isString (documentation viaWebApi))
  then
    let docsDuration := (now - docsStartTime)%Z in
    let docMsg :=
      ("Error fetching documentation for " ++ quote ++ libraryTitle p ++ quote
       ++ topicNote (topic p) ++ ": " ++ display (error viaWebApi))%string in
    mkFetched (mkDocsValue (Str docMsg) (Some (error viaWebApi)))
      (Number 0)
      (LogWarn p docsDuration true false (error viaWebApi)
         "Web API docs returned error")
  else
    let docsDuration := (now - docsStartTime)%Z in
    let resultLength :=
      match documentation viaWebApi with
      | Str s => String.length s
      | _ => 0
      end in
    let hasResults :=
      match documentation viaWebApi with
      | Str s => hasText s
      | _ => false
      end in
    let estimatedTokens := (resultLength + 3) / 4 in
    let capturedCreditsUsed :=
      if isNumber (creditsUsed viaWebApi) then creditsUsed viaWebApi
      else Number 0 in
    mkFetched (mkDocsValue (documentation viaWebApi) None)
      capturedCreditsUsed
      (LogInfo p docsDuration resultLength estimatedTokens hasResults true
         capturedCreditsUsed true
         "Documentation request completed successfully via web API").

(** The [catch] block. *)
Definition onThrow (p : ReadDocsParams) (docsStartTime now : Z)
  (error : Thrown) : Fetched :=
  let docsDuration := (now - docsStartTime)%Z in
  let errMsg :=
    ("Error fetching documentation for " ++ quote ++ libraryTitle p ++ quote
     ++ ": "
     ++ match error with
        | ErrorInstance _ message _ => message
        | NotAnError _ => "Unknown error"
        end)%string in
  mkFetched (mkDocsValue (Str errMsg) (Some (Str errMsg)))
    (Number 0)
    (LogError p error docsDuration false
       "Documentation request failed with error").

(** [documentationPromise], given how the promise of [callDocsSearchAPI]
    stands. *)
Definition documentationPromise (p : ReadDocsParams) (docsStartTime now : Z)
  (api : Promise DocsResponse) : Promise Fetched :=
  tryCatch
    (await api (fun viaWebApi => Fulfilled (onResponse p docsStartTime now viaWebApi)))
    (fun error => Fulfilled (onThrow p docsStartTime now error)).

(** The [state] of the handler's return. *)
Record ReadDocsState : Type := mkReadDocsState {
  s_creditsUsed : Promise Value
}.

Definition handleReadDocs (p : ReadDocsParams) (docsStartTime now : Z)
  (previousToolCallFinished : Promise unit) (api : Promise DocsResponse)
  : HandlerReturn (list (ToolResultPart DocsValue)) ReadDocsState :=
  let documentationPromise := documentationPromise p docsStartTime now api in
  mkHandlerReturn
    (await previousToolCallFinished (fun _ =>
     await documentationPromise (fun fetched =>
     Fulfilled [Json (value fetched)])))
    (mkReadDocsState
       (await documentationPromise (fun fetched =>
        Fulfilled (capturedCreditsUsed fetched)))).

(** *** Properties of the handlers *)

Lemma documentationPromise_settles (p : ReadDocsParams) (docsStartTime now : Z)
  (api : Promise DocsResponse) :
  match api with
  | Pending => documentationPromise p docsStartTime now api = Pending
  | Fulfilled viaWebApi =>
      documentationPromise p docsStartTime now api
      = Fulfilled (onResponse p docsStartTime now viaWebApi)
  | Rejected error =>
      documentationPromise p docsStartTime now api
      = Fulfilled (onThrow p docsStartTime now error)
  end.
Proof. destruct api; reflexivity. Qed.

(** Whatever [callDocsSearchAPI] does, once it has settled and the
    previous tool call has finished, [read_docs] answers with one json part
    whose [documentation] is a string: a failure of the API, returned or
    thrown, becomes text and never rejects the result. *)
Theorem read_docs_always_has_documentation (p : ReadDocsParams)
  (docsStartTime now : Z) (api : Promise DocsResponse) :
  api <> Pending ->
  exists v,
    result (handleReadDocs p docsStartTime now (Fulfilled tt) api)
    = Fulfilled [Json v] /\
    typeof (v_documentation v) = TString.
Proof.
  intros Hapi. destruct api as [|viaWebApi|error]; [contradiction| |].
  - exists (value (onResponse p docsStartTime now viaWebApi)).
    split; [reflexivity|]. unfold onResponse.
    destruct (falsy (Handlers.error viaWebApi)); cbn [negb orb];
      [|reflexivity].
    unfold isString.
    destruct (documentation viaWebApi) eqn:E; cbn; rewrite ?E; reflexivity.
  - exists (value (onThrow p docsStartTime now error)). split; reflexivity.
Qed.

(** A thrown string becomes a text. *)
Lemma read_docs_always_has_documentation_witness :
  exists v,
    result
      (handleReadDocs
         (mkReadDocsParams "call-0" "react" (Some "hooks") None "step"
            "session" "input" None None None)
         1000 1250 (Fulfilled tt)
         (Rejected (NotAnError (Str "String error"))))
    = Fulfilled [Json v] /\
    typeof (v_documentation v) = TString.
Proof.
  apply (read_docs_always_has_documentation
           (mkReadDocsParams "call-0" "react" (Some "hooks") None "step"
              "session" "input" None None None)
           1000 1250 (Rejected (NotAnError (Str "String error")))).
  discriminate.
Defined.

Example read_docs_thrown_string :
  result
    (handleReadDocs
       (mkReadDocsParams "call-0" "react" (Some "hooks") None "step"
          "session" "input" None None None)
       1000 1250 (Fulfilled tt)
       (Rejected (NotAnError (Str "String error"))))
  = Fulfilled
      [Json (mkDocsValue
               (Str ("Error fetching documentation for " ++ quote ++ "react"
                     ++ quote ++ ": Unknown error"))
               (Some (Str ("Error fetching documentation for " ++ quote
                           ++ "react" ++ quote ++ ": Unknown error"))))].
Proof. reflexivity. Qed.

(** An answer without error and without documentation: the text ends
    with [undefined], and [errorMessage] is there but undefined. *)
Example read_docs_no_documentation :
  value
    (onResponse
       (mkReadDocsParams "call-0" "react" (Some "hooks") None "step"
          "session" "input" None None None)
       1000 1250 (mkDocsResponse Undefined Undefined Undefined))
  = mkDocsValue
      (Str ("Error fetching documentation for " ++ quote ++ "react" ++ quote
            ++ " (topic: hooks): undefined"))
      (Some Undefined).
Proof. reflexivity. Qed.

(** The promise [state.creditsUsed] never rejects and does not wait for
    the previous tool call. It gives the [creditsUsed] of the API's answer
    when that answer carries no error, a string as [documentation] and a
    number as [creditsUsed]; in every other case, an answer with an error
    that names credits included, it gives 0. *)
Theorem read_docs_credits (p : ReadDocsParams) (docsStartTime now : Z)
  (previous : Promise unit) (api : Promise DocsResponse) :
  let credits := s_creditsUsed (state (handleReadDocs p docsStartTime now previous api)) in
  (forall reason, credits <> Rejected reason) /\
  credits
  = s_creditsUsed (state (handleReadDocs p docsStartTime now Pending api)) /\
  (credits = Pending <-> api = Pending) /\
  (forall c, credits = Fulfilled c ->
     c = Number 0 \/
     exists viaWebApi,
       api = Fulfilled viaWebApi /\ c = creditsUsed viaWebApi /\
       falsy (error viaWebApi) = true /\
       typeof (documentation viaWebApi) = TString /\
       typeof c = TNumber).
Proof.
  cbn zeta. destruct api as [|viaWebApi|error]; cbn.
  - repeat split; try discriminate; auto.
  - repeat split; try discriminate; auto.
    intros c Hc. injection Hc as <-. unfold onResponse.
    destruct (falsy (Handlers.error viaWebApi)) eqn:Ef; cbn [negb orb];
      [|left; reflexivity].
    unfold isString.
    destruct (typeof (documentation viaWebApi)) eqn:Ed; cbn;
      try (left; reflexivity).
    unfold isNumber.
    destruct (typeof (creditsUsed viaWebApi)) eqn:Ec; cbn;
      try (left; reflexivity).
    right. exists viaWebApi. auto.
  - repeat split; try discriminate; auto.
    intros c Hc. injection Hc as <-. left. reflexivity.
Qed.

(** The answer of [read_docs] carries no [errorMessage] exactly when the
    API answered without (truthy) error and with a string as
    [documentation], and that string, empty or not, is then passed on as
    it is. *)
Theorem read_docs_error_message (p : ReadDocsParams) (docsStartTime now : Z)
  (previous : Promise unit) (api : Promise DocsResponse) (v : DocsValue) :
  result (handleReadDocs p docsStartTime now previous api) = Fulfilled [Json v] ->
  (v_errorMessage v = None <->
   exists viaWebApi d,
     api = Fulfilled viaWebApi /\ falsy (error viaWebApi) = true /\
     documentation viaWebApi = Str d /\ v_documentation v = Str d).
Proof.
  intros H. destruct previous as [|[]|reason]; try discriminate H.
  destruct api as [|viaWebApi|error]; cbn in H; try discriminate H;
    injection H as <-.
  - unfold onResponse.
    destruct (falsy (Handlers.error viaWebApi)) eqn:Ef; cbn [negb orb].
    + unfold isString.
      destruct (documentation viaWebApi) eqn:Ed; cbn; split;
        try discriminate;
        try (intros [r [d (Hr & _ & Hd & _)]]; injection Hr as <-; congruence).
      intros _. exists viaWebApi, s. auto.
    + cbn. split; [discriminate|].
      intros [r [d (Hr & Hf & _)]]. injection Hr as <-. congruence.
  - cbn. split; [discriminate|]. intros [r [d (Hr & _)]]. discriminate Hr.
Qed.

Lemma read_docs_error_message_witness :
  v_errorMessage
    (value
       (onResponse
          (mkReadDocsParams "call-0" "react" None None "step" "session" "input"
             None None None)
          1000 1250 (mkDocsResponse (Str "") Undefined (Number 2))))
  = None.
Proof.
  apply (read_docs_error_message
           (mkReadDocsParams "call-0" "react" None None "step" "session" "input"
              None None None)
           1000 1250 (Fulfilled tt)
           (Fulfilled (mkDocsResponse (Str "") Undefined (Number 2)))
           (value
              (onResponse
                 (mkReadDocsParams "call-0" "react" None None "step" "session"
                    "input" None None None)
                 1000 1250 (mkDocsResponse (Str "") Undefined (Number 2))))).
  - reflexivity.
  - exists (mkDocsResponse (Str "") Undefined (Number 2)), "".
    repeat split.
Defined.

(** Both handlers await [previousToolCallFinished] first: while it is
    pending their result is pending, and when it rejects their result
    rejects with the same reason. [task_completed] then answers with the
    empty output; the result of [read_docs] is fulfilled only when the
    previous call has finished and the credits are known, while the credits
    may be known before the previous call has finished. *)
Theorem handlers_await_the_previous_call (p : ReadDocsParams)
  (docsStartTime now : Z) (previous : Promise unit)
  (api : Promise DocsResponse) :
  let done := handleTaskCompleted previous in
  let docs := handleReadDocs p docsStartTime now previous api in
  (previous = Pending -> result done = Pending /\ result docs = Pending) /\
  (forall reason, previous = Rejected reason ->
     result done = Rejected reason /\ result docs = Rejected reason) /\
  (forall u, previous = Fulfilled u -> result done = Fulfilled []) /\
  (forall out, result docs = Fulfilled out ->
     previous = Fulfilled tt /\
     exists c, s_creditsUsed (state docs) = Fulfilled c) /\
  (api <> Pending -> exists c, s_creditsUsed (state docs) = Fulfilled c).
Proof.
  cbn zeta. split; [|split; [|split; [|split]]].
  - intros ->. split; reflexivity.
  - intros reason ->. split; reflexivity.
  - intros u ->. reflexivity.
  - intros out H. destruct previous as [|[]|reason]; try discriminate H.
    split; [reflexivity|].
    destruct api as [|viaWebApi|error]; cbn in H; try discriminate H;
      eexists; reflexivity.
  - intros Hapi. destruct api as [|viaWebApi|error]; [contradiction| |];
      eexists; reflexivity.
Qed.

(** *** A handler handed [streamDonePromise] *)



End Handlers.
